(** * cspf: constrained shortest path first over a tagged multigraph

    A shallow embedding of [graph.go]: the graph store ([AddNode],
    [addEdge], [AddEdge]), the Dijkstra-style relaxation of [SPF] and
    [CSPF] with the constraint predicate kept on the graph, and the
    depth-first path enumerator [Paths].

    Conventions.
    - A Go [map] is a [gmap]; a lookup [m[k]] of a missing key yields the
      zero value of the value type, which is written out at each use.
    - A nil map and an empty map are told apart ([option (gmap _ _)]),
      since the zero [Graph{}] has a nil [VertexSet] and an edge built
      without tags has nil [Tags].
    - A [*Graph] receiver is an [option Graph]; [None] is the nil pointer.
    - [uint64] is [N] with the wrap-around of [+] written out.
    - The order in which [range] visits a map is not fixed by Go; it is
      an arbitrary permutation of the keys, given by [range_order].
    - A [[]Edge] that is only ever replaced by the result of [append] on
      itself (an adjacency list, an entry of [prevSet]) is a list.  The
      slice [path] of [Paths] is shared with the slices recorded in
      [paths] and is re-sliced from the front; it is a slice into a heap
      of arrays, with [append] writing in place when there is room. *)

From stdpp Require Import gmap strings list fin_maps.
From Stdlib Require Import NArith Lia.

Local Open Scope string_scope.
Local Open Scope list_scope.
Local Open Scope N_scope.

(** ** Errors *)

(** The values of Go's [error] interface that the package produces:
    sentinels made by [errors.New], the wrapping
    [fmt.Errorf("%w: %s", err, s)] of [AddEdge], and the errors of the
    expression engine (gval), whose text is all the package sees. *)
Inductive error : Type :=
| errors_New (text : string)
| fmt_Errorf_w (wrapped : error) (arg : string)
| gval_error (text : string).

Definition ErrDuplicateTagKey : error := errors_New "DuplicateTagKey".
Definition ErrNilGraph : error := errors_New "NilGraph".

#[global] Instance error_eq_dec : EqDecision error.
Proof. solve_decision. Defined.

(** [err.Error()] *)
Fixpoint Error (err : error) : string :=
  match err with
  | errors_New text => text
  | fmt_Errorf_w wrapped arg => Error wrapped +:+ ": " +:+ arg
  | gval_error text => text
  end.

(** [errors.Is(err, target)] *)
Fixpoint errors_Is (err target : error) : bool :=
  bool_decide (err = target) ||
  match err with
  | fmt_Errorf_w wrapped _ => errors_Is wrapped target
  | _ => false
  end.

(** [const infinity = uint64(math.MaxUint64)] *)
Definition infinity : N := 2 ^ 64 - 1.

(** [a + b] on [uint64] *)
Definition add64 (a b : N) : N := (a + b) mod 2 ^ 64.

(** ** Vertices *)

Record Vertex : Type := mkVertex { ID : string }.

#[global] Instance Vertex_eq_dec : EqDecision Vertex.
Proof. solve_decision. Defined.

#[global] Program Instance Vertex_countable : Countable Vertex :=
  inj_countable' ID mkVertex _.
Next Obligation. by intros []. Qed.

(** [Vertex{}], the zero value *)
Definition Vertex_zero : Vertex := mkVertex "".

(** ** Iteration over maps *)

(** A [for k := range m] visits the keys of [m] in an order Go leaves
    open.  Each [range] statement of the package is a site, numbered in
    source order; a site is given the keys and answers with the order in
    which the loop meets them. *)
Class MapRange : Type := {
  range_order : nat → list Vertex → list Vertex;
  range_order_perm : ∀ site keys, range_order site keys ≡ₚ keys
}.

Definition range_keys `{MapRange} {A : Type} (site : nat) (m : gmap Vertex A)
  : list Vertex :=
  range_order site (map_to_list m).*1.

(** ** Growth of slices *)

(** When [append] finds no room behind a slice it moves the elements to
    a new array.  The capacity of that array is the runtime's choice;
    all that is known of it is that the elements fit. *)
Class SliceGrowth : Type := {
  growslice : nat → nat → nat;
  growslice_fits : ∀ oldCap needed, (needed ≤ growslice oldCap needed)%nat
}.

(** ** Results of fallible code *)

(** A block that may leave the function with [return nil, err]. *)
Inductive result (A : Type) : Type :=
| Ok (a : A)
| Err (err : error).
Arguments Ok {A} a.
Arguments Err {A} err.

(** How one round of a [for] loop ends: it falls through to the next
    test of the loop condition, or it leaves the loop by [break], or it
    leaves the function with an error. *)
Inductive round (A : Type) : Type :=
| Continue (a : A)
| Break (a : A)
| Abort (err : error).
Arguments Continue {A} a.
Arguments Break {A} a.
Arguments Abort {A} err.

Section Cspf.

(** Go's [interface{}], the type of a tag's value. *)
Context {any : Type}.

(** ** Tags, edges, graphs *)

Record Tag : Type := mkTag { Key : string; Value : any }.

Record Edge : Type := mkEdge {
  From : Vertex;
  To : Vertex;
  Cost : N;
  Tags : option (gmap string any)
}.

(** [gval.Evaluable] as the package uses it: [EvalBool] applied to an
    edge's [Tags] gives a boolean and an error. *)
Definition Evaluable : Type := option (gmap string any) → bool * option error.

Record Graph : Type := mkGraph {
  VertexSet : option (gmap Vertex (list Edge));
  eval : option Evaluable
}.

(** [Graph{}] *)
Definition Graph_zero : Graph := mkGraph None None.

(** Reading a possibly nil map. *)
Definition vertices (g : Graph) : gmap Vertex (list Edge) :=
  default ∅ (VertexSet g).

(** [g.VertexSet[v]]: the nil slice when [v] is not a key. *)
Definition edges_of (g : Graph) (v : Vertex) : list Edge :=
  default [] (vertices g !! v).

(** ** Graph store *)

Definition initGraph (g : Graph) : Graph :=
  match VertexSet g with
  | None => mkGraph (Some ∅) (eval g)
  | Some _ => g
  end.

Definition AddNode (g : Graph) (v : Vertex) : Graph :=
  let g := initGraph g in
  match vertices g !! v with
  | Some _ => g
  | None => mkGraph (Some (<[v := []]> (vertices g))) (eval g)
  end.

Definition addEdge (g : Graph) (e : Edge) : Graph :=
  let g := AddNode g (From e) in
  let g := AddNode g (To e) in
  let edges := edges_of g (From e) in
  let edges := edges ++ [e] in
  mkGraph (Some (<[From e := edges]> (vertices g))) (eval g).

(** The loop of [AddEdge] over the supplied tags, filling [edge.Tags]. *)
Fixpoint collect_tags (tags : list Tag) (m : gmap string any)
  : gmap string any + error :=
  match tags with
  | [] => inl m
  | tag :: tags' =>
      match m !! Key tag with
      | Some _ => inr (fmt_Errorf_w ErrDuplicateTagKey (Key tag))
      | None => collect_tags tags' (<[Key tag := Value tag]> m)
      end
  end.

(** The map the loop has built from [m] once it is through [tags]. *)
Definition tag_map (tags : list Tag) (m : gmap string any) : gmap string any :=
  foldl (λ m tag, <[Key tag := Value tag]> m) m tags.

(** [AddEdge] on an allocated graph: the graph after the call and the
    returned error. *)
Definition AddEdge (g : Graph) (from to : Vertex) (cost : N) (tags : list Tag)
  : Graph * option error :=
  if negb (length tags =? 0)%nat then
    match collect_tags tags ∅ with
    | inr err => (g, Some err)
    | inl m => (addEdge g (mkEdge from to cost (Some m)), None)
    end
  else (addEdge g (mkEdge from to cost None), None).

(** ** Expression engine *)

(** [gval.Full().NewEvaluable(exp)]: a compiled predicate, or the parse
    error. *)
Class ExpressionEngine : Type := {
  NewEvaluable : string → Evaluable + error
}.

Context `{MapRange} `{ExpressionEngine}.

(** ** SPF *)

Definition edgeSatisfiesConstranints (g : Graph) (e : Edge) : bool * option error :=
  match eval g with
  | None => (true, None)
  | Some ev =>
      match ev (Tags e) with
      | (_, Some err) => (false, Some err)
      | (match_, None) => (match_, None)
      end
  end.

(** The three maps of [SPF]. *)
Record SPFState : Type := mkSPFState {
  unvisitedSet : gmap Vertex bool;
  distSet : gmap Vertex N;
  prevSet : gmap Vertex (list Edge)
}.

(** [unvisitedSet[v]], [distSet[v]], [prevSet[v]] with Go's zero values. *)
Definition unvisited (st : SPFState) (v : Vertex) : bool :=
  default false (unvisitedSet st !! v).
Definition dist (st : SPFState) (v : Vertex) : N :=
  default 0 (distSet st !! v).
Definition prev (st : SPFState) (v : Vertex) : list Edge :=
  default [] (prevSet st !! v).

(** The initialisation loop over [g.VertexSet] and [distSet[from] = 0]. *)
Definition spf_init (g : Graph) (from : Vertex) : SPFState :=
  let st :=
    foldl (λ st v, mkSPFState (<[v := true]> (unvisitedSet st))
                              (<[v := infinity]> (distSet st))
                              (<[v := []]> (prevSet st)))
          (mkSPFState ∅ ∅ ∅) (range_keys 0 (vertices g)) in
  mkSPFState (unvisitedSet st) (<[from := 0]> (distSet st)) (prevSet st).

(** The body of [for v := range unvisited] in
    [getSmallestDistanceVertex], on the pair of its two variables. *)
Definition closer (distSet : gmap Vertex N)
  (acc : N * Vertex) (v : Vertex) : N * Vertex :=
  let '(smallestDist, closestVertex) := acc in
  let dist := default 0 (distSet !! v) in
  if dist <? smallestDist then (dist, v) else (smallestDist, closestVertex).

Definition getSmallestDistanceVertex
  (unvisited : gmap Vertex bool) (distSet : gmap Vertex N) : Vertex :=
  snd (foldl (closer distSet) (infinity, Vertex_zero) (range_keys 1 unvisited)).

(** The body of [for _, edge := range g.VertexSet[closestVertex]]. *)
Definition relax_edge (g : Graph) (closestVertex : Vertex)
  (st : SPFState) (edge : Edge) : result SPFState :=
  if unvisited st (To edge) then
    match edgeSatisfiesConstranints g edge with
    | (_, Some err) => Err err
    | (satisfied, None) =>
        if satisfied then
          let distFromNeighbor := add64 (dist st closestVertex) (Cost edge) in
          if distFromNeighbor <=? dist st (To edge) then
            Ok (mkSPFState (unvisitedSet st)
                  (<[To edge := distFromNeighbor]> (distSet st))
                  (<[To edge := prev st (To edge) ++ [edge]]> (prevSet st)))
          else Ok st
        else Ok st
    end
  else Ok st.

Fixpoint relax_edges (g : Graph) (closestVertex : Vertex)
  (edges : list Edge) (st : SPFState) : result SPFState :=
  match edges with
  | [] => Ok st
  | edge :: edges' =>
      match relax_edge g closestVertex st edge with
      | Ok st' => relax_edges g closestVertex edges' st'
      | Err err => Err err
      end
  end.

(** The body of [for len(unvisitedSet) > 0]. *)
Definition spf_round (g : Graph) (st : SPFState) : round SPFState :=
  let setSize := size (unvisitedSet st) in
  let closestVertex :=
    getSmallestDistanceVertex (unvisitedSet st) (distSet st) in
  let st := mkSPFState (delete closestVertex (unvisitedSet st))
                       (distSet st) (prevSet st) in
  if (setSize =? size (unvisitedSet st))%nat then Break st
  else
    match relax_edges g closestVertex (edges_of g closestVertex) st with
    | Ok st' => Continue st'
    | Err err => Abort err
    end.

(** [for len(unvisitedSet) > 0 { ... }], at most [fuel] rounds; [None]
    when the rounds are used up with the loop still running.  A round
    that does not [break] removes a vertex, so the size of
    [unvisitedSet] is fuel enough (lemma [spf_loop_fuel]). *)
Fixpoint spf_loop (fuel : nat) (g : Graph) (st : SPFState)
  : option (result SPFState) :=
  if (0 <? size (unvisitedSet st))%nat then
    match fuel with
    | O => None
    | S fuel' =>
        match spf_round g st with
        | Continue st' => spf_loop fuel' g st'
        | Break st' => Some (Ok st')
        | Abort err => Some (Err err)
        end
    end
  else Some (Ok st).

(** Initialisation followed by the relaxation loop. *)
Definition relaxation (g : Graph) (from : Vertex) : option (result SPFState) :=
  let st := spf_init g from in
  spf_loop (size (unvisitedSet st)) g st.

(** The result graph: every edge of every entry of [prevSet]. *)
Definition spf_result (prevSet : gmap Vertex (list Edge)) : Graph :=
  foldl (λ SPF v, foldl addEdge SPF (default [] (prevSet !! v)))
        Graph_zero (range_keys 2 prevSet).

Definition SPF (g : option Graph) (from to : Vertex)
  : option Graph * option error :=
  match g with
  | None => (None, Some ErrNilGraph)
  | Some g =>
      match relaxation g from with
      | None => (None, None)
      | Some (Err err) => (None, Some err)
      | Some (Ok st) =>
          let SPF := Graph_zero in
          let SPF :=
            if bool_decide (is_Some (prevSet st !! to)) || bool_decide (to = from)
            then spf_result (prevSet st)
            else SPF in
          (Some SPF, None)
      end
  end.

(** [CSPF] writes [g.eval]: the receiver after the call comes first, the
    returned pair second. *)
Definition CSPF (g : option Graph) (from to : Vertex) (exp : string)
  : option Graph * (option Graph * option error) :=
  match g with
  | None => (None, (None, Some ErrNilGraph))
  | Some g0 =>
      match NewEvaluable exp with
      | inr err => (Some g0, (None, Some err))
      | inl eval =>
          let g1 := mkGraph (VertexSet g0) (Some eval) in
          (Some g1, SPF (Some g1) from to)
      end
  end.

(** ** Slices of edges *)

(** A [[]Edge]: [len] elements of the backing array [array] of the heap,
    from index [offset] on, with room for [cap] elements up to the end
    of the array. *)
Record slice : Type := mkSlice {
  array : nat;
  offset : nat;
  len : nat;
  cap : nat
}.

(** [Edge{}], which fills the unused room of a new array. *)
Definition Edge_zero : Edge := mkEdge Vertex_zero Vertex_zero 0 None.

(** The elements of [s] in the heap [h]. *)
Definition elements (h : list (list Edge)) (s : slice) : list Edge :=
  take (len s) (drop (offset s) (default [] (h !! array s))).

Context `{SliceGrowth}.

(** [append(s, e)]: in place when there is room, which writes to the
    array every slice of that array shares; into a new array otherwise. *)
Definition append (h : list (list Edge)) (s : slice) (e : Edge)
  : list (list Edge) * slice :=
  if (len s <? cap s)%nat then
    (alter (<[(offset s + len s)%nat := e]>) (array s) h,
     mkSlice (array s) (offset s) (S (len s)) (cap s))
  else
    let newcap := growslice (cap s) (S (len s)) in
    (h ++ [elements h s ++ e :: replicate (newcap - S (len s)) Edge_zero],
     mkSlice (length h) 0 (S (len s)) newcap).

(** [s[1:]] *)
Definition slice_from_1 (s : slice) : slice :=
  mkSlice (array s) (S (offset s)) (len s - 1) (cap s - 1).

(** ** Paths *)

(** The variables the closure [dfs] shares with [Paths], and the heap
    that holds the arrays of [path] and of the slices in [paths]. *)
Record DfsState : Type := mkDfsState {
  visited : gmap Vertex bool;
  heap : list (list Edge);
  path : slice;
  paths : list slice
}.

(** [for _, edge := range g.VertexSet[v] { if !visited[edge.To] { dfs(edge.To, &edge) } }],
    with [call] for the recursive call. *)
Fixpoint dfs_range (call : Vertex → option Edge → DfsState → option DfsState)
  (edges : list Edge) (st : DfsState) : option DfsState :=
  match edges with
  | [] => Some st
  | edge :: edges' =>
      if negb (default false (visited st !! To edge))
      then match call (To edge) (Some edge) st with
           | Some st' => dfs_range call edges' st'
           | None => None
           end
      else dfs_range call edges' st
  end.

(** [dfs(v, edge)]; [fuel] bounds the nesting of the calls, and [None]
    is a search cut short by it. *)
Fixpoint dfs (fuel : nat) (g : Graph) (to : Vertex)
  (v : Vertex) (edge : option Edge) (st : DfsState) : option DfsState :=
  match fuel with
  | O => None
  | S fuel' =>
      let st :=
        mkDfsState (<[v := true]> (visited st)) (heap st) (path st) (paths st) in
      let st :=
        match edge with
        | Some e =>
            let '(h, p) := append (heap st) (path st) e in
            mkDfsState (visited st) h p (paths st)
        | None => st
        end in
      let r :=
        if bool_decide (v = to)
        then Some (mkDfsState (visited st) (heap st) (path st)
                     (paths st ++ [path st]))
        else dfs_range (dfs fuel' g to) (edges_of g v) st in
      match r with
      | None => None
      | Some st =>
          let st :=
            if (0 <? len (path st))%nat
            then mkDfsState (visited st) (heap st) (slice_from_1 (path st))
                   (paths st)
            else st in
          Some (mkDfsState (<[v := false]> (visited st)) (heap st) (path st)
                  (paths st))
      end
  end.

(** The vertices marked [true] in [visited]. *)
Definition marked (visited : gmap Vertex bool) : gset Vertex :=
  dom (filter (λ kv, kv.2 = true) visited).

(** The vertices a search from [from] can meet: [from] and the targets
    of the edges. *)
Definition targets (g : Graph) : gset Vertex :=
  list_to_set (To <$> mjoin (map_to_list (vertices g)).*2).

(** A search from [from] never nests deeper than there are such
    vertices (lemma [dfs_total]). *)
Definition dfs_depth (g : Graph) (from : Vertex) : nat :=
  size ({[from]} ∪ targets g).

(** [visited := make(map[Vertex]bool)] and [path := []Edge{}], an empty
    slice of the empty array; [paths] is nil. *)
Definition dfs_start : DfsState :=
  mkDfsState ∅ [[]] (mkSlice 0 0 0 0) [].

(** The paths as the caller reads them once the search is over. *)
Definition Paths_fuel (fuel : nat) (g : Graph) (from to : Vertex)
  : option (list (list Edge)) :=
  (λ st, elements (heap st) <$> paths st) <$> dfs fuel g to from None dfs_start.

Definition Paths (g : option Graph) (from to : Vertex) : list (list Edge) :=
  match g with
  | None => []
  | Some g => default [] (Paths_fuel (dfs_depth g from) g from to)
  end.

(** ** Paths, the slices taken as values *)

(** The same search on lists: [append] adds at the end, [path[1:]] drops
    the head, and a recorded path is a list of its own.  Theorem
    [dfs_slices_as_values] shows that the sharing of arrays between
    [path] and the recorded slices changes nothing to what is read. *)
Record DfsValues : Type := mkDfsValues {
  visited_of : gmap Vertex bool;
  path_of : list Edge;
  paths_of : list (list Edge)
}.

Fixpoint dfs_range_values
  (call : Vertex → option Edge → DfsValues → option DfsValues)
  (edges : list Edge) (st : DfsValues) : option DfsValues :=
  match edges with
  | [] => Some st
  | edge :: edges' =>
      if negb (default false (visited_of st !! To edge))
      then match call (To edge) (Some edge) st with
           | Some st' => dfs_range_values call edges' st'
           | None => None
           end
      else dfs_range_values call edges' st
  end.

Fixpoint dfs_values (fuel : nat) (g : Graph) (to : Vertex)
  (v : Vertex) (edge : option Edge) (st : DfsValues) : option DfsValues :=
  match fuel with
  | O => None
  | S fuel' =>
      let st :=
        mkDfsValues (<[v := true]> (visited_of st)) (path_of st) (paths_of st) in
      let st :=
        match edge with
        | Some e => mkDfsValues (visited_of st) (path_of st ++ [e]) (paths_of st)
        | None => st
        end in
      let r :=
        if bool_decide (v = to)
        then Some (mkDfsValues (visited_of st) (path_of st)
                     (paths_of st ++ [path_of st]))
        else dfs_range_values (dfs_values fuel' g to) (edges_of g v) st in
      match r with
      | None => None
      | Some st =>
          let st :=
            if (0 <? length (path_of st))%nat
            then mkDfsValues (visited_of st) (drop 1 (path_of st)) (paths_of st)
            else st in
          Some (mkDfsValues (<[v := false]> (visited_of st)) (path_of st)
                  (paths_of st))
      end
  end.

Definition Paths_values (fuel : nat) (g : Graph) (from to : Vertex)
  : option (list (list Edge)) :=
  paths_of <$> dfs_values fuel g to from None (mkDfsValues ∅ [] []).

(** A slice [s] lies in the heap [h]: its array is there and its room
    ends where the array ends. *)
Definition slice_fits (h : list (list Edge)) (s : slice) : Prop :=
  ∃ a, h !! array s = Some a ∧
       (offset s + cap s)%nat = length a ∧ (len s ≤ cap s)%nat.

(** A recorded slice [p] is out of the reach of [append] on [s]: it lies
    in the heap and, in the array of [s], it ends no later than [s]. *)
Definition slice_kept (h : list (list Edge)) (s p : slice) : Prop :=
  ∃ a, h !! array p = Some a ∧
       (offset p + len p ≤ length a)%nat ∧
       (array p = array s → (offset p + len p ≤ offset s + len s)%nat).

(** The state of the search on slices shows what the state of the search
    on values holds. *)
Definition shows (st : DfsState) (vs : DfsValues) : Prop :=
  visited st = visited_of vs ∧
  elements (heap st) (path st) = path_of vs ∧
  elements (heap st) <$> paths st = paths_of vs ∧
  slice_fits (heap st) (path st) ∧
  Forall (slice_kept (heap st) (path st)) (paths st).

(** A sequence of edges that leads from [v] to [to]: the first edge
    leaves [v], every edge leaves the vertex the one before it enters,
    and the last edge enters [to]. *)
Fixpoint walk (v : Vertex) (p : list Edge) (to : Vertex) : Prop :=
  match p with
  | [] => v = to
  | edge :: p' => From edge = v ∧ walk (To edge) p' to
  end.

End Cspf.

(** * Instances and inputs *)

(** ** An order of iteration *)

(** The keys in the order the map lists them. *)
Definition keys_in_order : MapRange :=
  {| range_order := λ _ keys, keys;
     range_order_perm := λ _ keys, Permutation_refl keys |}.

(** The keys in the reverse of that order. *)
Definition keys_reversed : MapRange :=
  {| range_order := λ _ keys, reverse keys;
     range_order_perm := λ _ keys, reverse_Permutation keys |}.

(** ** Runs that no order of iteration can change *)

Section OrderFree.

Context {any : Type}.

(** No two unvisited vertices compete for the least distance below
    [infinity]: every unvisited vertex is the one found with the keys in
    order, or lies farther, or is at [infinity]. *)
Definition tie_free (unvisited : gmap Vertex bool) (distSet : gmap Vertex N)
  : bool :=
  let closest := @getSmallestDistanceVertex keys_in_order unvisited distSet in
  forallb (λ v, bool_decide (v = closest)
                || (default 0 (distSet !! closest) <? default 0 (distSet !! v))
                || negb (default 0 (distSet !! v) <? infinity))
          (map_to_list unvisited).*1.

(** No round of the loop meets a tie. *)
Fixpoint tie_free_loop (fuel : nat) (g : @Graph any) (st : @SPFState any)
  : bool :=
  if (0 <? size (unvisitedSet st))%nat then
    match fuel with
    | O => true
    | S fuel' =>
        tie_free (unvisitedSet st) (distSet st) &&
        match @spf_round any keys_in_order g st with
        | Continue st' => tie_free_loop fuel' g st'
        | _ => true
        end
    end
  else true.

(** The relaxation meets no tie and records at most one edge, so that
    the result graph is built in one way only. *)
Definition order_free (g : @Graph any) (from : Vertex) : bool :=
  let st := @spf_init any keys_in_order g from in
  tie_free_loop (size (unvisitedSet st)) g st &&
  match @relaxation any keys_in_order g from with
  | Some (Ok st') => (length (mjoin (map_to_list (prevSet st')).*2) <=? 1)%nat
  | _ => true
  end.

End OrderFree.

(** ** A growth of slices and an expression engine *)

(** New arrays twice as large as the old ones, or as large as needed. *)
Definition doubling : SliceGrowth :=
  {| growslice := λ oldCap needed, Nat.max needed (2 * oldCap);
     growslice_fits := λ oldCap needed, Nat.le_max_l needed (2 * oldCap) |}.

(** A small engine over string tags, standing in for gval: an expression
    is the value asked of the tag [link]; the empty expression does not
    parse, and an edge without a [link] tag cannot be evaluated. *)
Definition link_equals (colour : string) : @Evaluable string :=
  λ tags,
    match tags ≫= (.!! "link") with
    | Some value => (String.eqb value colour, None)
    | None => (false, Some (gval_error "unknown parameter link"))
    end.

Definition link_engine : @ExpressionEngine string :=
  {| NewEvaluable := λ exp,
       if String.eqb exp "" then inr (gval_error "parsing error")
       else inl (link_equals exp) |}.

(** ** Graphs *)

Definition vA : Vertex := mkVertex "A".
Definition vB : Vertex := mkVertex "B".
Definition vC : Vertex := mkVertex "C".
Definition vD : Vertex := mkVertex "D".
Definition vE : Vertex := mkVertex "E".

Definition tagBlue : @Tag string := mkTag "link" "blue".
Definition tagRed : @Tag string := mkTag "link" "red".

(** [g.AddEdge(from, to, cost, tags...)] with the error dropped, as the
    examples of the package call it. *)
Definition with_edge (g : @Graph string) (from to : Vertex) (cost : N)
  (tags : list (@Tag string)) : @Graph string :=
  (AddEdge g from to cost tags).1.

(** A -> B, then B -> C and B -> D. *)
Definition fork : @Graph string :=
  with_edge (with_edge (with_edge Graph_zero vA vB 1 []) vB vC 1 []) vB vD 1 [].

(** A -> B, and C on its own. *)
Definition apart : @Graph string :=
  AddNode (with_edge Graph_zero vA vB 1 []) vC.

(** A on its own, and an edge of cost 5 from the vertex with the empty
    ID to B. *)
Definition unnamed : @Graph string :=
  with_edge (AddNode Graph_zero vA) Vertex_zero vB 5 [].

(** The graph of the package's example for [CSPF]: a red path
    A -> B -> C -> E and a blue path A -> D -> E. *)
Definition coloured : @Graph string :=
  with_edge (with_edge (with_edge (with_edge (with_edge Graph_zero
    vA vB 2 [tagRed]) vB vC 2 [tagRed]) vC vE 2 [tagRed])
    vA vD 1 [tagBlue]) vD vE 1 [tagBlue].

(** The graph of the package's test [TestSPF]: A -> B -> D and
    A -> C -> D, every edge of cost 1. *)
Definition diamond : @Graph string :=
  with_edge (with_edge (with_edge (with_edge Graph_zero
    vA vB 1 []) vA vC 1 []) vB vD 1 []) vC vD 1 [].

(** The graph of the package's test [TestSPFWithCycle]: the cycle
    A -> B -> C -> D -> A and D -> E, every edge of cost 1. *)
Definition cycle : @Graph string :=
  with_edge (with_edge (with_edge (with_edge (with_edge Graph_zero
    vA vB 1 []) vB vC 1 []) vC vD 1 []) vD vA 1 []) vD vE 1 [].

(** A -> B with a blue tag, then A -> C with no tag at all. *)
Definition untagged : @Graph string :=
  with_edge (with_edge Graph_zero vA vB 1 [tagBlue]) vA vC 1 [].

(** The state in which the relaxation of [g] from [from] ends. *)
Definition relaxed (g : @Graph string) (from : Vertex) : @SPFState string :=
  match @relaxation string keys_in_order g from with
  | Some (Ok st) => st
  | _ => mkSPFState ∅ ∅ ∅
  end.

(** The state in which the relaxation of [g] from [from] ends with the
    keys in reverse order. *)
Definition relaxed_in_reverse (g : @Graph string) (from : Vertex)
  : @SPFState string :=
  match @relaxation string keys_reversed g from with
  | Some (Ok st) => st
  | _ => mkSPFState ∅ ∅ ∅
  end.

(** The graph that [SPF] returns, the empty graph when it returns none. *)
Definition SPF_graph (g : @Graph string) (from to : Vertex) : @Graph string :=
  default Graph_zero (@SPF string keys_in_order (Some g) from to).1.

(** [coloured] with the predicate of the expression [link == "red"]. *)
Definition coloured_red : @Graph string :=
  mkGraph (VertexSet coloured) (Some (link_equals "red")).

(** * Notions for the further properties *)

Section Notions.

Context {any : Type}.

(** ** Graphs built through the package *)

(** A call of one of the two exported methods that change a graph. *)
Inductive operation : Type :=
| add_node (v : Vertex)
| add_edge (from to : Vertex) (cost : N) (tags : list (@Tag any)).

(** The graph after the call, the error of [AddEdge] dropped. *)
Definition apply_operation (g : @Graph any) (op : operation) : @Graph any :=
  match op with
  | add_node v => AddNode g v
  | add_edge from to cost tags => (AddEdge g from to cost tags).1
  end.

(** The graph a sequence of calls makes of [Graph{}]. *)
Definition built (ops : list operation) : @Graph any :=
  foldl apply_operation Graph_zero ops.

(** Every edge is kept in the list of the vertex it leaves, and the
    vertex it enters is a key of the vertex set. *)
Definition stored (g : @Graph any) : Prop :=
  ∀ v e, e ∈ edges_of g v → From e = v ∧ is_Some (vertices g !! To e).

(** ** Edges that pass the predicate *)

Definition allowed (g : @Graph any) (e : @Edge any) : bool :=
  match edgeSatisfiesConstranints g e with
  | (true, None) => true
  | _ => false
  end.

(** The graph without the edges that do not pass the predicate of [g],
    and with no predicate. *)
Definition prune (g : @Graph any) : @Graph any :=
  mkGraph
    (match VertexSet g with
     | Some m => Some (filter (λ e, allowed g e = true) <$> m)
     | None => None
     end)
    None.

(** ** States of the relaxation *)

(** From [st] to [st']: predecessor edges are only added behind the ones
    there, distances only go down, and a vertex no longer unvisited
    keeps its distance and its predecessor edges and stays so. *)
Definition improves (st st' : @SPFState any) : Prop :=
  ∀ v, prev st v `prefix_of` prev st' v ∧
       dist st' v ≤ dist st v ∧
       (unvisited st v = false →
        dist st' v = dist st v ∧ prev st' v = prev st v ∧
        unvisited st' v = false).

(** ** Routes *)

(** The sum of the costs, not bounded by 64 bits. *)
Definition cost_of (p : list (@Edge any)) : N :=
  foldr (λ e n, Cost e + n) 0 p.

(** A walk from [v] to [to] along edges of [g] that pass the predicate. *)
Definition route (g : @Graph any) (v : Vertex) (p : list (@Edge any))
  (to : Vertex) : Prop :=
  walk v p to ∧ Forall (λ e, e ∈ edges_of g (From e) ∧ allowed g e = true) p.

(** ** Recorded paths *)

(** A sequence of edges of the graph, the last of which enters [to]. *)
Definition arrives (g : @Graph any) (to : Vertex) (p : list (@Edge any))
  : Prop :=
  Forall (λ e, ∃ w, e ∈ edges_of g w) p ∧ ∃ p' e, p = p' ++ [e] ∧ To e = to.

(** ** The invariant of the relaxation *)

(** All the edges of the graph, and the largest of their costs. *)
Definition edges (g : @Graph any) : list (@Edge any) :=
  mjoin (map_to_list (vertices g)).*2.

Definition max_cost (g : @Graph any) : N :=
  foldr N.max 0 (Cost <$> edges g).

(** A vertex of the graph that has been taken out of the unvisited set. *)
Definition settled (g : @Graph any) (st : @SPFState any) (v : Vertex) : Prop :=
  is_Some (vertices g !! v) ∧ unvisited st v = false.

(** What holds of the three maps before every round, for a source
    [from], when no sum of a distance and a cost passes 64 bits:
    - the unvisited vertices are vertices of the graph, marked [true];
    - the source is at distance 0;
    - a distance below [infinity] is the cost of a route from the
      source, along recorded predecessor edges;
    - the distance of a settled vertex is below [infinity] and is the
      least cost of a route from the source;
    - the edges that leave a settled vertex have been relaxed;
    - distances below [infinity] are bounded by the number of settled
      vertices times the largest cost;
    - settled vertices are no farther than unvisited ones;
    - an edge of positive cost that leaves a settled vertex and still
      gives the distance of the vertex it enters is recorded there;
    - a recorded edge leaves a settled vertex. *)
Definition relaxed_so_far (g : @Graph any) (from : Vertex) (st : @SPFState any)
  : Prop :=
  (∀ v, is_Some (unvisitedSet st !! v) →
        unvisited st v = true ∧ is_Some (vertices g !! v)) ∧
  (size (unvisitedSet st) ≤ size (vertices g))%nat ∧
  dist st from = 0 ∧
  (∀ v, is_Some (vertices g !! v) → dist st v < infinity →
        ∃ p, route g from p v ∧ cost_of p = dist st v ∧
             Forall (λ e, e ∈ prev st (To e)) p) ∧
  (∀ v, settled g st v →
        dist st v < infinity ∧ ∀ p, route g from p v → dist st v ≤ cost_of p) ∧
  (∀ u e, settled g st u → e ∈ edges_of g u → allowed g e = true →
          unvisited st (To e) = true →
          dist st (To e) ≤ dist st u + Cost e) ∧
  (∀ v, is_Some (vertices g !! v) → dist st v < infinity →
        dist st v
        ≤ N.of_nat (size (vertices g) - size (unvisitedSet st)) * max_cost g) ∧
  (∀ u v, settled g st u → unvisited st v = true → dist st u ≤ dist st v) ∧
  (∀ u e, settled g st u → e ∈ edges_of g u → allowed g e = true →
          0 < Cost e → dist st u + Cost e ≤ dist st (To e) →
          e ∈ prev st (To e)) ∧
  (∀ w e, e ∈ prev st w → settled g st (From e)).

End Notions.

(** * Properties *)

Section GraphStore.

Context {any : Type}.
Implicit Types (g : @Graph any) (e : @Edge any) (v : Vertex).
Implicit Types (tags : list (@Tag any)) (m : gmap string any).

(** ** AddNode and addEdge *)

Lemma vertices_initGraph g : vertices (initGraph g) = vertices g.
Proof. by destruct g as [[?|] ?]. Qed.

Lemma eval_initGraph g : eval (initGraph g) = eval g.
Proof. by destruct g as [[?|] ?]. Qed.

Lemma eval_AddNode g v : eval (AddNode g v) = eval g.
Proof.
  unfold AddNode.
  destruct (vertices (initGraph g) !! v); simpl; apply eval_initGraph.
Qed.

Lemma vertices_AddNode g v :
  vertices (AddNode g v) =
  match vertices g !! v with
  | Some _ => vertices g
  | None => <[v := []]> (vertices g)
  end.
Proof.
  unfold AddNode. rewrite vertices_initGraph.
  destruct (vertices g !! v); [|done]. apply vertices_initGraph.
Qed.

Lemma VertexSet_AddNode g v : is_Some (VertexSet (AddNode g v)).
Proof.
  unfold AddNode. rewrite vertices_initGraph.
  destruct (vertices g !! v); [|by eexists].
  destruct g as [[?|] ?]; by eexists.
Qed.

Lemma lookup_AddNode g v w :
  vertices (AddNode g v) !! w =
  if decide (v = w) then Some (edges_of g v) else vertices g !! w.
Proof.
  rewrite vertices_AddNode. unfold edges_of.
  destruct (vertices g !! v) as [es|] eqn:Hv.
  - case_decide; by subst.
  - rewrite lookup_insert. by case_decide.
Qed.

Lemma edges_of_AddNode g v w : edges_of (AddNode g v) w = edges_of g w.
Proof.
  unfold edges_of at 1. rewrite lookup_AddNode.
  case_decide; by subst.
Qed.

(** Adding a vertex twice is adding it once. *)
Lemma AddNode_idempotent g v : AddNode (AddNode g v) v = AddNode g v.
Proof.
  unfold AddNode at 1. rewrite vertices_initGraph, lookup_AddNode.
  rewrite decide_True by done.
  destruct (VertexSet_AddNode g v) as [vs Hvs].
  unfold initGraph. by rewrite Hvs.
Qed.

Lemma lookup_addEdge g e w :
  vertices (addEdge g e) !! w =
  if decide (From e = w) then Some (edges_of g (From e) ++ [e])
  else if decide (To e = w) then Some (edges_of g (To e))
  else vertices g !! w.
Proof.
  unfold addEdge, vertices at 1; simpl. rewrite lookup_insert.
  rewrite !edges_of_AddNode.
  case_decide; [done|].
  rewrite !lookup_AddNode. rewrite edges_of_AddNode.
  case_decide; [done|]. by rewrite decide_False.
Qed.

Lemma edges_of_addEdge g e w :
  edges_of (addEdge g e) w =
  if decide (From e = w) then edges_of g w ++ [e] else edges_of g w.
Proof.
  unfold edges_of at 1. rewrite lookup_addEdge.
  repeat case_decide; by subst.
Qed.

Lemma eval_addEdge g e : eval (addEdge g e) = eval g.
Proof. unfold addEdge; simpl. by rewrite !eval_AddNode. Qed.

(** ** The tag loop of AddEdge *)

Lemma tag_map_lookup_other tags m k :
  k ∉ Key <$> tags → tag_map tags m !! k = m !! k.
Proof.
  revert m. induction tags as [|t tags IH]; intros m Hk; [done|].
  rewrite fmap_cons, not_elem_of_cons in Hk. destruct Hk as [Hne Hk].
  simpl. rewrite IH by done. by rewrite lookup_insert_ne.
Qed.

Lemma tag_map_lookup tags m k x :
  NoDup (Key <$> tags) →
  mkTag k x ∈ tags → tag_map tags m !! k = Some x.
Proof.
  revert m. induction tags as [|t tags IH]; intros m Hnd Hin.
  - by apply elem_of_nil in Hin.
  - rewrite fmap_cons in Hnd. apply NoDup_cons in Hnd as [Hfresh Hnd].
    apply elem_of_cons in Hin as [<-|Hin]; simpl.
    + rewrite tag_map_lookup_other by done. apply lookup_insert_eq.
    + by apply IH.
Qed.

Lemma tag_map_lookup_inv tags m k x :
  tag_map tags m !! k = Some x → mkTag k x ∈ tags ∨ m !! k = Some x.
Proof.
  revert m. induction tags as [|t tags IH]; intros m Hk; [by right|].
  simpl in Hk. apply IH in Hk as [Hk|Hk].
  - left. by right.
  - rewrite lookup_insert in Hk. case_decide as Heq.
    + left. destruct t; simpl in *. simplify_eq. by left.
    + by right.
Qed.

Lemma collect_tags_fresh tags m :
  NoDup (Key <$> tags) →
  (∀ k, k ∈ Key <$> tags → m !! k = None) →
  collect_tags tags m = inl (tag_map tags m).
Proof.
  revert m. induction tags as [|t tags IH]; intros m Hnd Hm; [done|].
  rewrite fmap_cons in Hnd, Hm. apply NoDup_cons in Hnd as [Hfresh Hnd].
  simpl. rewrite (Hm (Key t)) by left.
  apply IH; [done|]. intros k Hk.
  rewrite lookup_insert_ne; [apply Hm; by right|].
  intros <-. done.
Qed.

Lemma collect_tags_duplicate l1 t l2 m :
  NoDup (Key <$> l1) →
  (∀ k, k ∈ Key <$> l1 → m !! k = None) →
  Key t ∈ Key <$> l1 ∨ is_Some (m !! Key t) →
  collect_tags (l1 ++ t :: l2) m
  = inr (fmt_Errorf_w ErrDuplicateTagKey (Key t)).
Proof.
  revert m. induction l1 as [|t1 l1 IH]; intros m Hnd Hm Hdup.
  - destruct Hdup as [Hdup|[x Hx]]; [by apply elem_of_nil in Hdup|].
    simpl. by rewrite Hx.
  - rewrite fmap_cons in Hnd, Hm, Hdup. apply NoDup_cons in Hnd as [Hfresh Hnd].
    simpl. rewrite (Hm (Key t1)) by left.
    apply IH; [done| |].
    + intros k Hk. rewrite lookup_insert_ne; [apply Hm; by right|].
      by intros <-.
    + destruct Hdup as [Hdup|[x Hx]].
      * apply elem_of_cons in Hdup as [->|Hdup]; [right|by left].
        rewrite lookup_insert_eq. by eexists.
      * assert (Key t ∉ Key t1 :: (Key <$> l1)) as Hnot.
        { intros Hin. apply Hm in Hin. congruence. }
        apply not_elem_of_cons in Hnot as [Hne _].
        right. rewrite lookup_insert_ne by done. by eexists.
Qed.

(** A list with a repeated key splits at the first tag whose key has
    already occurred. *)
Lemma first_duplicate_key tags :
  ¬ NoDup (Key <$> tags) →
  ∃ l1 t l2, tags = l1 ++ t :: l2 ∧ NoDup (Key <$> l1) ∧ Key t ∈ Key <$> l1.
Proof.
  induction tags as [|t tags IH] using rev_ind; intros Hdup.
  - exfalso. apply Hdup. constructor.
  - destruct (decide (NoDup (Key <$> tags))) as [Hnd|Hnd].
    + exists tags, t, []. split_and!; [done..|].
      destruct (decide (Key t ∈ Key <$> tags)) as [|Hnot]; [done|].
      exfalso. apply Hdup. rewrite fmap_app. apply NoDup_app.
      split_and!; [done| |apply NoDup_singleton].
      intros k Hk Hk'. simpl in Hk'. apply list_elem_of_singleton in Hk'.
      by subst.
    + destruct (IH Hnd) as (l1 & t' & l2 & -> & ? & ?).
      exists l1, t', (l2 ++ [t]). by rewrite <- app_assoc.
Qed.

(** ** AddEdge *)

(** C5. When two of the supplied tags share a key, [AddEdge] returns the
    error [DuplicateTagKey] wrapped with the offending key (the key of
    the first tag whose key has already occurred) and the graph is the
    one before the call.  When the keys are pairwise distinct it returns
    nil and the graph is [addEdge g e] for the edge [e] built from the
    arguments: both endpoints are keys of the vertex set, [e] is last in
    the list of [from], and nothing else has changed. *)
Theorem AddEdge_validates_before_mutating g from to cost tags :
  (¬ NoDup (Key <$> tags) →
   ∃ l1 t l2,
     tags = l1 ++ t :: l2 ∧ NoDup (Key <$> l1) ∧ Key t ∈ Key <$> l1 ∧
     AddEdge g from to cost tags
       = (g, Some (fmt_Errorf_w ErrDuplicateTagKey (Key t))) ∧
     Error (fmt_Errorf_w ErrDuplicateTagKey (Key t))
       = "DuplicateTagKey: " +:+ Key t ∧
     errors_Is (fmt_Errorf_w ErrDuplicateTagKey (Key t)) ErrDuplicateTagKey
       = true)
  ∧
  (NoDup (Key <$> tags) →
   ∃ e,
     AddEdge g from to cost tags = (addEdge g e, None) ∧
     From e = from ∧ To e = to ∧ Cost e = cost ∧
     Tags e = (if decide (tags = []) then None else Some (tag_map tags ∅)) ∧
     (∀ k x, tag_map tags ∅ !! k = Some x ↔ mkTag k x ∈ tags) ∧
     edges_of (addEdge g e) from = edges_of g from ++ [e] ∧
     is_Some (vertices (addEdge g e) !! from) ∧
     is_Some (vertices (addEdge g e) !! to) ∧
     (∀ v, v ≠ from → edges_of (addEdge g e) v = edges_of g v) ∧
     (∀ v, v ≠ from → v ≠ to →
           vertices (addEdge g e) !! v = vertices g !! v) ∧
     eval (addEdge g e) = eval g).
Proof.
  split.
  - intros Hdup.
    destruct (first_duplicate_key tags Hdup) as (l1 & t & l2 & -> & Hnd & Hin).
    exists l1, t, l2. split_and!; [done..| |done|].
    + unfold AddEdge.
      rewrite (collect_tags_duplicate l1 t l2 ∅) by (done || by left).
      rewrite length_app; simpl. by rewrite Nat.add_succ_r.
    + reflexivity.
  - intros Hnd.
    set (e := mkEdge from to cost
                (if decide (tags = []) then None else Some (tag_map tags ∅))).
    exists e. split_and!; try done.
    + unfold AddEdge. destruct tags as [|t tags]; [done|].
      rewrite collect_tags_fresh by done. done.
    + intros k x. split.
      * intros Hk. by apply tag_map_lookup_inv in Hk as [Hk|Hk].
      * by apply tag_map_lookup.
    + rewrite edges_of_addEdge. by rewrite decide_True.
    + rewrite lookup_addEdge. rewrite decide_True by done. by eexists.
    + rewrite lookup_addEdge. simpl.
      repeat case_decide; first [congruence | by eexists].
    + intros v Hv. rewrite edges_of_addEdge. by rewrite decide_False.
    + intros v Hv1 Hv2. rewrite lookup_addEdge. simpl.
      by rewrite !decide_False.
    + apply eval_addEdge.
Qed.

End GraphStore.

Section ShortestPaths.

Context {any : Type} {order : MapRange} {engine : @ExpressionEngine any}.
Implicit Types (g : @Graph any) (e edge : @Edge any) (v : Vertex).
Implicit Types (st : @SPFState any).

(** ** Ranging over a map *)

Lemma elem_of_range_keys {A} site (m : gmap Vertex A) v :
  v ∈ range_keys site m ↔ is_Some (m !! v).
Proof.
  unfold range_keys. rewrite range_order_perm, list_elem_of_fmap. split.
  - intros ([k x] & -> & Hin). apply elem_of_map_to_list in Hin. by eexists.
  - intros [x Hx]. exists (v, x). split; [done|]. by apply elem_of_map_to_list.
Qed.

(** ** Initialisation *)

Lemma spf_init_fold keys st0 :
  let st := foldl (λ st v, mkSPFState (<[v := true]> (unvisitedSet st))
                                      (<[v := infinity]> (distSet st))
                                      (<[v := []]> (prevSet st))) st0 keys in
  ∀ v,
    unvisitedSet st !! v
      = (if decide (v ∈ keys) then Some true else unvisitedSet st0 !! v) ∧
    distSet st !! v
      = (if decide (v ∈ keys) then Some infinity else distSet st0 !! v) ∧
    prevSet st !! v
      = (if decide (v ∈ keys) then Some [] else prevSet st0 !! v).
Proof.
  induction keys as [|k keys IH] using rev_ind; intros st v.
  - subst st. rewrite !decide_False; [done|apply not_elem_of_nil..].
  - subst st. rewrite foldl_app; simpl.
    specialize (IH v); simpl in IH. destruct IH as (IH1 & IH2 & IH3).
    rewrite !lookup_insert, IH1, IH2, IH3.
    destruct (decide (k = v)) as [->|Hne].
    + rewrite !decide_True; [done|apply elem_of_app; right; left..].
    + destruct (decide (v ∈ keys)) as [Hin|Hin].
      * rewrite !decide_True; [done|apply elem_of_app; by left..].
      * rewrite !decide_False; [done|..];
          (intros [?|?%list_elem_of_singleton]%elem_of_app; by subst).
Qed.

Lemma spf_init_unvisitedSet g from v :
  unvisitedSet (spf_init g from) !! v
  = match vertices g !! v with Some _ => Some true | None => None end.
Proof.
  unfold spf_init; cbn [unvisitedSet].
  destruct (spf_init_fold (range_keys 0 (vertices g)) (mkSPFState ∅ ∅ ∅) v)
    as (-> & _ & _); cbn [unvisitedSet distSet prevSet].
  case_decide as Hin; rewrite elem_of_range_keys in Hin.
  - by destruct Hin as [x ->].
  - apply eq_None_not_Some in Hin. by rewrite Hin.
Qed.

Lemma spf_init_prevSet g from v :
  prevSet (spf_init g from) !! v
  = match vertices g !! v with Some _ => Some [] | None => None end.
Proof.
  unfold spf_init; cbn [prevSet].
  destruct (spf_init_fold (range_keys 0 (vertices g)) (mkSPFState ∅ ∅ ∅) v)
    as (_ & _ & ->); cbn [unvisitedSet distSet prevSet].
  case_decide as Hin; rewrite elem_of_range_keys in Hin.
  - by destruct Hin as [x ->].
  - apply eq_None_not_Some in Hin. by rewrite Hin.
Qed.

Lemma spf_init_distSet g from v :
  distSet (spf_init g from) !! v
  = if decide (from = v) then Some 0
    else match vertices g !! v with Some _ => Some infinity | None => None end.
Proof.
  unfold spf_init; cbn [distSet]. rewrite lookup_insert.
  case_decide; [done|].
  destruct (spf_init_fold (range_keys 0 (vertices g)) (mkSPFState ∅ ∅ ∅) v)
    as (_ & -> & _); cbn [unvisitedSet distSet prevSet].
  case_decide as Hin; rewrite elem_of_range_keys in Hin.
  - by destruct Hin as [x ->].
  - apply eq_None_not_Some in Hin. by rewrite Hin.
Qed.

(** ** One edge, one vertex *)

Lemma relax_edge_cases g c st edge :
  relax_edge g c st edge =
  if unvisited st (To edge) then
    match edgeSatisfiesConstranints g edge with
    | (_, Some err) => Err err
    | (true, None) =>
        if add64 (dist st c) (Cost edge) <=? dist st (To edge) then
          Ok (mkSPFState (unvisitedSet st)
                (<[To edge := add64 (dist st c) (Cost edge)]> (distSet st))
                (<[To edge := prev st (To edge) ++ [edge]]> (prevSet st)))
        else Ok st
    | (false, None) => Ok st
    end
  else Ok st.
Proof.
  unfold relax_edge. destruct (unvisited st (To edge)); [|done].
  by destruct (edgeSatisfiesConstranints g edge) as [[|] [err|]].
Qed.

Lemma relax_edge_unvisitedSet g c st edge st' :
  relax_edge g c st edge = Ok st' → unvisitedSet st' = unvisitedSet st.
Proof.
  rewrite relax_edge_cases.
  destruct (unvisited st (To edge)); [|by intros [= <-]].
  destruct (edgeSatisfiesConstranints g edge) as [[|] [err|]]; try done.
  - destruct (_ <=? _); by intros [= <-].
  - by intros [= <-].
Qed.

Lemma relax_edges_unvisitedSet g c edges st st' :
  relax_edges g c edges st = Ok st' → unvisitedSet st' = unvisitedSet st.
Proof.
  revert st. induction edges as [|edge edges IH]; intros st; simpl.
  - by intros [= <-].
  - destruct (relax_edge g c st edge) as [st1|] eqn:Hedge; [|done].
    intros Hrest. apply IH in Hrest. rewrite Hrest.
    by eapply relax_edge_unvisitedSet.
Qed.

(** ** The loop runs to its end *)

Lemma spf_round_Continue_size g st st' :
  spf_round g st = Continue st' →
  S (size (unvisitedSet st')) = size (unvisitedSet st).
Proof.
  unfold spf_round.
  set (c := getSmallestDistanceVertex (unvisitedSet st) (distSet st)).
  cbn [unvisitedSet distSet prevSet].
  destruct (_ =? _)%nat eqn:Hsame; [done|]. apply Nat.eqb_neq in Hsame.
  destruct (relax_edges _ _ _ _) as [st1|] eqn:Hrelax; [|done].
  intros [= <-]. apply relax_edges_unvisitedSet in Hrelax. rewrite Hrelax.
  cbn [unvisitedSet]. rewrite map_size_delete in *.
  destruct (unvisitedSet st !! c); simpl in *; [|done].
  destruct (size (unvisitedSet st)); simpl in *; [done|lia].
Qed.

Lemma spf_loop_fuel fuel g st :
  (size (unvisitedSet st) ≤ fuel)%nat → is_Some (spf_loop fuel g st).
Proof.
  revert st. induction fuel as [|fuel IH]; intros st Hsize.
  - simpl. destruct (0 <? size (unvisitedSet st))%nat eqn:Hpos; [|by eexists].
    apply Nat.ltb_lt in Hpos. lia.
  - simpl. destruct (0 <? size (unvisitedSet st))%nat eqn:Hpos; [|by eexists].
    destruct (spf_round g st) as [st'|st'|err] eqn:Hround; [|by eexists..].
    apply IH. apply spf_round_Continue_size in Hround. lia.
Qed.

Lemma relaxation_total g from : is_Some (relaxation g from).
Proof. unfold relaxation. by apply spf_loop_fuel. Qed.

(** [SPF] on a graph returns a graph and no error, or an error and no
    graph. *)
Lemma SPF_returns g from to :
  (∃ G, SPF (Some g) from to = (Some G, None)) ∨
  (∃ err, SPF (Some g) from to = (None, Some err)).
Proof.
  unfold SPF. destruct (relaxation_total g from) as [[st|err] ->];
    [left|right]; by eexists.
Qed.

(** ** The keys of the predecessor map *)

Lemma relax_edge_prevSet_keys g c st edge st' :
  (∀ v, unvisited st v = true → is_Some (prevSet st !! v)) →
  relax_edge g c st edge = Ok st' →
  ∀ v, is_Some (prevSet st' !! v) ↔ is_Some (prevSet st !! v).
Proof.
  intros Hinv. rewrite relax_edge_cases.
  destruct (unvisited st (To edge)) eqn:Hunv; [|by intros [= <-]].
  destruct (edgeSatisfiesConstranints g edge) as [[|] [err|]]; try done;
    [|by intros [= <-]].
  destruct (_ <=? _); intros [= <-]; [|done].
  intros v; cbn [prevSet]. rewrite lookup_insert.
  case_decide as Heq; [|done]. subst v.
  split; [intros _; by apply Hinv|by eexists].
Qed.

Lemma relax_edges_prevSet_keys g c edges st st' :
  (∀ v, unvisited st v = true → is_Some (prevSet st !! v)) →
  relax_edges g c edges st = Ok st' →
  ∀ v, is_Some (prevSet st' !! v) ↔ is_Some (prevSet st !! v).
Proof.
  revert st. induction edges as [|edge edges IH]; intros st Hinv; simpl.
  - by intros [= <-].
  - destruct (relax_edge g c st edge) as [st1|] eqn:Hedge; [|done].
    intros Hrest v.
    pose proof (relax_edge_prevSet_keys _ _ _ _ _ Hinv Hedge) as Hkeys.
    rewrite <- Hkeys. apply IH; [|done].
    intros w Hw. apply Hkeys, Hinv.
    unfold unvisited in *.
    by rewrite <- (relax_edge_unvisitedSet _ _ _ _ _ Hedge).
Qed.

Lemma unvisited_delete st c v :
  unvisited (mkSPFState (delete c (unvisitedSet st)) (distSet st) (prevSet st)) v
    = true →
  unvisited st v = true.
Proof.
  unfold unvisited; cbn [unvisitedSet]. rewrite lookup_delete.
  by case_decide.
Qed.

Lemma spf_loop_prevSet_keys fuel g st st' :
  (∀ v, unvisited st v = true → is_Some (prevSet st !! v)) →
  spf_loop fuel g st = Some (Ok st') →
  ∀ v, is_Some (prevSet st' !! v) ↔ is_Some (prevSet st !! v).
Proof.
  revert st. induction fuel as [|fuel IH]; intros st Hinv; simpl;
    (destruct (0 <? size (unvisitedSet st))%nat; [|by intros [= <-]]);
    [done|].
  unfold spf_round.
  set (c := getSmallestDistanceVertex (unvisitedSet st) (distSet st)).
  set (st1 := mkSPFState (delete c (unvisitedSet st)) (distSet st) (prevSet st)).
  assert (∀ v, unvisited st1 v = true → is_Some (prevSet st1 !! v)) as Hinv1.
  { intros v Hv. apply Hinv. by eapply unvisited_delete. }
  destruct (_ =? _)%nat; [by intros [= <-]|].
  destruct (relax_edges g c (edges_of g c) st1) as [st2|] eqn:Hrelax; [|done].
  intros Hloop v.
  pose proof (relax_edges_prevSet_keys _ _ _ _ _ Hinv1 Hrelax) as Hkeys.
  assert (∀ w, unvisited st2 w = true → is_Some (prevSet st2 !! w)) as Hinv2.
  { intros w Hw. apply Hkeys, Hinv1. unfold unvisited in *.
    by rewrite <- (relax_edges_unvisitedSet _ _ _ _ _ Hrelax). }
  rewrite (IH st2 Hinv2 Hloop v). apply Hkeys.
Qed.

(** At the end of the relaxation the predecessor map has an entry for
    every vertex of the graph and for nothing else. *)
Lemma relaxation_prevSet_keys g from st :
  relaxation g from = Some (Ok st) →
  ∀ v, is_Some (prevSet st !! v) ↔ is_Some (vertices g !! v).
Proof.
  intros Hrun v. unfold relaxation in Hrun.
  apply spf_loop_prevSet_keys with (v := v) in Hrun.
  - rewrite Hrun, spf_init_prevSet. destruct (vertices g !! v); [done|].
    split; by intros [? ?].
  - intros w. unfold unvisited.
    rewrite spf_init_unvisitedSet, spf_init_prevSet.
    destruct (vertices g !! w); [by eexists|done].
Qed.

(** ** The closest unvisited vertex *)

Lemma smallest_fold (distSet : gmap Vertex N) keys smallestDist closestVertex :
  let r := foldl (closer distSet) (smallestDist, closestVertex) keys in
  (r = (smallestDist, closestVertex) ∧
   ∀ v, v ∈ keys → ¬ default 0 (distSet !! v) < smallestDist)
  ∨
  (r.2 ∈ keys ∧ default 0 (distSet !! r.2) = r.1 ∧ r.1 < smallestDist ∧
   ∀ v, v ∈ keys → r.1 ≤ default 0 (distSet !! v)).
Proof.
  revert smallestDist closestVertex.
  induction keys as [|k keys IH]; intros sd cv; cbn zeta.
  - left. split; [done|]. intros v Hv. by apply elem_of_nil in Hv.
  - cbn [foldl].
    change (closer distSet (sd, cv) k)
      with (if default 0 (distSet !! k) <? sd
            then (default 0 (distSet !! k), k) else (sd, cv)).
    destruct (default 0 (distSet !! k) <? sd) eqn:Hlt.
    + apply N.ltb_lt in Hlt.
      destruct (IH (default 0 (distSet !! k)) k)
        as [[Heq Hall]|(Hin & Hd & Hr & Hall)].
      * right. rewrite Heq. cbn [fst snd]. split_and!; [by left|done..|].
        intros v [->|Hv]%elem_of_cons; [done|]. apply Hall in Hv. lia.
      * right. split_and!; [by right|done|lia|].
        intros v [->|Hv]%elem_of_cons; [lia|by apply Hall].
    + apply N.ltb_ge in Hlt.
      destruct (IH sd cv) as [[Heq Hall]|(Hin & Hd & Hr & Hall)].
      * left. split; [done|].
        intros v [->|Hv]%elem_of_cons; [lia|by apply Hall].
      * right. split_and!; [by right|done..|].
        intros v [->|Hv]%elem_of_cons; [lia|by apply Hall].
Qed.

(** [getSmallestDistanceVertex] answers with an unvisited vertex of least
    distance below [infinity], whatever the order of the iteration; when
    there is none it answers with the zero [Vertex]. *)
Lemma getSmallestDistanceVertex_spec (unvisited : gmap Vertex bool)
    (distSet : gmap Vertex N) :
  let c := getSmallestDistanceVertex unvisited distSet in
  (c = Vertex_zero ∧
   ∀ v, is_Some (unvisited !! v) → ¬ default 0 (distSet !! v) < infinity)
  ∨
  (is_Some (unvisited !! c) ∧ default 0 (distSet !! c) < infinity ∧
   ∀ v, is_Some (unvisited !! v) →
        default 0 (distSet !! c) ≤ default 0 (distSet !! v)).
Proof.
  intros c. subst c. unfold getSmallestDistanceVertex.
  destruct (smallest_fold distSet (range_keys 1 unvisited) infinity Vertex_zero)
    as [[Heq Hall]|(Hin & Hd & Hr & Hall)]; [rewrite Heq|].
  - left. split; [done|]. intros v Hv. by apply Hall, elem_of_range_keys.
  - right. rewrite Hd. split_and!; [by apply elem_of_range_keys in Hin|done|].
    intros v Hv. by apply Hall, elem_of_range_keys.
Qed.

(** With every unvisited vertex at [infinity] and the zero [Vertex] not
    among them, the round leaves the loop and the state is as before. *)
Lemma spf_round_break g st :
  (∀ v, is_Some (unvisitedSet st !! v) → ¬ dist st v < infinity) →
  unvisitedSet st !! Vertex_zero = None →
  spf_round g st = Break st.
Proof.
  intros Hinf Hzero. unfold spf_round.
  destruct (getSmallestDistanceVertex_spec (unvisitedSet st) (distSet st))
    as [[-> _]|(Hc & Hlt & _)].
  - cbn [unvisitedSet]. rewrite (delete_id _ _ Hzero).
    rewrite Nat.eqb_refl. by destruct st.
  - by apply Hinf in Hc.
Qed.

(** With every unvisited vertex at [infinity] and the zero [Vertex] among
    them, the round removes the zero [Vertex] and goes on to relax its
    edges. *)
Lemma spf_round_zero_vertex g st :
  (∀ v, is_Some (unvisitedSet st !! v) → ¬ dist st v < infinity) →
  is_Some (unvisitedSet st !! Vertex_zero) →
  spf_round g st =
  match relax_edges g Vertex_zero (edges_of g Vertex_zero)
          (mkSPFState (delete Vertex_zero (unvisitedSet st))
                      (distSet st) (prevSet st)) with
  | Ok st' => Continue st'
  | Err err => Abort err
  end.
Proof.
  intros Hinf Hzero. unfold spf_round.
  destruct (getSmallestDistanceVertex_spec (unvisitedSet st) (distSet st))
    as [[-> _]|(Hc & Hlt & _)].
  - cbn [unvisitedSet]. rewrite map_size_delete_Some by done.
    destruct (size (unvisitedSet st)) as [|n] eqn:Hsize.
    + apply map_size_empty_inv in Hsize. rewrite Hsize, lookup_empty in Hzero.
      by destruct Hzero.
    + rewrite (proj2 (Nat.eqb_neq _ _)); [done|simpl; lia].
  - by apply Hinf in Hc.
Qed.

(** ** Relaxing one edge *)

(** C4. For an edge whose target is still unvisited and which satisfies
    the constraints, with [candidate] the [uint64] sum of the distance of
    the selected vertex and the cost of the edge (the plain sum when
    that stays below 2^64): when [candidate <= distance[target]] the
    edge is appended to the predecessor edges of the target, all of
    which are kept, and the distance of the target becomes [candidate];
    otherwise nothing changes.  No other vertex is touched. *)
Theorem relax_edge_keeps_ties g c st edge :
  unvisited st (To edge) = true →
  edgeSatisfiesConstranints g edge = (true, None) →
  ∃ st',
    relax_edge g c st edge = Ok st' ∧
    (dist st c + Cost edge < 2 ^ 64 →
     add64 (dist st c) (Cost edge) = dist st c + Cost edge) ∧
    (add64 (dist st c) (Cost edge) ≤ dist st (To edge) →
     prev st' (To edge) = prev st (To edge) ++ [edge] ∧
     dist st' (To edge) = add64 (dist st c) (Cost edge)) ∧
    (¬ add64 (dist st c) (Cost edge) ≤ dist st (To edge) → st' = st) ∧
    (∀ v, v ≠ To edge → prev st' v = prev st v ∧ dist st' v = dist st v) ∧
    unvisitedSet st' = unvisitedSet st.
Proof.
  intros Hunv Hsat. rewrite relax_edge_cases, Hunv, Hsat.
  destruct (add64 (dist st c) (Cost edge) <=? dist st (To edge)) eqn:Hle.
  - apply N.leb_le in Hle. eexists. split; [done|].
    split_and!; try done.
    + intros Hno. unfold add64. by rewrite N.mod_small.
    + intros _. unfold prev, dist; cbn [prevSet distSet].
      by rewrite !lookup_insert_eq.
    + intros v Hv. unfold prev, dist; cbn [prevSet distSet].
      by rewrite !lookup_insert_ne.
  - apply N.leb_gt in Hle. exists st. split; [done|].
    split_and!; try done.
    + intros Hno. unfold add64. by rewrite N.mod_small.
    + intros Hle'. lia.
Qed.

(** ** Evaluation errors *)

Lemma relax_edges_app g c l1 l2 st :
  relax_edges g c (l1 ++ l2) st =
  match relax_edges g c l1 st with
  | Ok st' => relax_edges g c l2 st'
  | Err err => Err err
  end.
Proof.
  revert st. induction l1 as [|e l1 IH]; intros st; [done|].
  simpl. by destruct (relax_edge g c st e).
Qed.

Lemma relax_edges_no_error g ev c l st :
  eval g = Some ev →
  (∀ e, e ∈ l → unvisited st (To e) = true → (ev (Tags e)).2 = None) →
  ∃ st', relax_edges g c l st = Ok st' ∧ unvisitedSet st' = unvisitedSet st.
Proof.
  intros Hev. revert st. induction l as [|e l IH]; intros st Hok.
  - by exists st.
  - simpl.
    assert (∃ st1, relax_edge g c st e = Ok st1) as [st1 Hst1].
    { rewrite relax_edge_cases.
      destruct (unvisited st (To e)) eqn:Hunv; [|by eexists].
      unfold edgeSatisfiesConstranints. rewrite Hev.
      specialize (Hok e (list_elem_of_here _ _) Hunv).
      destruct (ev (Tags e)) as [[|] [err|]]; simpl in Hok; try done;
        [|by eexists].
      destruct (_ <=? _); by eexists. }
    rewrite Hst1.
    pose proof (relax_edge_unvisitedSet _ _ _ _ _ Hst1) as Hsame.
    destruct (IH st1) as (st' & Hst' & Hsame').
    { intros e' He' Hunv. apply Hok; [by right|].
      unfold unvisited in *. by rewrite <- Hsame. }
    exists st'. split; [done|]. by rewrite Hsame'.
Qed.

(** C8. With a predicate installed: within the edges of the selected
    vertex, the first edge with an unvisited target on which the
    evaluation fails ends the relaxation with that error, the edges after
    it being left alone; a round that ends so ends the loop with the
    error, from whichever round it is; [SPF] then returns the error and a
    nil graph, and so does a [CSPF] whose expression compiles to the
    predicate; and [SPF] never returns a graph together with an error. *)
Theorem SPF_aborts_on_first_evaluation_error g ev :
  eval g = Some ev →
  (∀ c st l1 e l2 b err,
     (∀ e', e' ∈ l1 → unvisited st (To e') = true → (ev (Tags e')).2 = None) →
     unvisited st (To e) = true →
     ev (Tags e) = (b, Some err) →
     relax_edges g c (l1 ++ e :: l2) st = Err err) ∧
  (∀ st err,
     let c := getSmallestDistanceVertex (unvisitedSet st) (distSet st) in
     let st1 := mkSPFState (delete c (unvisitedSet st)) (distSet st) (prevSet st) in
     size (unvisitedSet st1) ≠ size (unvisitedSet st) →
     relax_edges g c (edges_of g c) st1 = Err err →
     spf_round g st = Abort err) ∧
  (∀ fuel st err,
     (0 < size (unvisitedSet st))%nat →
     spf_round g st = Abort err →
     spf_loop (S fuel) g st = Some (Err err)) ∧
  (∀ fuel st st' err,
     spf_round g st = Continue st' →
     spf_loop fuel g st' = Some (Err err) →
     spf_loop (S fuel) g st = Some (Err err)) ∧
  (∀ from to err,
     relaxation g from = Some (Err err) →
     SPF (Some g) from to = (None, Some err)) ∧
  (∀ g0 from to exp err,
     NewEvaluable exp = inl ev →
     VertexSet g0 = VertexSet g →
     relaxation g from = Some (Err err) →
     (CSPF (Some g0) from to exp).2 = (None, Some err)) ∧
  (∀ from to r err, SPF (Some g) from to = (r, Some err) → r = None).
Proof.
  intros Hev. split_and!.
  - intros c st l1 e l2 b err Hl1 Hunv Hfail.
    rewrite relax_edges_app.
    destruct (relax_edges_no_error g ev c l1 st Hev Hl1) as (st' & -> & Hsame).
    simpl. rewrite relax_edge_cases.
    unfold unvisited in *. rewrite Hsame, Hunv.
    unfold edgeSatisfiesConstranints. by rewrite Hev, Hfail.
  - intros st err c st1 Hsize Hrelax. unfold spf_round.
    fold c. fold st1. rewrite Hrelax.
    by rewrite (proj2 (Nat.eqb_neq _ _)).
  - intros fuel st err Hpos Hround. simpl.
    rewrite (proj2 (Nat.ltb_lt _ _) Hpos). by rewrite Hround.
  - intros fuel st st' err Hround Hloop. simpl.
    rewrite Hround, Hloop.
    by destruct (0 <? size (unvisitedSet st))%nat eqn:Hpos;
      [|apply spf_round_Continue_size in Hround; apply Nat.ltb_ge in Hpos; lia].
  - intros from to err Hrun. unfold SPF. by rewrite Hrun.
  - intros g0 from to exp err Hcompile Hsame Hrun. unfold CSPF.
    rewrite Hcompile, Hsame; cbn [snd].
    replace (mkGraph (VertexSet g) (Some ev)) with g
      by (destruct g; simpl in *; by subst).
    unfold SPF. by rewrite Hrun.
  - intros from to r err. unfold SPF.
    destruct (relaxation g from) as [[st|err']|]; by intros [= <- ?].
Qed.

(** ** The installed predicate *)

(** C10. When the expression does not compile, [CSPF] returns the parse
    error and a nil graph, and the receiver, its predicate included, is
    the one before the call; so a predicate that an earlier [CSPF] has
    installed is still the predicate of the graph. *)
Theorem CSPF_parse_error_keeps_predicate g from to exp err :
  NewEvaluable exp = inr err →
  CSPF (Some g) from to exp = (Some g, (None, Some err)) ∧
  (∀ from0 to0 exp0 ev0,
     NewEvaluable exp0 = inl ev0 →
     ∃ g1, (CSPF (Some g) from0 to0 exp0).1 = Some g1 ∧
           eval g1 = Some ev0 ∧
           CSPF (Some g1) from to exp = (Some g1, (None, Some err))).
Proof.
  intros Hcompile. split; [unfold CSPF; by rewrite Hcompile|].
  intros from0 to0 exp0 ev0 Hcompile0. unfold CSPF.
  rewrite Hcompile0, Hcompile. by eexists.
Qed.

End ShortestPaths.

Section AnyOrder.

Context {any : Type} {order : MapRange}.
Implicit Types (g : @Graph any) (st : @SPFState any) (v : Vertex).

Lemma tie_free_closest (unvisited : gmap Vertex bool) (distSet : gmap Vertex N) :
  tie_free unvisited distSet = true →
  @getSmallestDistanceVertex order unvisited distSet
  = @getSmallestDistanceVertex keys_in_order unvisited distSet.
Proof.
  unfold tie_free. rewrite forallb_forall. intros Hfree.
  set (d := λ v, default 0 (distSet !! v)) in *.
  destruct (@getSmallestDistanceVertex_spec order unvisited distSet)
    as [[Hc Hall]|(Hc & Hlt & Hmin)];
    destruct (@getSmallestDistanceVertex_spec keys_in_order unvisited distSet)
      as [[Hc' Hall']|(Hc' & Hlt' & Hmin')].
  - by rewrite Hc, Hc'.
  - by apply Hall in Hc'.
  - by apply Hall' in Hc.
  - set (c := @getSmallestDistanceVertex order unvisited distSet) in *.
    set (c' := @getSmallestDistanceVertex keys_in_order unvisited distSet) in *.
    assert (In c (map_to_list unvisited).*1) as Hin.
    { apply list_elem_of_In, (@elem_of_range_keys keys_in_order _ 1), Hc. }
    apply Hfree in Hin.
    apply orb_true_iff in Hin as [Hin|Hinf].
    + apply orb_true_iff in Hin as [Heq|Hfar].
      * by apply bool_decide_eq_true in Heq.
      * apply N.ltb_lt in Hfar. specialize (Hmin c' Hc'). fold d in Hmin. lia.
    + apply negb_true_iff, N.ltb_ge in Hinf. fold d in Hlt. lia.
Qed.

Lemma spf_init_any_order g from :
  @spf_init any order g from = @spf_init any keys_in_order g from.
Proof.
  assert (∀ st1 st2 : @SPFState any,
            unvisitedSet st1 = unvisitedSet st2 → distSet st1 = distSet st2 →
            prevSet st1 = prevSet st2 → st1 = st2) as Hext.
  { intros [] []; simpl; by intros -> -> ->. }
  apply Hext; apply map_eq; intros v.
  - by rewrite !spf_init_unvisitedSet.
  - by rewrite !spf_init_distSet.
  - by rewrite !spf_init_prevSet.
Qed.

Lemma spf_round_any_order g st :
  tie_free (unvisitedSet st) (distSet st) = true →
  @spf_round any order g st = @spf_round any keys_in_order g st.
Proof. intros Hfree. unfold spf_round. by rewrite (tie_free_closest _ _ Hfree). Qed.

Lemma spf_loop_any_order fuel g st :
  tie_free_loop fuel g st = true →
  @spf_loop any order fuel g st = @spf_loop any keys_in_order fuel g st.
Proof.
  revert st. induction fuel as [|fuel IH]; intros st; [done|].
  simpl. destruct (0 <? size (unvisitedSet st))%nat; [|done].
  intros [Hfree Hrest]%andb_true_iff.
  rewrite (spf_round_any_order _ _ Hfree).
  destruct (@spf_round any keys_in_order g st); [by apply IH|done..].
Qed.

Lemma spf_result_any_order (prevSet : gmap Vertex (list (@Edge any))) :
  (length (mjoin (map_to_list prevSet).*2) ≤ 1)%nat →
  @spf_result any order prevSet = @spf_result any keys_in_order prevSet.
Proof.
  assert (∀ (r : MapRange),
            @spf_result any r prevSet
            = foldl addEdge Graph_zero
                (mjoin ((λ v, default [] (prevSet !! v))
                          <$> @range_keys r _ 2 prevSet))) as Hjoin.
  { intros r. unfold spf_result. generalize (@Graph_zero any).
    induction (@range_keys r _ 2 prevSet) as [|v keys IH]; intros G; [done|].
    simpl. by rewrite foldl_app, IH. }
  intros Hone. rewrite !Hjoin. f_equal.
  assert (mjoin ((λ v, default [] (prevSet !! v)) <$> @range_keys order _ 2 prevSet)
          ≡ₚ mjoin ((λ v, default [] (prevSet !! v))
                      <$> @range_keys keys_in_order _ 2 prevSet)) as Hperm.
  { unfold range_keys. by rewrite !range_order_perm. }
  assert ((λ v, default [] (prevSet !! v)) <$> @range_keys keys_in_order _ 2 prevSet
          = (map_to_list prevSet).*2) as Hvalues.
  { unfold range_keys; simpl. rewrite <- list_fmap_compose.
    apply list_fmap_ext. intros i [v edges] Hin; simpl.
    apply list_elem_of_lookup_2, elem_of_map_to_list in Hin. by rewrite Hin. }
  rewrite Hvalues in *.
  destruct (mjoin (map_to_list prevSet).*2) as [|e [|e' l]]; simpl in Hone.
  - by apply Permutation_nil_r in Hperm.
  - by apply Permutation_singleton_r in Hperm.
  - lia.
Qed.

(** When [order_free g from] holds, [SPF] from [from] returns the same
    under every order of iteration. *)
Theorem SPF_any_order g from to :
  order_free g from = true →
  @SPF any order (Some g) from to = @SPF any keys_in_order (Some g) from to.
Proof.
  unfold order_free. intros [Hloop Hone]%andb_true_iff.
  assert (@relaxation any order g from = @relaxation any keys_in_order g from)
    as Hrun.
  { unfold relaxation. rewrite spf_init_any_order. by apply spf_loop_any_order. }
  unfold SPF. rewrite Hrun.
  destruct (@relaxation any keys_in_order g from) as [[st|err]|]; [|done..].
  by rewrite spf_result_any_order by by apply Nat.leb_le.
Qed.

End AnyOrder.

Section PathEnumeration.

Context {any : Type} {growth : SliceGrowth}.
Implicit Types (g : @Graph any) (e : @Edge any) (v w from to : Vertex).
Implicit Types (st : @DfsState any) (vs : @DfsValues any) (U M : gset Vertex).
Implicit Types (h : list (list (@Edge any))) (s p : slice).

Local Open Scope nat_scope.

(** ** Marked vertices *)

Lemma elem_of_marked (vis : gmap Vertex bool) v :
  v ∈ marked vis ↔ vis !! v = Some true.
Proof.
  unfold marked. rewrite elem_of_dom. split.
  - intros [b Hb]. apply map_lookup_filter_Some in Hb as [Hb Ht].
    simpl in Ht. by subst.
  - intros Hv. exists true. by apply map_lookup_filter_Some.
Qed.

Lemma marked_insert_true (vis : gmap Vertex bool) v :
  marked (<[v := true]> vis) = {[v]} ∪ marked vis.
Proof.
  apply set_eq. intros w.
  rewrite elem_of_union, elem_of_singleton, !elem_of_marked, lookup_insert.
  destruct (decide (v = w)); [subst; tauto|].
  split; [tauto|]. by intros [?|?].
Qed.

Lemma marked_insert_false (vis : gmap Vertex bool) v :
  marked (<[v := false]> vis) = marked vis ∖ {[v]}.
Proof.
  apply set_eq. intros w.
  rewrite elem_of_difference, elem_of_singleton, !elem_of_marked, lookup_insert.
  destruct (decide (v = w)); [subst|].
  - split; [done|]. by intros [_ []].
  - split; [|tauto]. intros Hw. split; [done|congruence].
Qed.

Lemma marked_test (vis : gmap Vertex bool) v :
  negb (default false (vis !! v)) = true ↔ v ∉ marked vis.
Proof.
  rewrite elem_of_marked.
  destruct (vis !! v) as [[|]|]; simpl; split; congruence.
Qed.

Lemma edges_of_targets g w e : e ∈ edges_of g w → To e ∈ targets g.
Proof.
  unfold edges_of, targets. intros He.
  destruct (vertices g !! w) as [es|] eqn:Hw; [|by apply elem_of_nil in He].
  apply elem_of_list_to_set, list_elem_of_fmap. exists e. split; [done|].
  apply list_elem_of_join. exists es. split; [done|].
  apply list_elem_of_fmap. exists (w, es). split; [done|].
  by apply elem_of_map_to_list.
Qed.

Lemma unmarked_shrinks U M v :
  v ∈ U → v ∉ M → size (U ∖ ({[v]} ∪ M)) < size (U ∖ M).
Proof.
  intros HU HM. apply subset_size. split.
  - intros w. rewrite !elem_of_difference, elem_of_union. tauto.
  - intros Hsub. specialize (Hsub v).
    rewrite !elem_of_difference, elem_of_union, elem_of_singleton in Hsub.
    tauto.
Qed.

(** ** The search returns *)

Lemma dfs_range_total
    (call : Vertex → option (@Edge any) → @DfsState any → option (@DfsState any))
    U M edges st :
  (∀ e, e ∈ edges → To e ∈ U) →
  marked (visited st) = M →
  (∀ w oe st0, w ∈ U → w ∉ M → marked (visited st0) = M →
               ∃ st1, call w oe st0 = Some st1 ∧ marked (visited st1) = M) →
  ∃ st', dfs_range call edges st = Some st' ∧ marked (visited st') = M.
Proof.
  intros Hedges HM Hcall. revert st HM.
  induction edges as [|e edges IH]; intros st HM; [by exists st|].
  simpl. destruct (negb (default false (visited st !! To e))) eqn:Htest.
  - apply marked_test in Htest. rewrite HM in Htest.
    destruct (Hcall (To e) (Some e) st) as (st1 & -> & HM'); [|done..|].
    { apply Hedges. by left. }
    apply IH; [|done]. intros e' He'. apply Hedges. by right.
  - apply IH; [|done]. intros e' He'. apply Hedges. by right.
Qed.

Lemma dfs_total fuel g to U :
  (∀ w e, e ∈ edges_of g w → To e ∈ U) →
  ∀ v oe st,
    v ∈ U → v ∉ marked (visited st) →
    size (U ∖ marked (visited st)) ≤ fuel →
    ∃ st', dfs fuel g to v oe st = Some st' ∧
           marked (visited st') = marked (visited st).
Proof.
  intros Hclosed. induction fuel as [|fuel IH]; intros v oe st HvU Hv Hsize.
  - assert (U ∖ marked (visited st) ≡ ∅) as Hempty.
    { apply size_empty_iff. lia. }
    exfalso. apply (not_elem_of_empty (C := gset Vertex) v).
    rewrite <- Hempty. by apply elem_of_difference.
  - cbn [dfs].
    set (st1 := mkDfsState (<[v := true]> (visited st)) (heap st) (path st)
                  (paths st)).
    set (st2 := match oe with
                | Some e =>
                    let '(h, p) := append (heap st1) (path st1) e in
                    mkDfsState (visited st1) h p (paths st1)
                | None => st1
                end).
    assert (marked (visited st2) = {[v]} ∪ marked (visited st)) as HM2.
    { subst st2 st1. destruct oe as [e|]; [destruct (append _ _ e)|];
        cbn [visited]; apply marked_insert_true. }
    assert (∃ r, (if bool_decide (v = to)
                  then Some (mkDfsState (visited st2) (heap st2) (path st2)
                               (paths st2 ++ [path st2]))
                  else dfs_range (dfs fuel g to) (edges_of g v) st2) = Some r ∧
                 marked (visited r) = {[v]} ∪ marked (visited st))
      as (r & -> & HMr).
    { case_bool_decide; [by eexists|].
      apply (dfs_range_total _ U); [by apply Hclosed|done|].
      intros w oe' st0 HwU Hw Hst0.
      destruct (IH w oe' st0) as (st3 & Hst3 & HM'); [done|by rewrite Hst0|..].
      - rewrite Hst0. pose proof (unmarked_shrinks U _ v HvU Hv). lia.
      - exists st3. split; [done|]. by rewrite HM', Hst0. }
    eexists. split; [done|]. cbn [visited].
    rewrite marked_insert_false.
    assert (∀ M, v ∉ M → ({[v]} ∪ M) ∖ {[v]} = M) as Hback.
    { clear. intros M HM. apply set_eq. intros w.
      rewrite elem_of_difference, elem_of_union, elem_of_singleton.
      split; [tauto|]. intros Hw. split; [by right|]. by intros ->. }
    destruct (0 <? len (path r)); cbn [visited]; rewrite HMr; by apply Hback.
Qed.

(** ** More fuel, same search *)

Lemma dfs_range_mono
    (call1 call2 : Vertex → option (@Edge any) → @DfsState any → option (@DfsState any))
    edges st st' :
  (∀ w oe st0 st1, call1 w oe st0 = Some st1 → call2 w oe st0 = Some st1) →
  dfs_range call1 edges st = Some st' →
  dfs_range call2 edges st = Some st'.
Proof.
  intros Hcalls. revert st. induction edges as [|e edges IH]; intros st; [done|].
  simpl. destruct (negb (default false (visited st !! To e))); [|apply IH].
  destruct (call1 (To e) (Some e) st) as [st1|] eqn:Hcall; [|done].
  rewrite (Hcalls _ _ _ _ Hcall). apply IH.
Qed.

Lemma dfs_fuel_mono fuel fuel' g to v oe st st' :
  fuel ≤ fuel' →
  dfs fuel g to v oe st = Some st' →
  dfs fuel' g to v oe st = Some st'.
Proof.
  revert fuel' v oe st st'.
  induction fuel as [|fuel IH]; intros fuel' v oe st st' Hle; [done|].
  destruct fuel' as [|fuel']; [lia|].
  cbn [dfs]. case_bool_decide; [done|].
  destruct (dfs_range (dfs fuel g to) _ _) as [r|] eqn:Hrange; [|done].
  rewrite (dfs_range_mono (dfs fuel g to) (dfs fuel' g to) _ _ r); [done| |done].
  intros w oe' st0 st1. apply IH. lia.
Qed.

(** ** Slices *)

Lemma elements_length h s : slice_fits h s → length (elements h s) = len s.
Proof.
  intros (a & Ha & Hcap & Hlen). unfold elements. rewrite Ha; simpl.
  rewrite length_take, length_drop. lia.
Qed.

Lemma slice_kept_self h s : slice_fits h s → slice_kept h s s.
Proof.
  intros (a & Ha & Hcap & Hlen). exists a. split_and!; [done|lia|done].
Qed.

(** A write at or behind the end of a slice is not seen through it. *)
Lemma elements_write_behind (a : list (@Edge any)) i e off n :
  off + n ≤ i → take n (drop off (<[i := e]> a)) = take n (drop off a).
Proof. intros Hi. rewrite drop_insert_ge by lia. apply take_insert_ge. lia. Qed.

Lemma append_spec h s e :
  slice_fits h s →
  elements (append h s e).1 (append h s e).2 = elements h s ++ [e] ∧
  slice_fits (append h s e).1 (append h s e).2 ∧
  ∀ p, slice_kept h s p →
       slice_kept (append h s e).1 (append h s e).2 p ∧
       elements (append h s e).1 p = elements h p.
Proof.
  intros Hfits. pose proof Hfits as (a & Ha & Hcap & Hlen).
  pose proof (elements_length h s Hfits) as Hlength.
  unfold append. destruct (len s <? cap s) eqn:Hroom; cbn [fst snd].
  - apply Nat.ltb_lt in Hroom. split_and!.
    + unfold elements; cbn [array offset len].
      rewrite list_lookup_alter_eq, Ha; simpl.
      rewrite drop_insert_ge by lia.
      replace (offset s + len s - offset s) with (len s) by lia.
      rewrite (take_S_r _ _ e).
      * by rewrite take_insert_ge.
      * apply list_lookup_insert_eq. rewrite length_drop. lia.
    + exists (<[offset s + len s := e]> a); cbn [array offset len cap].
      rewrite list_lookup_alter_eq, Ha, length_insert. split_and!; [done..|lia].
    + intros p (b & Hb & Hend & Hsame).
      destruct (decide (array p = array s)) as [Heq|Hne].
      * specialize (Hsame Heq). rewrite Heq, Ha in Hb. injection Hb as <-. split.
        -- exists (<[offset s + len s := e]> a); cbn [array offset len].
           rewrite Heq, list_lookup_alter_eq, Ha, length_insert.
           split_and!; [done..|lia].
        -- unfold elements. rewrite Heq, list_lookup_alter_eq, Ha; simpl.
           apply elements_write_behind. lia.
      * split.
        -- exists b; cbn [array]. rewrite list_lookup_alter_ne by done.
           split_and!; [done..|]. by intros Heq.
        -- unfold elements. by rewrite list_lookup_alter_ne.
  - apply Nat.ltb_ge in Hroom.
    pose proof (growslice_fits (cap s) (S (len s))) as Hgrow.
    set (newcap := growslice (cap s) (S (len s))) in *.
    assert ((h ++ [elements h s ++ e :: replicate (newcap - S (len s)) Edge_zero])
              !! length h
            = Some (elements h s ++ e :: replicate (newcap - S (len s)) Edge_zero))
      as Hnew.
    { rewrite lookup_app_r by done. by rewrite Nat.sub_diag. }
    split_and!.
    + unfold elements at 1; cbn [array offset len]. rewrite Hnew; simpl.
      rewrite drop_0, take_app, Hlength.
      rewrite take_ge by lia. by replace (S (len s) - len s) with 1 by lia.
    + eexists; cbn [array offset len cap]. split; [exact Hnew|].
      rewrite length_app, Hlength; simpl. rewrite length_replicate. lia.
    + intros p (b & Hb & Hend & Hsame). split.
      * exists b; cbn [array]. rewrite (lookup_app_l_Some _ _ _ _ Hb).
        split_and!; [done..|]. intros Heq.
        apply lookup_lt_Some in Hb. lia.
      * unfold elements. by rewrite (lookup_app_l_Some _ _ _ _ Hb), Hb.
Qed.

Lemma slice_from_1_spec h s :
  slice_fits h s → 0 < len s →
  elements h (slice_from_1 s) = drop 1 (elements h s) ∧
  slice_fits h (slice_from_1 s) ∧
  ∀ p, slice_kept h s p → slice_kept h (slice_from_1 s) p.
Proof.
  intros (a & Ha & Hcap & Hlen) Hpos. split_and!.
  - unfold elements, slice_from_1; cbn [array offset len]. rewrite Ha; simpl.
    replace (S (offset s)) with (offset s + 1) by lia.
    rewrite <- drop_drop, take_drop_commute. do 2 f_equal. lia.
  - exists a; unfold slice_from_1; cbn [array offset len cap].
    split_and!; [done|lia..].
  - intros p (b & Hb & Hend & Hsame).
    exists b; unfold slice_from_1; cbn [array offset len].
    split_and!; [done..|]. intros Heq. specialize (Hsame Heq). lia.
Qed.

(** ** The search on slices and the search on values *)

Lemma shows_append st vs e :
  shows st vs →
  shows (let '(h, p) := append (heap st) (path st) e in
         mkDfsState (visited st) h p (paths st))
        (mkDfsValues (visited_of vs) (path_of vs ++ [e]) (paths_of vs)).
Proof.
  intros (Hvis & Hpath & Hpaths & Hfits & Hkept).
  destruct (append_spec (heap st) (path st) e Hfits) as (Hnew & Hfits' & Hold).
  destruct (append (heap st) (path st) e) as [h p]; cbn [fst snd] in *.
  split_and!; cbn [visited heap path paths visited_of path_of paths_of].
  - done.
  - by rewrite Hnew, Hpath.
  - rewrite <- Hpaths. apply Forall_fmap_ext.
    eapply Forall_impl; [exact Hkept|]. intros q Hq. by apply Hold.
  - done.
  - eapply Forall_impl; [exact Hkept|]. intros q Hq. by apply Hold.
Qed.

Lemma shows_record st vs :
  shows st vs →
  shows (mkDfsState (visited st) (heap st) (path st) (paths st ++ [path st]))
        (mkDfsValues (visited_of vs) (path_of vs) (paths_of vs ++ [path_of vs])).
Proof.
  intros (Hvis & Hpath & Hpaths & Hfits & Hkept).
  split_and!; cbn [visited heap path paths visited_of path_of paths_of];
    [done..| |done|].
  - rewrite fmap_app. simpl. by rewrite Hpaths, Hpath.
  - apply Forall_app. split; [done|].
    apply Forall_singleton. by apply slice_kept_self.
Qed.

Lemma shows_leave st vs v :
  shows st vs →
  shows
    (let st := if 0 <? len (path st)
               then mkDfsState (visited st) (heap st) (slice_from_1 (path st))
                      (paths st)
               else st in
     mkDfsState (<[v := false]> (visited st)) (heap st) (path st) (paths st))
    (let vs := if 0 <? length (path_of vs)
               then mkDfsValues (visited_of vs) (drop 1 (path_of vs)) (paths_of vs)
               else vs in
     mkDfsValues (<[v := false]> (visited_of vs)) (path_of vs) (paths_of vs)).
Proof.
  intros (Hvis & Hpath & Hpaths & Hfits & Hkept).
  rewrite <- Hpath, (elements_length _ _ Hfits).
  destruct (0 <? len (path st)) eqn:Hpos; cbn zeta.
  - apply Nat.ltb_lt in Hpos.
    destruct (slice_from_1_spec _ _ Hfits Hpos) as (Hdrop & Hfits' & Hold).
    split_and!; cbn [visited heap path paths visited_of path_of paths_of];
      [by rewrite Hvis|done..|].
    eapply Forall_impl; [exact Hkept|]. intros q Hq. by apply Hold.
  - split_and!; cbn [visited heap path paths visited_of path_of paths_of];
      [by rewrite Hvis|by rewrite Hpath|done..].
Qed.

Lemma dfs_range_slices_as_values
    (call : Vertex → option (@Edge any) → @DfsState any → option (@DfsState any))
    (call' : Vertex → option (@Edge any) → @DfsValues any → option (@DfsValues any))
    edges st vs :
  (∀ w oe st0 vs0, shows st0 vs0 →
                   option_Forall2 shows (call w oe st0) (call' w oe vs0)) →
  shows st vs →
  option_Forall2 shows (dfs_range call edges st)
                       (dfs_range_values call' edges vs).
Proof.
  intros Hcalls. revert st vs.
  induction edges as [|e edges IH]; intros st vs Hshows; [by constructor|].
  simpl. destruct Hshows as (Hvis & Hrest). rewrite <- Hvis.
  destruct (negb (default false (visited st !! To e))).
  - destruct (Hcalls (To e) (Some e) st vs) as [st1 vs1 Hshows1|];
      [by split|by apply IH|constructor].
  - apply IH. by split.
Qed.

(** Sharing arrays changes nothing to what is read: the search on slices
    and the search on values return together, and what the slices of
    the one show in its heap is what the other holds. *)
Theorem dfs_slices_as_values fuel g to v oe st vs :
  shows st vs →
  option_Forall2 shows (dfs fuel g to v oe st) (dfs_values fuel g to v oe vs).
Proof.
  revert v oe st vs.
  induction fuel as [|fuel IH]; intros v oe st vs Hshows; [constructor|].
  cbn [dfs dfs_values].
  set (st1 := mkDfsState (<[v := true]> (visited st)) (heap st) (path st)
                (paths st)).
  set (vs1 := mkDfsValues (<[v := true]> (visited_of vs)) (path_of vs)
                (paths_of vs)).
  assert (shows st1 vs1) as Hshows1.
  { destruct Hshows as (Hvis & Hrest). split; [|done].
    subst st1 vs1; cbn [visited visited_of]. by rewrite Hvis. }
  set (st2 := match oe with
              | Some e =>
                  let '(h, p) := append (heap st1) (path st1) e in
                  mkDfsState (visited st1) h p (paths st1)
              | None => st1
              end).
  set (vs2 := match oe with
              | Some e => mkDfsValues (visited_of vs1) (path_of vs1 ++ [e])
                            (paths_of vs1)
              | None => vs1
              end).
  assert (shows st2 vs2) as Hshows2.
  { subst st2 vs2. destruct oe as [e|]; [by apply shows_append|done]. }
  clearbody st2 vs2. clear Hshows Hshows1 st1 vs1.
  assert (option_Forall2 shows
            (if bool_decide (v = to)
             then Some (mkDfsState (visited st2) (heap st2) (path st2)
                          (paths st2 ++ [path st2]))
             else dfs_range (dfs fuel g to) (edges_of g v) st2)
            (if bool_decide (v = to)
             then Some (mkDfsValues (visited_of vs2) (path_of vs2)
                          (paths_of vs2 ++ [path_of vs2]))
             else dfs_range_values (dfs_values fuel g to) (edges_of g v) vs2))
    as Hr.
  { case_bool_decide.
    - constructor. by apply shows_record.
    - apply dfs_range_slices_as_values; [|done]. intros w oe' st0 vs0. apply IH. }
  destruct Hr as [st3 vs3 Hshows3|]; constructor.
  by apply shows_leave.
Qed.

Lemma Paths_slices_as_values fuel g from to :
  Paths_fuel fuel g from to = Paths_values fuel g from to.
Proof.
  unfold Paths_fuel, Paths_values.
  assert (shows (@dfs_start any) (mkDfsValues ∅ [] [])) as Hstart.
  { split_and!; [done..| |constructor]. exists []. by split_and!. }
  destruct (dfs_slices_as_values fuel g to from None _ _ Hstart)
    as [st vs (_ & _ & Hpaths & _)|]; simpl; [by rewrite Hpaths|done].
Qed.

(** ** Paths *)

(** From a vertex to itself there is the one path with no edge. *)
Lemma Paths_from_is_to g v : Paths (Some g) v v = [[]].
Proof.
  unfold Paths, Paths_fuel, dfs_depth.
  assert (size ({[v]} ∪ targets g) ≠ 0) as Hsize.
  { intros Hzero. apply size_empty_iff in Hzero.
    apply (not_elem_of_empty (C := gset Vertex) v). rewrite <- Hzero.
    apply elem_of_union_l. by apply elem_of_singleton. }
  destruct (size ({[v]} ∪ targets g)) as [|fuel]; [done|].
  cbn [dfs]. by rewrite bool_decide_true.
Qed.

(** C9. The depth-first search of [Paths] returns on every graph, cycles
    or not: a nesting of calls as deep as the number of vertices the
    search can meet is enough, since a call marks its vertex and no call
    is made on a marked vertex; any larger bound gives the same paths. *)
Theorem Paths_terminates g from to :
  ∃ ps,
    Paths_fuel (dfs_depth g from) g from to = Some ps ∧
    (∀ fuel, dfs_depth g from ≤ fuel → Paths_fuel fuel g from to = Some ps) ∧
    Paths (Some g) from to = ps.
Proof.
  destruct (dfs_total (dfs_depth g from) g to ({[from]} ∪ targets g))
    with (v := from) (oe := @None (@Edge any)) (st := @dfs_start any)
    as (st' & Hst' & _).
  - intros w e He. apply elem_of_union_r. by eapply edges_of_targets.
  - apply elem_of_union_l. by apply elem_of_singleton.
  - unfold dfs_start; cbn [visited]. rewrite elem_of_marked, lookup_empty. done.
  - unfold dfs_depth. apply subseteq_size.
    intros w Hw. by apply elem_of_difference in Hw as [Hw _].
  - exists (elements (heap st') <$> paths st').
    unfold Paths, Paths_fuel. rewrite Hst'.
    split_and!; [done| |done].
    intros fuel Hfuel. by rewrite (dfs_fuel_mono _ _ _ _ _ _ _ _ Hfuel Hst').
Qed.

End PathEnumeration.

Section NilReceiver.

Context {any : Type} {order : MapRange} {engine : @ExpressionEngine any}.
Context {growth : SliceGrowth}.

(** C6. On a nil receiver [SPF] and [CSPF] return a nil graph and the
    error [NilGraph], and [Paths] returns no paths; each of the three
    returns at once, before the receiver is read. *)
Theorem nil_graph_receiver (from to : Vertex) (exp : string) :
  SPF (@None (@Graph any)) from to = (None, Some ErrNilGraph) ∧
  CSPF (@None (@Graph any)) from to exp = (None, (None, Some ErrNilGraph)) ∧
  Paths (@None (@Graph any)) from to = [] ∧
  errors_Is ErrNilGraph ErrNilGraph = true ∧
  Error ErrNilGraph = "NilGraph".
Proof. by split_and!. Qed.

End NilReceiver.

(** * Runs on concrete graphs *)

Section Runs.

#[local] Existing Instance keys_in_order.
#[local] Existing Instance link_engine.

(** ** The graph store *)

Lemma AddEdge_validates_before_mutating_witness :
  ¬ NoDup (Key <$> [tagBlue; tagRed]) ∧
  (AddEdge Graph_zero vA vB 1 [tagBlue; tagRed]).1 = Graph_zero ∧
  NoDup (Key <$> [tagBlue]) ∧
  (AddEdge Graph_zero vA vB 1 [tagBlue]).2 = None.
Proof.
  assert (¬ NoDup (Key <$> [tagBlue; tagRed])) as Hdup.
  { intros Hnd. apply NoDup_cons in Hnd as [Hnot _]. apply Hnot. by left. }
  assert (NoDup (Key <$> [tagBlue])) as Hnd by apply NoDup_singleton.
  split_and!; [done| |done|].
  - destruct (AddEdge_validates_before_mutating
                Graph_zero vA vB 1 [tagBlue; tagRed]) as [Hfail _].
    destruct (Hfail Hdup) as (l1 & t & l2 & _ & _ & _ & -> & _). done.
  - destruct (AddEdge_validates_before_mutating
                Graph_zero vA vB 1 [tagBlue]) as [_ Hok].
    destruct (Hok Hnd) as (edge & -> & _). done.
Defined.

(** The duplicate key of the package's test: the error names [link]. *)
Example AddEdge_duplicate_link :
  AddEdge Graph_zero vA vB 1 [tagBlue; tagRed]
  = (Graph_zero, Some (fmt_Errorf_w ErrDuplicateTagKey "link")) ∧
  Error (fmt_Errorf_w ErrDuplicateTagKey "link") = "DuplicateTagKey: link".
Proof. by split. Qed.

(** ** The gate of the result *)

(** C2 as stated fails on the graph A -> B with C on its own: from A, the
    destination C is another vertex and ends the relaxation with no
    predecessor edge, yet [SPF] returns a graph that holds A -> B. *)
Lemma SPF_apart_is_not_empty :
  vA ≠ vC ∧
  relaxation apart vA = Some (Ok (relaxed apart vA)) ∧
  prev (relaxed apart vA) vC = [] ∧
  SPF (Some apart) vA vC ≠ (Some Graph_zero, None) ∧
  (λ G, edges_of G vA) <$> (SPF (Some apart) vA vC).1
  = Some [mkEdge vA vB 1 None].
Proof.
  split_and!; [discriminate|by vm_compute|by vm_compute| |by vm_compute].
  intros Heq.
  assert ((λ G, edges_of G vA) <$> (SPF (Some apart) vA vC).1 = Some [])
    as Hempty by (rewrite Heq; reflexivity).
  vm_compute in Hempty. discriminate Hempty.
Qed.

(** ** Relaxing one edge *)

Lemma relax_edge_keeps_ties_witness :
  unvisited (spf_init apart vA) vB = true ∧
  ∃ st', relax_edge apart vA (spf_init apart vA) (mkEdge vA vB 1 None) = Ok st' ∧
         prev st' vB = [mkEdge vA vB 1 None] ∧ dist st' vB = 1.
Proof.
  split; [by vm_compute|].
  destruct (relax_edge_keeps_ties apart vA (spf_init apart vA)
              (mkEdge vA vB 1 None)) as (st' & Hst' & _ & Hle & _).
  - by vm_compute.
  - reflexivity.
  - exists st'. split; [done|]. destruct Hle as [Hprev Hdist]; [by vm_compute|].
    split; [by etrans; [exact Hprev|]|by etrans; [exact Hdist|]].
Defined.

(** ** The installed predicate *)

(** After [CSPF] the same [SPF] call gives another graph: before it the
    blue edge A -> D is a predecessor edge of D, after it the red
    predicate keeps it out. *)
Example SPF_after_CSPF_differs :
  (λ G, edges_of G vA) <$> (SPF (Some coloured) vA vE).1
  = Some [mkEdge vA vB 2 (Some {["link" := "red"]});
          mkEdge vA vD 1 (Some {["link" := "blue"]})] ∧
  (λ G, edges_of G vA) <$> (SPF (CSPF (Some coloured) vA vD "red").1 vA vE).1
  = Some [mkEdge vA vB 2 (Some {["link" := "red"]})].
Proof. split; by vm_compute. Qed.

Lemma CSPF_parse_error_keeps_predicate_witness :
  NewEvaluable "" = inr (gval_error "parsing error") ∧
  CSPF (Some coloured) vA vE ""
  = (Some coloured, (None, Some (gval_error "parsing error"))).
Proof.
  split; [reflexivity|].
  apply (CSPF_parse_error_keeps_predicate coloured vA vE ""). reflexivity.
Defined.

(** A failed [CSPF] after a successful one: the red predicate is still
    there and still keeps the blue edge A -> D out. *)
Example SPF_after_failed_CSPF :
  let receiver := (CSPF (CSPF (Some coloured) vA vD "red").1 vA vE "").1 in
  (λ G, edges_of G vA) <$> (SPF receiver vA vE).1
  = Some [mkEdge vA vB 2 (Some {["link" := "red"]})].
Proof. by vm_compute. Qed.

(** ** Evaluation errors *)

Lemma SPF_aborts_on_first_evaluation_error_witness :
  let g := mkGraph (VertexSet untagged) (Some (link_equals "blue")) in
  eval g = Some (link_equals "blue") ∧
  relax_edges g vA (edges_of g vA)
    (mkSPFState (delete vA (unvisitedSet (spf_init g vA)))
                (distSet (spf_init g vA)) (prevSet (spf_init g vA)))
  = Err (gval_error "unknown parameter link") ∧
  SPF (Some g) vA vC = (None, Some (gval_error "unknown parameter link")).
Proof.
  intros g.
  destruct (SPF_aborts_on_first_evaluation_error g (link_equals "blue"))
    as (Hfirst & _ & _ & _ & Hspf & _ & _); [reflexivity|].
  split_and!; [reflexivity| |].
  - replace (edges_of g vA)
      with ([mkEdge vA vB 1 (Some {["link" := "blue"]})]
            ++ mkEdge vA vC 1 None :: []) by by vm_compute.
    apply (Hfirst vA _ [mkEdge vA vB 1 (Some {["link" := "blue"]})]
             (mkEdge vA vC 1 None) [] false).
    + intros e' He' _. apply list_elem_of_singleton in He'. by subst e'.
    + by vm_compute.
    + reflexivity.
  - apply Hspf. by vm_compute.
Defined.

End Runs.

(** * Runs under every order of iteration and every growth of slices *)

Section RunsAnyOrder.

Context {order : MapRange} {growth : SliceGrowth}.

(** ** Paths *)

(** C1, on the graph A -> B, B -> C, B -> D: [Paths] from A to D returns
    the single path [B -> C; B -> D], which does not start at A and in
    which the second edge does not leave the vertex the first one
    enters; the path from A to D in the graph is [A -> B; B -> D].  On
    leaving a vertex, [dfs] drops the first edge of the current path,
    not the last.  This is so however slices grow. *)
Theorem Paths_fork_drops_the_first_edge :
  Paths (Some fork) vA vD
  = [[mkEdge vB vC 1 None; mkEdge vB vD 1 None]] ∧
  ¬ walk vA [mkEdge vB vC 1 None; mkEdge vB vD 1 (@None (gmap string string))] vD ∧
  walk vA [mkEdge vA vB 1 None; mkEdge vB vD 1 (@None (gmap string string))] vD ∧
  edges_of fork vA = [mkEdge vA vB 1 None] ∧
  edges_of fork vB = [mkEdge vB vC 1 None; mkEdge vB vD 1 None].
Proof.
  split_and!; [|intros [Hfirst _]; discriminate Hfirst|by vm_compute..].
  unfold Paths. rewrite Paths_slices_as_values. by vm_compute.
Qed.

(** ** The loop and the zero vertex *)

(** C3, on the graph with A on its own and an edge of cost 5 from the
    vertex with the empty ID to B, from A, under every order of
    iteration.  After the first round, which takes A, the two vertices
    left are both at [infinity].  The next round does not leave the
    loop: the zero [Vertex] that [getSmallestDistanceVertex] answers
    with is the vertex with the empty ID, it is removed, and its edge is
    relaxed from the distance [infinity], which wraps to 4.  [SPF] from A
    to B returns that edge, though B cannot be reached from A. *)
Theorem SPF_unnamed_relaxes_at_infinity :
  ∃ st1 st2,
    spf_round unnamed (spf_init unnamed vA) = Continue st1 ∧
    dom (unvisitedSet st1) = {[Vertex_zero; vB]} ∧
    dist st1 Vertex_zero = infinity ∧ dist st1 vB = infinity ∧
    spf_round unnamed st1 = Continue st2 ∧
    prev st1 vB = [] ∧
    prev st2 vB = [mkEdge Vertex_zero vB 5 None] ∧
    dist st2 vB = 4 ∧
    edges_of unnamed vA = [] ∧
    (λ G, edges_of G Vertex_zero) <$> (SPF (Some unnamed) vA vB).1
    = Some [mkEdge Vertex_zero vB 5 None].
Proof.
  set (next := λ st : @SPFState string,
         match @spf_round string keys_in_order unnamed st with
         | Continue st' => st'
         | _ => st
         end).
  exists (next (@spf_init string keys_in_order unnamed vA)),
         (next (next (@spf_init string keys_in_order unnamed vA))).
  rewrite (@spf_init_any_order string order).
  rewrite (@SPF_any_order string order) by by vm_compute.
  rewrite !(@spf_round_any_order string order) by by vm_compute.
  subst next. split_and!; by vm_compute.
Qed.

(** The package's own example: [CSPF] from A to D asking for red edges,
    where no red edge enters D, returns the graph from which [Paths]
    lists the red path from A to E. *)
Example CSPF_coloured_example :
  prev (relaxed (mkGraph (VertexSet coloured) (Some (link_equals "red"))) vA) vD
  = [] ∧
  ∃ G, (@CSPF string keys_in_order link_engine (Some coloured) vA vD "red").2
       = (Some G, None) ∧
       Paths (Some G) vA vE
       = [[mkEdge vA vB 2 (Some {["link" := "red"]});
           mkEdge vB vC 2 (Some {["link" := "red"]});
           mkEdge vC vE 2 (Some {["link" := "red"]})]].
Proof.
  split; [by vm_compute|].
  eexists. split; [vm_compute; reflexivity|].
  unfold Paths. rewrite Paths_slices_as_values. by vm_compute.
Qed.

(** The package's tests [TestSPF] and [TestSPFWithCycle]: two paths of
    two edges through the diamond, one path of four edges out of the
    cycle. *)
Example TestSPF :
  ∃ G, @SPF string keys_in_order (Some diamond) vA vD = (Some G, None) ∧
       Paths (Some G) vA vD
       = [[mkEdge vA vC 1 None; mkEdge vC vD 1 None];
          [mkEdge vA vB 1 None; mkEdge vB vD 1 None]].
Proof.
  eexists. split; [vm_compute; reflexivity|].
  unfold Paths. rewrite Paths_slices_as_values. by vm_compute.
Qed.

Example TestSPFWithCycle :
  ∃ G, @SPF string keys_in_order (Some cycle) vA vE = (Some G, None) ∧
       Paths (Some G) vA vE
       = [[mkEdge vA vB 1 None; mkEdge vB vC 1 None;
           mkEdge vC vD 1 None; mkEdge vD vE 1 None]] ∧
       Paths (Some cycle) vA vE = Paths (Some G) vA vE.
Proof.
  eexists. split; [vm_compute; reflexivity|].
  unfold Paths. rewrite !Paths_slices_as_values. split; by vm_compute.
Qed.

(** The run that refutes C2 as stated does not hang on the order of
    iteration. *)
Example SPF_apart_any_order :
  SPF (Some apart) vA vC = @SPF string keys_in_order (Some apart) vA vC ∧
  (λ G, edges_of G vA) <$> (SPF (Some apart) vA vC).1
  = Some [mkEdge vA vB 1 None].
Proof.
  rewrite (@SPF_any_order string order) by by vm_compute.
  split; by vm_compute.
Qed.

(** The search on slices, run as it is with arrays that double. *)
Example Paths_fork_doubling :
  @Paths string doubling (Some fork) vA vD
  = [[mkEdge vB vC 1 None; mkEdge vB vD 1 None]].
Proof. by vm_compute. Qed.

End RunsAnyOrder.

(** * Further properties of the graph store *)

Section StoreFurther.

Context {any : Type}.
Implicit Types (g : @Graph any) (e : @Edge any) (v w : Vertex).
Implicit Types (ops : list (@operation any)).

Lemma edges_of_apply_operation g (op : @operation any) v :
  edges_of g v `prefix_of` edges_of (apply_operation g op) v.
Proof.
  destruct op as [u|from to cost tags]; simpl.
  - by rewrite edges_of_AddNode.
  - unfold AddEdge.
    destruct (negb _); [destruct (collect_tags tags ∅)|]; cbn [fst];
      rewrite ?edges_of_addEdge; try done;
      (case_decide; [by apply prefix_app_r|done]).
Qed.

Lemma key_apply_operation g (op : @operation any) v :
  is_Some (vertices g !! v) → is_Some (vertices (apply_operation g op) !! v).
Proof.
  intros Hv. destruct op as [u|from to cost tags]; simpl.
  - rewrite lookup_AddNode. case_decide; [by eexists|done].
  - unfold AddEdge.
    destruct (negb _); [destruct (collect_tags tags ∅)|]; cbn [fst];
      rewrite ?lookup_addEdge; try done;
      repeat case_decide; first [done|by eexists].
Qed.

Lemma stored_AddNode g v : stored g → stored (AddNode g v).
Proof.
  intros Hg w e. rewrite edges_of_AddNode. intros He.
  destruct (Hg w e He) as [Hfrom Hto]. split; [done|].
  rewrite lookup_AddNode. case_decide; [by eexists|done].
Qed.

Lemma stored_addEdge g e : stored g → stored (addEdge g e).
Proof.
  intros Hg w e'. rewrite edges_of_addEdge.
  assert (∀ u, is_Some (vertices g !! u) ∨ u = From e ∨ u = To e →
               is_Some (vertices (addEdge g e) !! u)) as Hkey.
  { intros u Hu. rewrite lookup_addEdge.
    repeat case_decide; [by eexists..|]. by destruct Hu as [?|[?|?]]. }
  case_decide as Hw.
  - intros [He|He%list_elem_of_singleton]%elem_of_app.
    + destruct (Hg w e' He) as [Hfrom Hto]. split; [done|]. apply Hkey. by left.
    + subst e'. split; [done|]. apply Hkey. by right; right.
  - intros He. destruct (Hg w e' He) as [Hfrom Hto]. split; [done|].
    apply Hkey. by left.
Qed.

Lemma stored_apply_operation g (op : @operation any) :
  stored g → stored (apply_operation g op).
Proof.
  intros Hg. destruct op as [u|from to cost tags]; simpl.
  - by apply stored_AddNode.
  - unfold AddEdge.
    destruct (negb _); [destruct (collect_tags tags ∅)|]; cbn [fst];
      try done; by apply stored_addEdge.
Qed.

Lemma stored_built ops : stored (built ops).
Proof.
  unfold built. induction ops as [|op ops IH] using rev_ind.
  - intros v e He. by apply elem_of_nil in He.
  - rewrite foldl_app. simpl. by apply stored_apply_operation.
Qed.

(** X1. [AddNode] makes [v] a key of the vertex set and changes nothing
    else: the edges of every vertex, [v] included, are the ones before,
    every other key is as before, the predicate is kept, and a second
    call on the same vertex changes nothing at all. *)
Theorem AddNode_only_adds_the_key g v :
  is_Some (vertices (AddNode g v) !! v) ∧
  (∀ w, edges_of (AddNode g v) w = edges_of g w) ∧
  (∀ w, w ≠ v → vertices (AddNode g v) !! w = vertices g !! w) ∧
  eval (AddNode g v) = eval g ∧
  AddNode (AddNode g v) v = AddNode g v.
Proof.
  split_and!.
  - rewrite lookup_AddNode, decide_True by done. by eexists.
  - intros w. apply edges_of_AddNode.
  - intros w Hw. rewrite lookup_AddNode. by rewrite decide_False.
  - apply eval_AddNode.
  - apply AddNode_idempotent.
Qed.

(** X2. In every graph built from [Graph{}] by calls of [AddNode] and
    [AddEdge], failed calls included, each edge is kept in the list of
    the vertex it leaves and the vertex it enters is a key of the vertex
    set. *)
Theorem built_graph_is_stored ops :
  ∀ v e, e ∈ edges_of (built ops) v →
         From e = v ∧ is_Some (vertices (built ops) !! To e).
Proof. apply stored_built. Qed.

(** X3. The store only grows: after further calls of [AddNode] and
    [AddEdge] every vertex is still a key, and its edges are the ones it
    had, in the same order, followed by the new ones. *)
Theorem built_graph_only_grows ops ops' v :
  edges_of (built ops) v `prefix_of` edges_of (built (ops ++ ops')) v ∧
  (is_Some (vertices (built ops) !! v) →
   is_Some (vertices (built (ops ++ ops')) !! v)).
Proof.
  unfold built. rewrite foldl_app. generalize (foldl apply_operation Graph_zero ops).
  intros g. induction ops' as [|op ops' IH] using rev_ind; [done|].
  rewrite foldl_app. simpl. destruct IH as [IHedges IHkey]. split.
  - etrans; [exact IHedges|]. apply edges_of_apply_operation.
  - intros Hv. by apply key_apply_operation, IHkey.
Qed.

End StoreFurther.

(** * Further properties of SPF *)

Section SpfFurther.

Context {any : Type} {order : MapRange}.
Implicit Types (g : @Graph any) (e edge : @Edge any) (v w c : Vertex).
Implicit Types (st : @SPFState any).

(** ** The closest vertex *)

(** X4. Whatever the order of the iteration, [getSmallestDistanceVertex]
    answers with an unvisited vertex whose distance is below [infinity]
    and no larger than that of any unvisited vertex; when no unvisited
    vertex is below [infinity], and so also on an empty set, it answers
    with the zero [Vertex]. *)
Theorem getSmallestDistanceVertex_is_closest
    (unvisited : gmap Vertex bool) (distSet : gmap Vertex N) :
  (getSmallestDistanceVertex unvisited distSet = Vertex_zero ∧
   ∀ v, is_Some (unvisited !! v) → ¬ default 0 (distSet !! v) < infinity)
  ∨
  (is_Some (unvisited !! getSmallestDistanceVertex unvisited distSet) ∧
   default 0 (distSet !! getSmallestDistanceVertex unvisited distSet) < infinity ∧
   ∀ v, is_Some (unvisited !! v) →
        default 0 (distSet !! getSmallestDistanceVertex unvisited distSet)
        ≤ default 0 (distSet !! v)).
Proof. apply getSmallestDistanceVertex_spec. Qed.

Lemma closest_without_tie
    (unvisited : gmap Vertex bool) (distSet : gmap Vertex N) v :
  is_Some (unvisited !! v) →
  default 0 (distSet !! v) < infinity →
  (∀ w, is_Some (unvisited !! w) → w ≠ v →
        default 0 (distSet !! v) < default 0 (distSet !! w)) →
  getSmallestDistanceVertex unvisited distSet = v.
Proof.
  intros Hv Hlt Hothers.
  destruct (getSmallestDistanceVertex_spec unvisited distSet)
    as [[_ Hall]|(Hc & _ & Hmin)].
  - by apply Hall in Hv.
  - destruct (decide (getSmallestDistanceVertex unvisited distSet = v))
      as [|Hne]; [done|].
    specialize (Hothers _ Hc Hne). specialize (Hmin v Hv). lia.
Qed.

(** X5. When one unvisited vertex is below [infinity] and strictly below
    every other unvisited vertex, [getSmallestDistanceVertex] answers
    with it under every order of the iteration: only ties are left to
    the order. *)
Theorem getSmallestDistanceVertex_without_tie
    (unvisited : gmap Vertex bool) (distSet : gmap Vertex N) v :
  is_Some (unvisited !! v) →
  default 0 (distSet !! v) < infinity →
  (∀ w, is_Some (unvisited !! w) → w ≠ v →
        default 0 (distSet !! v) < default 0 (distSet !! w)) →
  getSmallestDistanceVertex unvisited distSet = v.
Proof. apply closest_without_tie. Qed.

(** ** Errors *)

Lemma relax_edges_error g c l st err :
  relax_edges g c l st = Err err →
  ∃ ev e, eval g = Some ev ∧ e ∈ l ∧ (ev (Tags e)).2 = Some err.
Proof.
  revert st. induction l as [|e l IH]; intros st; [done|].
  simpl. destruct (relax_edge g c st e) as [st1|err1] eqn:Hedge.
  - intros (ev & e' & Hev & He' & Herr)%IH. exists ev, e'.
    split_and!; [done|by right|done].
  - intros [= <-]. rewrite relax_edge_cases in Hedge.
    destruct (unvisited st (To e)); [|done].
    unfold edgeSatisfiesConstranints in Hedge.
    destruct (eval g) as [ev|] eqn:Hev.
    + exists ev, e. split_and!; [done|by left|].
      destruct (ev (Tags e)) as [b [err'|]]; simpl in *.
      * by injection Hedge as <-.
      * destruct b; [destruct (_ <=? _)|]; done.
    + by destruct (_ <=? _).
Qed.

Lemma spf_loop_error fuel g st err :
  spf_loop fuel g st = Some (Err err) →
  ∃ ev c e, eval g = Some ev ∧ e ∈ edges_of g c ∧ (ev (Tags e)).2 = Some err.
Proof.
  revert st. induction fuel as [|fuel IH]; intros st; simpl;
    (destruct (0 <? size (unvisitedSet st))%nat; [|done]); [done|].
  unfold spf_round at 1.
  set (c := getSmallestDistanceVertex (unvisitedSet st) (distSet st)).
  destruct (_ =? _)%nat; [done|].
  destruct (relax_edges g c (edges_of g c) _) as [st1|err1] eqn:Hrelax.
  - apply IH.
  - intros [= <-]. apply relax_edges_error in Hrelax as (ev & e & ? & ? & ?).
    by exists ev, c, e.
Qed.

(** X6. [SPF] on a graph returns a graph and no error, or no graph and
    an error; and an error it returns is the error that the installed
    predicate gave on the tags of an edge of the graph.  A graph with no
    predicate never makes [SPF] fail. *)
Theorem SPF_graph_or_evaluation_error g from to :
  (∃ G, SPF (Some g) from to = (Some G, None)) ∨
  (∃ err ev c e,
     SPF (Some g) from to = (None, Some err) ∧
     eval g = Some ev ∧ e ∈ edges_of g c ∧ (ev (Tags e)).2 = Some err).
Proof.
  unfold SPF. destruct (relaxation_total g from) as [[st|err] Hrun]; rewrite Hrun.
  - left. by eexists.
  - right. apply spf_loop_error in Hrun as (ev & c & e & ? & ? & ?).
    by exists err, ev, c, e.
Qed.


(** ** The relaxation only improves *)

Lemma improves_refl st : improves st st.
Proof. intros v. by split_and!. Qed.

Lemma improves_trans st1 st2 st3 :
  improves st1 st2 → improves st2 st3 → improves st1 st3.
Proof.
  intros H12 H23 v.
  destruct (H12 v) as (Hp12 & Hd12 & Hs12), (H23 v) as (Hp23 & Hd23 & Hs23).
  split_and!; [by etrans|lia|].
  intros Hv. destruct (Hs12 Hv) as (Hd & Hp & Hv2).
  destruct (Hs23 Hv2) as (Hd' & Hp' & Hv3). by rewrite Hd', Hp', Hd, Hp.
Qed.

Lemma relax_edge_improves g c st edge st' :
  relax_edge g c st edge = Ok st' → improves st st'.
Proof.
  rewrite relax_edge_cases.
  destruct (unvisited st (To edge)) eqn:Hunv;
    [|intros [= <-]; apply improves_refl].
  destruct (edgeSatisfiesConstranints g edge) as [[|] [err|]]; try done;
    [|intros [= <-]; apply improves_refl].
  destruct (_ <=? _) eqn:Hle; intros [= <-]; [|apply improves_refl].
  apply N.leb_le in Hle. intros v.
  unfold prev, dist, unvisited in *; cbn [prevSet distSet unvisitedSet].
  rewrite !lookup_insert. case_decide as Hv; simpl.
  - subst v. split_and!; [by apply prefix_app_r|done|]. by rewrite Hunv.
  - by split_and!.
Qed.

Lemma relax_edges_improves g c l st st' :
  relax_edges g c l st = Ok st' → improves st st'.
Proof.
  revert st. induction l as [|e l IH]; intros st; simpl.
  - intros [= <-]. apply improves_refl.
  - destruct (relax_edge g c st e) as [st1|] eqn:Hedge; [|done].
    intros Hrest. eapply improves_trans; [by eapply relax_edge_improves|by apply IH].
Qed.

Lemma delete_improves st c :
  improves st (mkSPFState (delete c (unvisitedSet st)) (distSet st) (prevSet st)).
Proof.
  intros v. unfold prev, dist, unvisited; cbn [prevSet distSet unvisitedSet].
  split_and!; [done..|]. intros Hv. split_and!; [done..|].
  rewrite lookup_delete. by case_decide.
Qed.

Lemma spf_round_improves g st :
  match spf_round g st with
  | Continue st' | Break st' => improves st st'
  | Abort _ => True
  end.
Proof.
  unfold spf_round.
  set (c := getSmallestDistanceVertex (unvisitedSet st) (distSet st)).
  destruct (_ =? _)%nat; [apply delete_improves|].
  destruct (relax_edges g c (edges_of g c) _) as [st1|] eqn:Hrelax; [|done].
  eapply improves_trans; [apply delete_improves|by eapply relax_edges_improves].
Qed.

Lemma spf_loop_improves fuel g st st' :
  spf_loop fuel g st = Some (Ok st') → improves st st'.
Proof.
  revert st. induction fuel as [|fuel IH]; intros st; simpl;
    (destruct (0 <? size (unvisitedSet st))%nat;
       [|intros [= <-]; apply improves_refl]); [done|].
  pose proof (spf_round_improves g st) as Hround.
  destruct (spf_round g st) as [st1|st1|err]; [|by intros [= <-]|done].
  intros Hloop. eapply improves_trans; [exact Hround|by apply IH].
Qed.

(** X7. Through the whole relaxation, from its initial state to its
    last, in every state the loop passes: the predecessor edges of a
    vertex are only added behind the ones recorded, none is ever
    removed; its distance only goes down; and once a vertex has been
    taken out of the unvisited set its distance and its predecessor
    edges are final. *)
Theorem relaxation_only_improves fuel g st st' :
  spf_loop fuel g st = Some (Ok st') →
  ∀ v, prev st v `prefix_of` prev st' v ∧
       dist st' v ≤ dist st v ∧
       (unvisited st v = false →
        dist st' v = dist st v ∧ prev st' v = prev st v ∧
        unvisited st' v = false).
Proof. apply spf_loop_improves. Qed.

(** ** The source *)

Lemma spf_init_closest g from :
  is_Some (vertices g !! from) →
  getSmallestDistanceVertex (unvisitedSet (spf_init g from))
                            (distSet (spf_init g from)) = from.
Proof.
  intros [edges Hfrom]. apply closest_without_tie.
  - rewrite spf_init_unvisitedSet, Hfrom. by eexists.
  - rewrite spf_init_distSet, decide_True by done. done.
  - intros w Hw Hne. rewrite !spf_init_distSet, decide_True by done.
    rewrite decide_False by done. rewrite spf_init_unvisitedSet in Hw.
    destruct (vertices g !! w); [done|by destruct Hw].
Qed.

Lemma spf_round_taken g st :
  let c := getSmallestDistanceVertex (unvisitedSet st) (distSet st) in
  let st1 := mkSPFState (delete c (unvisitedSet st)) (distSet st) (prevSet st) in
  match spf_round g st with
  | Continue st' => relax_edges g c (edges_of g c) st1 = Ok st'
  | Break st' => st' = st1
  | Abort err => relax_edges g c (edges_of g c) st1 = Err err
  end.
Proof.
  intros c st1. unfold spf_round. fold c. fold st1.
  destruct (_ =? _)%nat; [done|].
  by destruct (relax_edges g c (edges_of g c) st1).
Qed.

(** X8. When the source is a vertex of the graph, the first round of the
    loop takes the source, under every order of the iteration, and at
    the end of the relaxation the source is at distance 0 with no
    predecessor edge, whatever edges enter it. *)
Theorem source_is_taken_first g from st :
  is_Some (vertices g !! from) →
  relaxation g from = Some (Ok st) →
  getSmallestDistanceVertex (unvisitedSet (spf_init g from))
                            (distSet (spf_init g from)) = from ∧
  dist st from = 0 ∧ prev st from = [] ∧ unvisited st from = false.
Proof.
  intros Hfrom Hrun. split; [by apply spf_init_closest|].
  unfold relaxation in Hrun.
  assert (unvisitedSet (spf_init g from) !! from = Some true) as Hunv.
  { rewrite spf_init_unvisitedSet. by destruct Hfrom as [? ->]. }
  destruct (size (unvisitedSet (spf_init g from))) as [|fuel] eqn:Hsize.
  { apply map_size_empty_inv in Hsize. by rewrite Hsize in Hunv. }
  cbn [spf_loop] in Hrun. rewrite Hsize in Hrun. cbn [Nat.ltb Nat.leb] in Hrun.
  pose proof (spf_round_taken g (spf_init g from)) as Hround.
  cbn zeta in Hround. rewrite (spf_init_closest g from Hfrom) in Hround.
  set (st1 := mkSPFState (delete from (unvisitedSet (spf_init g from)))
                (distSet (spf_init g from)) (prevSet (spf_init g from))) in *.
  assert (dist st1 from = 0 ∧ prev st1 from = [] ∧ unvisited st1 from = false)
    as (Hd1 & Hp1 & Hu1).
  { unfold dist, prev, unvisited, st1; cbn [distSet prevSet unvisitedSet].
    rewrite lookup_delete_eq, spf_init_distSet, decide_True by done.
    rewrite spf_init_prevSet. by destruct Hfrom as [? ->]. }
  assert (∀ st2, improves st1 st2 →
            dist st2 from = 0 ∧ prev st2 from = [] ∧ unvisited st2 from = false)
    as Hfinal.
  { intros st2 Himp. destruct (Himp from) as (_ & _ & Hsettled).
    destruct (Hsettled Hu1) as (-> & -> & ->). done. }
  destruct (spf_round g (spf_init g from)) as [st2|st2|err]; [| |done].
  - apply relax_edges_improves in Hround. apply spf_loop_improves in Hrun.
    apply Hfinal. by eapply improves_trans.
  - injection Hrun as <-. subst st2. apply Hfinal, improves_refl.
Qed.

(** ** The result graph *)

Lemma edges_of_foldl_addEdge (G : @Graph any) (l : list (@Edge any)) v e :
  e ∈ edges_of (foldl addEdge G l) v ↔ e ∈ edges_of G v ∨ (e ∈ l ∧ From e = v).
Proof.
  revert G. induction l as [|e1 l IH]; intros G; simpl.
  - split; [by left|]. intros [?|[?%elem_of_nil ?]]; done.
  - rewrite IH, edges_of_addEdge. case_decide as Hv.
    + rewrite elem_of_app, list_elem_of_singleton, elem_of_cons. split.
      * intros [[He| ->]|[He Hfrom]].
        -- by left.
        -- right. split; [by left|done].
        -- right. split; [by right|done].
      * intros [He|[[-> |He] Hfrom]].
        -- left. by left.
        -- left. by right.
        -- right. by split.
    + rewrite elem_of_cons. split.
      * intros [He|[He Hfrom]]; [by left|]. right. split; [by right|done].
      * intros [He|[[-> |He] Hfrom]]; [by left|done|]. right. by split.
Qed.

Lemma stored_foldl_addEdge (G : @Graph any) (l : list (@Edge any)) :
  stored G → stored (foldl addEdge G l).
Proof.
  revert G. induction l as [|e l IH]; intros G HG; [done|].
  simpl. by apply IH, stored_addEdge.
Qed.

Lemma spf_result_foldl (prevSet : gmap Vertex (list (@Edge any))) :
  spf_result prevSet
  = foldl addEdge Graph_zero
      (mjoin ((λ v, default [] (prevSet !! v)) <$> range_keys 2 prevSet)).
Proof.
  unfold spf_result. generalize (@Graph_zero any).
  induction (range_keys 2 prevSet) as [|v keys IH]; intros G; [done|].
  simpl. by rewrite foldl_app, IH.
Qed.

Lemma edges_of_spf_result (prevSet : gmap Vertex (list (@Edge any))) v e :
  e ∈ edges_of (spf_result prevSet) v
  ↔ From e = v ∧ ∃ w, e ∈ default [] (prevSet !! w).
Proof.
  rewrite spf_result_foldl, edges_of_foldl_addEdge, list_elem_of_join. split.
  - intros [He|[(l & He & Hl) Hfrom]]; [by apply elem_of_nil in He|].
    split; [done|]. apply list_elem_of_fmap in Hl as (w & -> & _). by exists w.
  - intros [Hfrom [w He]]. right. split; [|done].
    exists (default [] (prevSet !! w)). split; [done|].
    apply list_elem_of_fmap. exists w. split; [done|].
    apply elem_of_range_keys. destruct (prevSet !! w); [by eexists|].
    by apply elem_of_nil in He.
Qed.

Lemma relax_edges_recorded g c l st st' :
  (∀ e, e ∈ l → e ∈ edges_of g c) →
  (∀ w e, e ∈ prev st w →
          To e = w ∧ (∃ c', e ∈ edges_of g c') ∧ allowed g e = true) →
  relax_edges g c l st = Ok st' →
  ∀ w e, e ∈ prev st' w →
         To e = w ∧ (∃ c', e ∈ edges_of g c') ∧ allowed g e = true.
Proof.
  revert st. induction l as [|e1 l IH]; intros st Hl Hinv; simpl.
  - by intros [= <-].
  - destruct (relax_edge g c st e1) as [st1|] eqn:Hedge; [|done].
    apply IH; [intros e He; apply Hl; by right|].
    rewrite relax_edge_cases in Hedge.
    destruct (unvisited st (To e1)); [|by injection Hedge as <-].
    destruct (edgeSatisfiesConstranints g e1) as [[|] [err|]] eqn:Hsat;
      try done; [|by injection Hedge as <-].
    destruct (_ <=? _); injection Hedge as <-; [|done].
    intros w e. unfold prev at 1; cbn [prevSet]. rewrite lookup_insert.
    case_decide as Hw; [|apply Hinv]. simpl.
    intros [He|He%list_elem_of_singleton]%elem_of_app; [subst w; by apply Hinv|subst e].
    split_and!; [done|exists c; apply Hl; by left|].
    unfold allowed. by rewrite Hsat.
Qed.

Lemma spf_loop_recorded fuel g st st' :
  (∀ w e, e ∈ prev st w →
          To e = w ∧ (∃ c', e ∈ edges_of g c') ∧ allowed g e = true) →
  spf_loop fuel g st = Some (Ok st') →
  ∀ w e, e ∈ prev st' w →
         To e = w ∧ (∃ c', e ∈ edges_of g c') ∧ allowed g e = true.
Proof.
  revert st. induction fuel as [|fuel IH]; intros st Hinv; simpl;
    (destruct (0 <? size (unvisitedSet st))%nat; [|by intros [= <-]]); [done|].
  pose proof (spf_round_taken g st) as Hround. cbn zeta in Hround.
  destruct (spf_round g st) as [st1|st1|err]; [| |done].
  - apply IH. eapply relax_edges_recorded; [| |exact Hround]; [done|exact Hinv].
  - intros [= <-]. by subst st1.
Qed.

Lemma relaxation_recorded g from st :
  relaxation g from = Some (Ok st) →
  ∀ w e, e ∈ prev st w →
         To e = w ∧ (∃ c', e ∈ edges_of g c') ∧ allowed g e = true.
Proof.
  apply spf_loop_recorded. intros w e. unfold prev.
  rewrite spf_init_prevSet. destruct (vertices g !! w); simpl;
    by intros ?%elem_of_nil.
Qed.

Lemma SPF_subgraph g from to (G : @Graph any) :
  SPF (Some g) from to = (Some G, None) →
  ∀ v e, e ∈ edges_of G v →
         From e = v ∧
         (∃ c, e ∈ edges_of g c) ∧
         allowed g e = true ∧
         is_Some (vertices g !! To e) ∧
         is_Some (vertices G !! From e) ∧ is_Some (vertices G !! To e).
Proof.
  unfold SPF. destruct (relaxation g from) as [[st|err]|] eqn:Hrun; [|done..].
  destruct (_ || _); intros [= <-] v e He;
    [|by apply elem_of_nil in He].
  pose proof He as [Hfrom [w Hw]]%edges_of_spf_result.
  destruct (relaxation_recorded g from st Hrun w e Hw) as (Hto & Hedge & Hsat).
  assert (stored (spf_result (prevSet st))) as Hstored.
  { rewrite spf_result_foldl. apply stored_foldl_addEdge.
    intros u e' He'. by apply elem_of_nil in He'. }
  destruct (Hstored v e He) as [_ HtoG].
  split_and!; [done..| | |done].
  - apply (relaxation_prevSet_keys g from st Hrun). rewrite Hto.
    unfold prev in Hw. destruct (prevSet st !! w); [by eexists|].
    by apply elem_of_nil in Hw.
  - rewrite Hfrom. unfold edges_of in He.
    destruct (vertices (spf_result (prevSet st)) !! v); [by eexists|].
    by apply elem_of_nil in He.
Qed.

(** X9. Every edge of the graph that [SPF] returns is an edge of the
    graph it was called on, is kept in the list of the vertex it leaves,
    and has passed the installed predicate: an edge whose tags do not
    satisfy the expression is never part of the result.  Both of its
    ends are vertices of the result, and the vertex it enters is a
    vertex of the source graph. *)
Theorem SPF_result_is_a_subgraph g from to (G : @Graph any) :
  SPF (Some g) from to = (Some G, None) →
  ∀ v e, e ∈ edges_of G v →
         From e = v ∧
         (∃ c, e ∈ edges_of g c) ∧
         allowed g e = true ∧
         is_Some (vertices g !! To e) ∧
         is_Some (vertices G !! From e) ∧ is_Some (vertices G !! To e).
Proof. apply SPF_subgraph. Qed.

Lemma SPF_gate_open g from to st :
  relaxation g from = Some (Ok st) →
  to = from ∨ is_Some (vertices g !! to) →
  SPF (Some g) from to = (Some (spf_result (prevSet st)), None).
Proof.
  intros Hrun Hto. unfold SPF. rewrite Hrun.
  destruct Hto as [->|Hto].
  - rewrite (bool_decide_true (from = from)) by done. by rewrite orb_true_r.
  - apply (relaxation_prevSet_keys g from st Hrun) in Hto.
    by rewrite (bool_decide_true _ Hto).
Qed.

(** X10. When the destination is a vertex of the graph, or is the
    source, the graph that [SPF] returns holds the recorded predecessor
    edges of every vertex and nothing else, each in the list of the
    vertex it leaves. *)
Theorem SPF_result_holds_the_recorded_edges g from to st :
  relaxation g from = Some (Ok st) →
  to = from ∨ is_Some (vertices g !! to) →
  ∃ G, SPF (Some g) from to = (Some G, None) ∧
       ∀ v e, e ∈ edges_of G v ↔ From e = v ∧ ∃ w, e ∈ prev st w.
Proof.
  intros Hrun Hto. exists (spf_result (prevSet st)). split.
  - by apply SPF_gate_open.
  - intros v e. apply edges_of_spf_result.
Qed.

(** X11. On a graph with no vertex, whether its vertex set is nil or
    empty, [SPF] returns the empty graph and no error, for every source
    and destination, the two being equal or not. *)
Theorem SPF_of_no_vertex (ev : option (@Evaluable any)) from to :
  SPF (Some (mkGraph None ev)) from to = (Some Graph_zero, None) ∧
  SPF (Some (mkGraph (Some ∅) ev)) from to = (Some Graph_zero, None).
Proof.
  assert (∀ g, vertices g = ∅ → SPF (Some g) from to = (Some Graph_zero, None))
    as Hempty; [|by split; apply Hempty].
  intros g Hg.
  assert (∀ site, @range_keys order (list (@Edge any)) site ∅ = []) as Hkeys.
  { intros site. apply Permutation_nil_r. unfold range_keys.
    by rewrite range_order_perm, map_to_list_empty. }
  unfold SPF, relaxation, spf_init. rewrite Hg, Hkeys. cbn [foldl unvisitedSet].
  destruct (size (∅ : gmap Vertex bool)) eqn:Hsize;
    [|by rewrite map_size_empty in Hsize].
  cbn [spf_loop unvisitedSet prevSet]. rewrite Hsize.
  cbn [Nat.ltb Nat.leb prevSet].
  rewrite lookup_empty, bool_decide_false by by intros [? ?].
  unfold spf_result. rewrite Hkeys. cbn [foldl].
  by destruct (bool_decide (to = from)).
Qed.

(** ** Pruning *)

Lemma edges_of_prune g c :
  edges_of (prune g) c = filter (λ e, allowed g e = true) (edges_of g c).
Proof.
  unfold edges_of, vertices, prune; cbn [VertexSet].
  destruct (VertexSet g) as [m|]; simpl; [|by rewrite lookup_empty].
  rewrite lookup_fmap. by destruct (m !! c).
Qed.

Lemma spf_init_prune g from : spf_init (prune g) from = spf_init g from.
Proof.
  assert (∀ v, vertices (prune g) !! v
               = filter (λ e, allowed g e = true) <$> vertices g !! v) as Hkeys.
  { intros v. unfold vertices, prune; cbn [VertexSet].
    destruct (VertexSet g) as [m|]; simpl; [apply lookup_fmap|].
    by rewrite lookup_empty. }
  assert (∀ st1 st2 : @SPFState any,
            unvisitedSet st1 = unvisitedSet st2 → distSet st1 = distSet st2 →
            prevSet st1 = prevSet st2 → st1 = st2) as Hext.
  { intros [] []; simpl; by intros -> -> ->. }
  apply Hext; apply map_eq; intros v.
  - rewrite !spf_init_unvisitedSet, Hkeys. by destruct (vertices g !! v).
  - rewrite !spf_init_distSet, Hkeys. by destruct (vertices g !! v).
  - rewrite !spf_init_prevSet, Hkeys. by destruct (vertices g !! v).
Qed.

Lemma relax_edges_prune g c l st st' :
  relax_edges g c l st = Ok st' →
  relax_edges (prune g) c (filter (λ e, allowed g e = true) l) st = Ok st'.
Proof.
  revert st. induction l as [|e l IH]; intros st; [done|].
  simpl. destruct (relax_edge g c st e) as [st1|] eqn:Hedge; [|done].
  intros Hrest. rewrite relax_edge_cases in Hedge.
  destruct (decide (allowed g e = true)) as [Hyes|Hno].
  - rewrite filter_cons_True by done. simpl.
    rewrite relax_edge_cases. unfold allowed in Hyes.
    assert (edgeSatisfiesConstranints (prune g) e = (true, None)) as -> by done.
    destruct (edgeSatisfiesConstranints g e) as [[|] [err|]]; try done.
    rewrite Hedge. by apply IH.
  - rewrite filter_cons_False by done. unfold allowed in Hno.
    destruct (unvisited st (To e));
      [destruct (edgeSatisfiesConstranints g e) as [[|] [err|]]; try done|];
      injection Hedge as <-; by apply IH.
Qed.

Lemma spf_loop_prune fuel g st st' :
  spf_loop fuel g st = Some (Ok st') →
  spf_loop fuel (prune g) st = Some (Ok st').
Proof.
  revert st. induction fuel as [|fuel IH]; intros st; simpl;
    (destruct (0 <? size (unvisitedSet st))%nat; [|done]); [done|].
  unfold spf_round.
  set (c := getSmallestDistanceVertex (unvisitedSet st) (distSet st)).
  destruct (_ =? _)%nat; [done|]. rewrite edges_of_prune.
  destruct (relax_edges g c (edges_of g c) _) as [st1|] eqn:Hrelax; [|done].
  rewrite (relax_edges_prune _ _ _ _ _ Hrelax). apply IH.
Qed.

(** X12. Filtering during the relaxation and filtering before it come to
    the same, the order of the iteration being the same in the two runs
    that are compared; Go fixes no order, so this relates what the two
    runs can return, not two calls as they happen.  Under an order with
    which [SPF] on a graph with a predicate returns a graph, [SPF] on
    the pruned graph, the one with the same vertices, no predicate, and
    only the edges that pass the predicate, returns that graph; and
    under an order with which [SPF] on the pruned graph returns a
    graph, [SPF] on the graph itself returns that graph or the error of
    an evaluation. *)
Theorem SPF_is_SPF_of_the_pruned_graph g from to (G : @Graph any) :
  (@SPF any order (Some g) from to = (Some G, None) →
   @SPF any order (Some (prune g)) from to = (Some G, None)) ∧
  (@SPF any order (Some (prune g)) from to = (Some G, None) →
   @SPF any order (Some g) from to = (Some G, None) ∨
   ∃ err, @SPF any order (Some g) from to = (None, Some err)).
Proof.
  assert (∀ G', SPF (Some g) from to = (Some G', None) →
                SPF (Some (prune g)) from to = (Some G', None)) as Hthere.
  { intros G'. unfold SPF, relaxation. rewrite spf_init_prune.
    destruct (spf_loop _ g _) as [[st|err]|] eqn:Hrun; [|done..].
    by rewrite (spf_loop_prune _ _ _ _ Hrun). }
  split; [apply Hthere|]. intros Hpruned.
  destruct (SPF_returns g from to) as [[G' HG']|[err Herr]].
  - left. rewrite (Hthere G' HG') in Hpruned. by injection Hpruned as <-.
  - right. by exists err.
Qed.

(** ** The order of the iteration *)

(** X22. When no round of the loop finds two unvisited vertices at the
    same least distance below [infinity], the relaxation ends with the
    same distances and the same predecessor edges under every order of
    the iteration: the order only breaks ties. *)
Theorem relaxation_whatever_the_order g from :
  tie_free_loop (size (vertices g)) g (@spf_init any keys_in_order g from) = true →
  @relaxation any order g from = @relaxation any keys_in_order g from.
Proof.
  intros Hfree. unfold relaxation. rewrite spf_init_any_order.
  assert (size (unvisitedSet (@spf_init any keys_in_order g from))
          = size (vertices g)) as Hsize.
  { assert (unvisitedSet (@spf_init any keys_in_order g from)
            = (λ _, true) <$> vertices g) as ->.
    { apply map_eq. intros v. rewrite spf_init_unvisitedSet, lookup_fmap.
      by destruct (vertices g !! v). }
    by rewrite map_size_fmap. }
  rewrite Hsize. by apply spf_loop_any_order.
Qed.

End SpfFurther.

(** * The relaxation computes shortest routes *)

Section Routes.

Context {any : Type}.
Implicit Types (g : @Graph any) (e edge : @Edge any) (v w c u : Vertex).
Implicit Types (st : @SPFState any) (p q : list (@Edge any)).

Lemma walk_app v p w q to : walk v p w → walk w q to → walk v (p ++ q) to.
Proof.
  revert v. induction p as [|e p IH]; intros v; simpl.
  - by intros ->.
  - intros [-> Hp] Hq. split; [done|]. by apply IH.
Qed.

Lemma cost_of_app p q : cost_of (p ++ q) = cost_of p + cost_of q.
Proof.
  induction p as [|e p IH]; [done|].
  unfold cost_of in *; simpl. rewrite IH. lia.
Qed.

Lemma route_nil g v : route g v [] v.
Proof. by split. Qed.

Lemma route_snoc g v p e :
  route g v p (From e) → e ∈ edges_of g (From e) → allowed g e = true →
  route g v (p ++ [e]) (To e).
Proof.
  intros [Hwalk Hall] He Hsat. split.
  - eapply walk_app; [done|]. by split.
  - apply Forall_app. split; [done|]. by apply Forall_singleton.
Qed.

Lemma route_cons g e p to :
  route g (From e) (e :: p) to ↔
  e ∈ edges_of g (From e) ∧ allowed g e = true ∧ route g (To e) p to.
Proof.
  unfold route; simpl. rewrite Forall_cons. split.
  - by intros [[_ Hwalk] [[He Hsat] Hall]].
  - by intros (He & Hsat & Hwalk & Hall).
Qed.

Lemma elem_of_edges g v e : e ∈ edges_of g v → e ∈ edges g.
Proof.
  unfold edges_of, edges. intros He.
  destruct (vertices g !! v) as [l|] eqn:Hv; [|by apply elem_of_nil in He].
  apply list_elem_of_join. exists l. split; [done|].
  apply list_elem_of_fmap. exists (v, l). split; [done|].
  by apply elem_of_map_to_list.
Qed.

Lemma max_cost_ge g v e : e ∈ edges_of g v → Cost e ≤ max_cost g.
Proof.
  intros He%elem_of_edges. unfold max_cost.
  induction (edges g) as [|e1 l IH]; [by apply elem_of_nil in He|].
  rewrite fmap_cons. cbn [foldr].
  apply elem_of_cons in He as [->|He]; [apply N.le_max_l|].
  specialize (IH He). etrans; [exact IH|apply N.le_max_r].
Qed.

(** A route from a settled vertex to an unvisited one leaves the settled
    vertices along one of its edges. *)
Lemma route_leaves g st v p to :
  stored g →
  route g v p to → settled g st v → unvisited st to = true →
  ∃ p1 e p2,
    p = p1 ++ e :: p2 ∧ route g v p1 (From e) ∧ settled g st (From e) ∧
    e ∈ edges_of g (From e) ∧ allowed g e = true ∧
    unvisited st (To e) = true.
Proof.
  intros Hstored. revert v. induction p as [|e p IH]; intros v Hroute Hv Hto.
  - destruct Hroute as [<- _]. destruct Hv as [_ Hv]. congruence.
  - pose proof Hroute as [[<- _] _].
    apply route_cons in Hroute as (He & Hsat & Hrest).
    destruct (unvisited st (To e)) eqn:Hunv.
    + exists [], e, p. split_and!; [done|apply route_nil|done..].
    + destruct (IH (To e)) as (p1 & e' & p2 & -> & Hp1 & Hs & He' & Hsat' & Hu');
        [done| |done|].
      { split; [|done]. by apply (Hstored _ _ He). }
      exists (e :: p1), e', p2. split_and!; [done| |done..].
      apply route_cons. by split_and!.
Qed.

End Routes.

Section Dijkstra.

Context {any : Type} {order : MapRange}.
Implicit Types (g : @Graph any) (e edge : @Edge any) (v w c u : Vertex).
Implicit Types (st : @SPFState any) (p q : list (@Edge any)).

(** ** One vertex *)

Lemma relax_edge_from g u st e st' :
  dist st u + Cost e < 2 ^ 64 →
  relax_edge g u st e = Ok st' →
  (allowed g e = true ∧ unvisited st (To e) = true ∧
   dist st u + Cost e ≤ dist st (To e) ∧
   dist st' (To e) = dist st u + Cost e ∧
   prev st' (To e) = prev st (To e) ++ [e] ∧
   ∀ v, v ≠ To e → dist st' v = dist st v ∧ prev st' v = prev st v)
  ∨
  (st' = st ∧
   (allowed g e = true → unvisited st (To e) = true →
    dist st (To e) < dist st u + Cost e)).
Proof.
  intros Hsum. rewrite relax_edge_cases. unfold allowed, add64.
  rewrite N.mod_small by done.
  destruct (unvisited st (To e)) eqn:Hunv; [|intros [= <-]; by right].
  destruct (edgeSatisfiesConstranints g e) as [[|] [err|]]; try done;
    [|intros [= <-]; by right].
  destruct (_ <=? _) eqn:Hle; intros [= <-].
  - apply N.leb_le in Hle. left. split_and!; [done..| | |].
    + unfold dist at 1; cbn [distSet]. by rewrite lookup_insert_eq.
    + unfold prev at 1; cbn [prevSet]. by rewrite lookup_insert_eq.
    + intros v Hv. unfold dist, prev; cbn [distSet prevSet].
      by rewrite !lookup_insert_ne.
  - apply N.leb_gt in Hle. right. split; [done|]. by intros _ _.
Qed.

Lemma relax_edges_from g u l st st' :
  unvisited st u = false →
  (∀ e, e ∈ l → dist st u + Cost e < 2 ^ 64) →
  relax_edges g u l st = Ok st' →
  (∀ v, dist st' v = dist st v ∧ prev st' v = prev st v
        ∨ ∃ e, e ∈ l ∧ To e = v ∧ allowed g e = true ∧
               unvisited st v = true ∧
               dist st' v = dist st u + Cost e ∧ e ∈ prev st' v) ∧
  (∀ e, e ∈ l → allowed g e = true → unvisited st (To e) = true →
        dist st' (To e) ≤ dist st u + Cost e ∧
        (dist st u + Cost e ≤ dist st' (To e) → e ∈ prev st' (To e))) ∧
  (∀ w e, e ∈ prev st' w → e ∈ prev st w ∨ e ∈ l).
Proof.
  revert st. induction l as [|e1 l IH]; intros st Hu Hsum; simpl.
  - intros [= <-]. split_and!; [by left|by intros e ?%elem_of_nil|by left].
  - destruct (relax_edge g u st e1) as [st1|] eqn:Hedge; [|done].
    intros Hrest.
    pose proof (relax_edge_improves _ _ _ _ _ Hedge) as Himp1.
    pose proof (relax_edges_improves _ _ _ _ _ Hrest) as Himp2.
    pose proof (relax_edge_unvisitedSet _ _ _ _ _ Hedge) as Hset.
    assert (∀ v, unvisited st1 v = unvisited st v) as Hunv.
    { intros v. unfold unvisited. by rewrite Hset. }
    destruct (Himp1 u) as (_ & _ & Hfix). destruct (Hfix Hu) as (Hdu & _ & Hu1).
    destruct (IH st1) as (Hdist & Hrelaxed & Hnew); [done| |done|].
    { intros e He. rewrite Hdu. apply Hsum. by right. }
    rewrite Hdu in Hdist, Hrelaxed.
    apply relax_edge_from in Hedge
      as [(Hsat & Hto & Hle & Hd1 & Hp1 & Hother)|[-> Hno]];
      [| |apply Hsum; by left].
    + split_and!.
      * intros v. destruct (Hdist v) as [[Hd Hp]|(e & He & <- & ? & ? & ? & ?)].
        -- destruct (decide (v = To e1)) as [->|Hv].
           ++ right. exists e1. split_and!; [by left|done..| |].
              ** by rewrite Hd.
              ** rewrite Hp, Hp1. apply elem_of_app. right. by left.
           ++ left. destruct (Hother v Hv) as [<- <-]. done.
        -- right. exists e. rewrite <- Hunv. split_and!; [by right|done..].
      * intros e [->|He]%elem_of_cons Hsat' Hto'.
        -- destruct (Himp2 (To e1)) as (Hpre & Hle2 & _). split; [lia|].
           intros _. eapply elem_of_prefix; [|exact Hpre].
           rewrite Hp1. apply elem_of_app. right. by left.
        -- apply Hrelaxed; [done..|]. by rewrite Hunv.
      * intros w e [He|He]%Hnew; [|right; by right].
        destruct (decide (w = To e1)) as [->|Hw].
        -- rewrite Hp1 in He.
           apply elem_of_app in He as [He|He%list_elem_of_singleton];
             [by left|subst e; right; by left].
        -- left. destruct (Hother w Hw) as [_ <-]. done.
    + split_and!.
      * intros v. destruct (Hdist v) as [?|(e & He & <- & ? & ? & ? & ?)];
          [by left|].
        right. exists e. split_and!; [by right|done..].
      * intros e [->|He]%elem_of_cons Hsat' Hto'; [|by apply Hrelaxed].
        specialize (Hno Hsat' Hto').
        destruct (Himp2 (To e1)) as (_ & Hle2 & _). split; lia.
      * intros w e [He|He]%Hnew; [by left|right; by right].
Qed.

(** ** The invariant holds at the start *)

Lemma spf_init_dist g from v :
  is_Some (vertices g !! v) →
  dist (spf_init g from) v = if decide (from = v) then 0 else infinity.
Proof.
  intros [l Hv]. unfold dist. rewrite spf_init_distSet, Hv. by case_decide.
Qed.

Lemma spf_init_unvisited g from v :
  is_Some (vertices g !! v) → unvisited (spf_init g from) v = true.
Proof.
  intros [l Hv]. unfold unvisited. by rewrite spf_init_unvisitedSet, Hv.
Qed.

Lemma relaxed_so_far_init g from :
  is_Some (vertices g !! from) → relaxed_so_far g from (spf_init g from).
Proof.
  intros Hfrom.
  assert (∀ v, ¬ settled g (spf_init g from) v) as Hnone.
  { intros v [Hkey Hv]. rewrite spf_init_unvisited in Hv; done. }
  split_and!.
  - intros v. unfold unvisited. rewrite spf_init_unvisitedSet.
    destruct (vertices g !! v); [by split|by intros [? ?]].
  - assert (unvisitedSet (spf_init g from) = (λ _, true) <$> vertices g) as ->.
    { apply map_eq. intros v. rewrite spf_init_unvisitedSet, lookup_fmap.
      by destruct (vertices g !! v). }
    by rewrite map_size_fmap.
  - rewrite spf_init_dist, decide_True; done.
  - intros v Hv. rewrite spf_init_dist by done. case_decide as Heq; [|lia].
    subst v. intros _. exists []. split_and!; [apply route_nil|done|done].
  - intros v Hv. by apply Hnone in Hv.
  - intros u e Hu. by apply Hnone in Hu.
  - intros v Hv. rewrite spf_init_dist by done. case_decide as Heq; [|lia].
    intros _. apply N.le_0_l.
  - intros u v Hu. by apply Hnone in Hu.
  - intros u e Hu. by apply Hnone in Hu.
  - intros w e. unfold prev. rewrite spf_init_prevSet.
    destruct (vertices g !! w); by intros ?%elem_of_nil.
Qed.

(** ** A round keeps the invariant *)

Lemma relaxed_so_far_round g from st :
  stored g →
  vertices g !! Vertex_zero = None →
  N.of_nat (size (vertices g)) * max_cost g < infinity →
  is_Some (vertices g !! from) →
  relaxed_so_far g from st →
  match spf_round g st with
  | Continue st' => relaxed_so_far g from st'
  | Break st' => st' = st ∧ ∀ v, unvisited st v = true → ¬ dist st v < infinity
  | Abort _ => True
  end.
Proof.
  intros Hstored Hzero Hcosts Hfrom
    (Hset & Hsize & Hsrc & Hreach & Hsettled & Hrelaxed & Hbound & Hmono & Hecmp
     & Hleft).
  destruct (getSmallestDistanceVertex_spec (unvisitedSet st) (distSet st))
    as [[_ Hall]|(Hc & Hlt & Hmin)].
  { rewrite spf_round_break; [split; [done|]|done|].
    - intros v Hv. apply Hall. unfold unvisited in Hv.
      destruct (unvisitedSet st !! v); [by eexists|done].
    - apply eq_None_not_Some. intros [_ Hkey]%Hset.
      rewrite Hzero in Hkey. by destruct Hkey. }
  pose proof (spf_round_taken g st) as Hround. cbn zeta in Hround.
  unfold spf_round in *.
  set (c := getSmallestDistanceVertex (unvisitedSet st) (distSet st)) in *.
  set (st1 := mkSPFState (delete c (unvisitedSet st)) (distSet st) (prevSet st))
    in *.
  change (default 0 (distSet st !! c)) with (dist st c) in *.
  destruct (Hset c Hc) as [Hcu Hckey].
  assert (S (size (unvisitedSet st1)) = size (unvisitedSet st)) as Hsize1.
  { unfold st1; cbn [unvisitedSet]. rewrite map_size_delete_Some by done.
    destruct (size (unvisitedSet st)) eqn:Hn; [|simpl; lia].
    apply map_size_empty_inv in Hn. destruct Hc as [b Hc]. by rewrite Hn in Hc. }
  rewrite (proj2 (Nat.eqb_neq _ _)) in * by lia.
  destruct (relax_edges g c (edges_of g c) st1) as [st'|err] eqn:Hrelax;
    [clear Hround|done].
  pose proof (relax_edges_improves _ _ _ _ _ Hrelax) as Himp1.
  pose proof (improves_trans _ _ _ (delete_improves st c) Himp1) as Himp.
  pose proof (relax_edges_unvisitedSet _ _ _ _ _ Hrelax) as Hset'.
  assert (∀ v, unvisited st1 v = if decide (v = c) then false else unvisited st v)
    as Hunv1.
  { intros v. unfold unvisited, st1; cbn [unvisitedSet]. rewrite lookup_delete.
    repeat case_decide; by subst. }
  assert (∀ v, unvisited st' v = if decide (v = c) then false else unvisited st v)
    as Hunv'.
  { intros v. rewrite <- Hunv1. unfold unvisited. by rewrite Hset'. }
  assert (dist st' c = dist st c) as Hdc.
  { destruct (Himp1 c) as (_ & _ & Hfix). apply Hfix.
    rewrite Hunv1, decide_True; done. }
  assert (∀ v, settled g st' v ↔ settled g st v ∨ v = c) as Hsettled'.
  { intros v. unfold settled. rewrite Hunv'. case_decide as Hv.
    - subst v. split; [by right|by split].
    - split; [by left|]. by intros [?|?]. }
  set (k := (size (vertices g) - size (unvisitedSet st))%nat) in *.
  assert ((size (vertices g) - size (unvisitedSet st'))%nat = S k) as Hk.
  { rewrite Hset'. lia. }
  assert ((N.of_nat k + 1) * max_cost g ≤ N.of_nat (size (vertices g)) * max_cost g)
    as Hk1.
  { apply N.mul_le_mono_r. lia. }
  assert (dist st c ≤ N.of_nat k * max_cost g) as Hcbound by by apply Hbound.
  assert (∀ e, e ∈ edges_of g c → dist st c + Cost e ≤ (N.of_nat k + 1) * max_cost g)
    as Hsum.
  { intros e He%max_cost_ge. lia. }
  destruct (relax_edges_from g c (edges_of g c) st1 st') as (Hd & Hr & Hnew); [|
    |done|].
  { rewrite Hunv1, decide_True; done. }
  { intros e He%Hsum. change (dist st1 c) with (dist st c).
    unfold infinity in Hcosts. lia. }
  change (dist st1) with (dist st) in Hd, Hr.
  change (prev st1) with (prev st) in Hd, Hnew.
  split_and!.
  - intros v Hv. rewrite Hset' in Hv. unfold st1 in Hv; cbn [unvisitedSet] in Hv.
    rewrite lookup_delete in Hv. case_decide as Hvc; [by destruct Hv|].
    rewrite Hunv', decide_False by done. by apply Hset.
  - rewrite Hset'. lia.
  - destruct (Himp from) as (_ & Hle & _). lia.
  - intros v Hv Hvlt.
    destruct (Hd v) as [[Hdv Hpv]|(e & He & <- & Hsat & _ & Hde & Hrec)].
    + destruct (Hreach v) as (p & Hp & Hcost & Hrecorded); [done|lia|].
      exists p. split_and!; [done|lia|].
      eapply Forall_impl; [exact Hrecorded|]. intros e He. simpl in He.
      destruct (Himp (To e)) as (Hpre & _). by eapply elem_of_prefix.
    + destruct (Hreach c) as (p & Hp & Hcost & Hrecorded); [done..|].
      destruct (Hstored c e He) as [Hfe _].
      exists (p ++ [e]). split_and!.
      * apply route_snoc; rewrite ?Hfe; done.
      * rewrite cost_of_app. unfold cost_of at 2; simpl. lia.
      * apply Forall_app. split; [|by apply Forall_singleton].
        eapply Forall_impl; [exact Hrecorded|]. intros e' He'. simpl in He'.
        destruct (Himp (To e')) as (Hpre & _). by eapply elem_of_prefix.
  - intros v [Hv| ->]%Hsettled'.
    + destruct (Himp v) as (_ & _ & Hfix).
      destruct (Hfix (proj2 Hv)) as (-> & _). by apply Hsettled.
    + rewrite Hdc. split; [done|]. intros p Hp.
      destruct (unvisited st from) eqn:Hfu.
      * assert (dist st c ≤ dist st from) as Hle.
        { apply Hmin. unfold unvisited in Hfu.
          destruct (unvisitedSet st !! from); [by eexists|done]. }
        lia.
      * destruct (route_leaves g st from p c)
          as (p1 & e & p2 & -> & Hp1 & Hs & He & Hsat & Hu); [done..|].
        assert (dist st c ≤ dist st (To e)) as Hle1.
        { apply Hmin. unfold unvisited in Hu.
          destruct (unvisitedSet st !! To e); [by eexists|done]. }
        pose proof (Hrelaxed _ _ Hs He Hsat Hu) as Hle2.
        destruct (Hsettled _ Hs) as [_ Hle3]. specialize (Hle3 p1 Hp1).
        rewrite cost_of_app. unfold cost_of at 2; simpl.
        fold (cost_of p2). lia.
  - intros u e [Hu| ->]%Hsettled' He Hsat. rewrite Hunv'.
    + case_decide as Hto; [done|]. intros Hto'.
      destruct (Himp u) as (_ & _ & Hfix).
      destruct (Hfix (proj2 Hu)) as (-> & _).
      destruct (Himp (To e)) as (_ & Hle & _).
      specialize (Hrelaxed _ _ Hu He Hsat Hto'). lia.
    + intros Hto. rewrite Hdc. apply Hr; [done..|].
      rewrite Hunv1. rewrite Hunv' in Hto. done.
  - intros v Hv Hvlt. rewrite Hk.
    destruct (Hd v) as [[Hdv Hpv]|(e & He & <- & Hsat & _ & Hde & Hrec)].
    + rewrite Hdv in *. specialize (Hbound v Hv Hvlt). lia.
    + rewrite Hde. apply Hsum in He. lia.
  - intros u v Hu. rewrite Hunv'. case_decide as Hvc; [done|]. intros Hv.
    assert (dist st' u ≤ dist st c ∧ dist st' u ≤ dist st v) as [Hle1 Hle2].
    { apply Hsettled' in Hu as [Hu| ->].
      - destruct (Himp u) as (_ & _ & Hfix).
        destruct (Hfix (proj2 Hu)) as (-> & _). split; by apply Hmono.
      - rewrite Hdc. split; [done|]. apply Hmin. unfold unvisited in Hv.
        destruct (unvisitedSet st !! v); [by eexists|done]. }
    destruct (Hd v) as [[Hdv Hpv]|(e & He & _ & Hsat & _ & Hde & Hrec)]; lia.
  - intros u e [Hu| ->]%Hsettled' He Hsat Hpos Hle.
    + destruct (Himp u) as (_ & _ & Hfix).
      destruct (Hfix (proj2 Hu)) as (Hdu & _). rewrite Hdu in Hle.
      destruct (Himp (To e)) as (Hpre & Hle' & _).
      eapply elem_of_prefix; [|exact Hpre]. apply (Hecmp u); [done..|lia].
    + rewrite Hdc in Hle.
      destruct (unvisited st1 (To e)) eqn:Hto; [by apply Hr|].
      rewrite Hunv1 in Hto. case_decide as Htc.
      * rewrite Htc, Hdc in Hle. lia.
      * assert (settled g st (To e)) as Hs.
        { split; [|done]. by apply (Hstored c e He). }
        destruct (Himp (To e)) as (_ & _ & Hfix).
        destruct (Hfix Hto) as (Hdt & _). rewrite Hdt in Hle.
        assert (dist st (To e) ≤ dist st c) by by apply Hmono. lia.
  - intros w e [He|He]%Hnew; apply Hsettled'.
    + left. by eapply Hleft.
    + right. by apply (Hstored c e He).
Qed.

(** ** The whole relaxation *)

Lemma none_unvisited st v :
  (0 <? size (unvisitedSet st))%nat = false → unvisited st v = false.
Proof.
  intros Hsize%Nat.ltb_ge. unfold unvisited.
  assert (size (unvisitedSet st) = 0%nat) as Hempty%map_size_empty_inv by lia.
  by rewrite Hempty, lookup_empty.
Qed.

Lemma relaxed_so_far_loop fuel g from st st' :
  stored g →
  vertices g !! Vertex_zero = None →
  N.of_nat (size (vertices g)) * max_cost g < infinity →
  is_Some (vertices g !! from) →
  relaxed_so_far g from st →
  spf_loop fuel g st = Some (Ok st') →
  relaxed_so_far g from st' ∧
  ∀ v, unvisited st' v = true → ¬ dist st' v < infinity.
Proof.
  intros Hstored Hzero Hcosts Hfrom. revert st.
  induction fuel as [|fuel IH]; intros st Hinv; simpl;
    destruct (0 <? size (unvisitedSet st))%nat eqn:Hpos; try done.
  - intros [= <-]. split; [done|]. intros v Hv.
    by rewrite none_unvisited in Hv.
  - pose proof (relaxed_so_far_round g from st Hstored Hzero Hcosts Hfrom Hinv)
      as Hround.
    destruct (spf_round g st) as [st1|st1|err]; [|intros [= <-]|done].
    + by apply IH.
    + by destruct Hround as [-> Hinf].
  - intros [= <-]. split; [done|]. intros v Hv.
    by rewrite none_unvisited in Hv.
Qed.

Lemma route_key g v p to :
  stored g → is_Some (vertices g !! v) → route g v p to →
  is_Some (vertices g !! to).
Proof.
  intros Hstored. revert v. induction p as [|e p IH]; intros v Hv Hroute.
  - by destruct Hroute as [<- _].
  - pose proof Hroute as [[<- _] _].
    apply route_cons in Hroute as (He & Hsat & Hrest).
    apply (IH (To e)); [|done]. by apply (Hstored _ _ He).
Qed.

Lemma route_snoc_inv g v p e to :
  route g v (p ++ [e]) to →
  route g v p (From e) ∧ e ∈ edges_of g (From e) ∧ allowed g e = true ∧
  To e = to.
Proof.
  revert v. induction p as [|e1 p IH]; intros v; simpl.
  - intros [[<- <-] [[He Hsat] _]%Forall_cons]. split_and!; [apply route_nil|done..].
  - intros Hroute. pose proof Hroute as [[<- _] _].
    apply route_cons in Hroute as (He1 & Hsat1 & Hrest).
    apply IH in Hrest as (Hp & He & Hsat & Hto).
    split_and!; [|done..]. apply route_cons. by split_and!.
Qed.

(** What the relaxation ends with, for a source that is a vertex of a
    stored graph without the zero [Vertex] whose costs do not add up to
    [infinity]. *)
Lemma relaxation_relaxed g from st :
  stored g →
  vertices g !! Vertex_zero = None →
  N.of_nat (size (vertices g)) * max_cost g < infinity →
  is_Some (vertices g !! from) →
  relaxation g from = Some (Ok st) →
  relaxed_so_far g from st ∧
  (∀ v, is_Some (vertices g !! v) → dist st v ≤ infinity) ∧
  (∀ v p, route g from p v → settled g st v).
Proof.
  intros Hstored Hzero Hcosts Hfrom Hrun. unfold relaxation in Hrun.
  pose proof (spf_loop_improves _ _ _ _ Hrun) as Himp.
  apply relaxed_so_far_loop with (from := from) in Hrun as [Hinv Hinf];
    [|done..|by apply relaxed_so_far_init].
  split_and!; [done| |].
  - intros v Hv. destruct (Himp v) as (_ & Hle & _).
    rewrite spf_init_dist in Hle by done. case_decide; lia.
  - destruct Hinv as (Hset & Hsize & Hsrc & Hreach & Hsettled & Hrelaxed
      & Hbound & Hmono & Hecmp & Hleft).
    intros v p Hp. split; [by eapply route_key|].
    destruct (unvisited st v) eqn:Hv; [exfalso|done].
    assert (settled g st from) as Hsfrom.
    { split; [done|]. destruct (unvisited st from) eqn:Hfu; [|done].
      apply Hinf in Hfu. rewrite Hsrc in Hfu. by destruct Hfu. }
    destruct (route_leaves g st from p v)
      as (p1 & e & p2 & -> & Hp1 & Hs & He & Hsat & Hu); [done..|].
    pose proof (Hrelaxed _ _ Hs He Hsat Hu) as Hle.
    destruct (Hsettled _ Hs) as [Hlt _].
    pose proof (Hbound _ (proj1 Hs) Hlt) as Hb.
    pose proof (max_cost_ge _ _ _ He) as Hcost.
    assert (size (unvisitedSet st) ≠ 0%nat) as Hne.
    { intros Hempty%map_size_empty_inv. unfold unvisited in Hu.
      by rewrite Hempty, lookup_empty in Hu. }
    set (k := (size (vertices g) - size (unvisitedSet st))%nat) in *.
    assert ((N.of_nat k + 1) * max_cost g
            ≤ N.of_nat (size (vertices g)) * max_cost g) as Hk.
    { apply N.mul_le_mono_r. lia. }
    apply (Hinf _ Hu). lia.
Qed.

(** ** The graph of the recorded edges *)

Lemma eval_foldl_addEdge (G : @Graph any) l : eval (foldl addEdge G l) = eval G.
Proof.
  revert G. induction l as [|e l IH]; intros G; [done|].
  simpl. by rewrite IH, eval_addEdge.
Qed.

Lemma recorded_route st v p to :
  walk v p to → Forall (λ e, e ∈ prev st (To e)) p →
  route (spf_result (prevSet st)) v p to.
Proof.
  intros Hwalk Hrec. split; [done|].
  eapply Forall_impl; [exact Hrec|]. intros e He. simpl in He. split.
  - apply edges_of_spf_result. split; [done|]. by exists (To e).
  - unfold allowed, edgeSatisfiesConstranints.
    by rewrite spf_result_foldl, eval_foldl_addEdge.
Qed.

Lemma SPF_Some_inv g from to (G : @Graph any) :
  SPF (Some g) from to = (Some G, None) →
  ∃ st, relaxation g from = Some (Ok st) ∧
        (G = spf_result (prevSet st) ∨
         G = Graph_zero ∧ ¬ (to = from ∨ is_Some (vertices g !! to))).
Proof.
  intros HSPF. destruct (relaxation g from) as [[st|err]|] eqn:Hrun.
  - exists st. split; [done|].
    destruct (decide (to = from ∨ is_Some (vertices g !! to))) as [Hto|Hto].
    + left. rewrite (SPF_gate_open g from to st Hrun Hto) in HSPF. congruence.
    + right. split; [|done]. unfold SPF in HSPF. rewrite Hrun in HSPF.
      rewrite bool_decide_false, bool_decide_false in HSPF; [simpl in *; congruence| |].
      * intros ->. apply Hto. by left.
      * intros Hkey. apply Hto. right.
        by apply (relaxation_prevSet_keys g from st Hrun).
  - unfold SPF in HSPF. by rewrite Hrun in HSPF.
  - unfold SPF in HSPF. by rewrite Hrun in HSPF.
Qed.

(** A shortest route of positive costs goes along recorded edges. *)
Lemma shortest_route_recorded g from st p to :
  stored g →
  is_Some (vertices g !! from) →
  relaxed_so_far g from st →
  (∀ v q, route g from q v → settled g st v) →
  route g from p to → cost_of p ≤ dist st to →
  Forall (λ e, 0 < Cost e) p →
  Forall (λ e, e ∈ prev st (To e)) p.
Proof.
  intros Hstored Hfrom
    (Hset & Hsize & Hsrc & Hreach & Hsettled & Hrelaxed & Hbound & Hmono & Hecmp
     & Hleft) Hreached.
  revert to. induction p as [|e p IH] using rev_ind; intros to Hp Hcost Hpos;
    [done|].
  apply route_snoc_inv in Hp as (Hp & He & Hsat & <-).
  apply Forall_app in Hpos as [Hpos [Hpose _]%Forall_cons].
  rewrite cost_of_app in Hcost. unfold cost_of at 2 in Hcost; simpl in Hcost.
  pose proof (Hreached _ _ Hp) as Hs.
  destruct (Hsettled _ Hs) as [Hlt Hleast].
  pose proof (Hleast p Hp) as Hle.
  apply Forall_app. split.
  - apply (IH (From e)); [done| |done].
    destruct (Hreach (From e)) as (q & Hq & Hqcost & _); [by apply Hs|done|].
    assert (route g from (q ++ [e]) (To e)) as Hqe by by apply route_snoc.
    destruct (Hsettled _ (Hreached _ _ Hqe)) as [_ Hleast'].
    specialize (Hleast' _ Hqe). rewrite cost_of_app in Hleast'.
    unfold cost_of at 2 in Hleast'; simpl in Hleast'. lia.
  - apply Forall_singleton. apply (Hecmp (From e)); [done..|lia].
Qed.

(** ** Shortest routes *)

(** X13. On a graph in which every edge is kept by the vertex it leaves
    and enters a vertex of the graph, without the vertex of the empty
    ID, and whose largest cost times the number of vertices stays below
    [infinity], the relaxation from a vertex of the graph ends, under
    every order of the iteration, with the distance of every vertex
    right: a vertex that no route of edges passing the predicate
    reaches from the source is at [infinity]; any other is at the cost
    of one such route, below [infinity], and no route to it costs
    less. *)
Theorem relaxation_finds_the_least_cost g from st v :
  stored g →
  vertices g !! Vertex_zero = None →
  N.of_nat (size (vertices g)) * max_cost g < infinity →
  is_Some (vertices g !! from) →
  relaxation g from = Some (Ok st) →
  is_Some (vertices g !! v) →
  (dist st v = infinity ∧ ¬ ∃ p, route g from p v)
  ∨
  (∃ q, route g from q v ∧ cost_of q = dist st v ∧ dist st v < infinity ∧
        ∀ p, route g from p v → cost_of q ≤ cost_of p).
Proof.
  intros Hstored Hzero Hcosts Hfrom Hrun Hv.
  destruct (relaxation_relaxed g from st) as (Hinv & Hmax & Hreached); [done..|].
  destruct Hinv as (Hset & Hsize & Hsrc & Hreach & Hsettled & Hrelaxed
    & Hbound & Hmono & Hecmp & Hleft).
  destruct (decide (dist st v < infinity)) as [Hlt|Hge].
  - right. destruct (Hreach v Hv Hlt) as (q & Hq & Hcost & _).
    exists q. split_and!; [done..|]. intros p Hp. rewrite Hcost.
    by apply (Hsettled v (Hreached _ _ Hp)).
  - left. split; [specialize (Hmax v Hv); lia|].
    intros [p Hp]. by destruct (Hsettled v (Hreached _ _ Hp)) as [Hlt _].
Qed.

(** X14. On a graph in which every edge is kept by the vertex it leaves
    and enters a vertex of the graph, without the vertex of the empty
    ID, and whose largest cost times the number of vertices stays below
    [infinity], from a source that is a vertex of the graph: when
    some route of edges passing the predicate leads from the source to
    the destination, a graph that [SPF] returns holds a route from the
    source to the destination which is a route of the graph it was
    called on and costs no more than any route of that graph. *)
Theorem SPF_result_holds_a_shortest_route g from to p0 (G : @Graph any) :
  stored g →
  vertices g !! Vertex_zero = None →
  N.of_nat (size (vertices g)) * max_cost g < infinity →
  is_Some (vertices g !! from) →
  route g from p0 to →
  SPF (Some g) from to = (Some G, None) →
  ∃ q, route G from q to ∧ route g from q to ∧
       ∀ p, route g from p to → cost_of q ≤ cost_of p.
Proof.
  intros Hstored Hzero Hcosts Hfrom Hp0 HSPF.
  apply SPF_Some_inv in HSPF as (st & Hrun & HG).
  destruct (relaxation_relaxed g from st) as (Hinv & Hmax & Hreached); [done..|].
  pose proof (Hreached _ _ Hp0) as Hs.
  destruct HG as [->|[_ Hno]]; [|destruct Hno; right; apply Hs].
  destruct Hinv as (Hset & Hsize & Hsrc & Hreach & Hsettled & Hrelaxed
    & Hbound & Hmono & Hecmp & Hleft).
  destruct (Hsettled _ Hs) as [Hlt Hleast].
  destruct (Hreach to (proj1 Hs) Hlt) as (q & Hq & Hcost & Hrec).
  exists q. split_and!; [|done|by rewrite Hcost].
  apply recorded_route; [apply Hq|done].
Qed.

(** X15. On a graph in which every edge is kept by the vertex it leaves
    and enters a vertex of the graph, without the vertex of the empty
    ID, and whose largest cost times the number of vertices stays below
    [infinity], from a source that is a vertex of the graph: a
    graph that [SPF] returns holds every shortest route from the source
    to the destination whose edges all have a positive cost; routes of
    equal least cost are all there. *)
Theorem SPF_result_holds_every_shortest_route g from to p (G : @Graph any) :
  stored g →
  vertices g !! Vertex_zero = None →
  N.of_nat (size (vertices g)) * max_cost g < infinity →
  is_Some (vertices g !! from) →
  route g from p to →
  (∀ q, route g from q to → cost_of p ≤ cost_of q) →
  Forall (λ e, 0 < Cost e) p →
  SPF (Some g) from to = (Some G, None) →
  route G from p to.
Proof.
  intros Hstored Hzero Hcosts Hfrom Hp Hleast Hpos HSPF.
  apply SPF_Some_inv in HSPF as (st & Hrun & HG).
  destruct (relaxation_relaxed g from st) as (Hinv & Hmax & Hreached); [done..|].
  pose proof (Hreached _ _ Hp) as Hs.
  destruct HG as [->|[_ Hno]]; [|destruct Hno; right; apply Hs].
  apply recorded_route; [apply Hp|].
  apply (shortest_route_recorded g from st p to); [done..| |done].
  destruct Hinv as (_ & _ & _ & Hreach & Hsettled & _).
  destruct (Hsettled _ Hs) as [Hlt _].
  destruct (Hreach to (proj1 Hs) Hlt) as (q & Hq & <- & _). by apply Hleast.
Qed.

(** X16. On a graph in which every edge is kept by the vertex it leaves
    and enters a vertex of the graph, without the vertex of the empty
    ID, and whose largest cost times the number of vertices stays below
    [infinity], from a source that is a vertex of the graph:
    every edge of a graph that [SPF] returns lies on a route of that
    graph from the source, which is also a route of the graph [SPF]
    was called on; the result holds nothing that the source does not
    reach. *)
Theorem SPF_result_is_reached_from_the_source g from to (G : @Graph any) v e :
  stored g →
  vertices g !! Vertex_zero = None →
  N.of_nat (size (vertices g)) * max_cost g < infinity →
  is_Some (vertices g !! from) →
  SPF (Some g) from to = (Some G, None) →
  e ∈ edges_of G v →
  ∃ p, route G from (p ++ [e]) (To e) ∧ route g from (p ++ [e]) (To e).
Proof.
  intros Hstored Hzero Hcosts Hfrom HSPF He.
  apply SPF_Some_inv in HSPF as (st & Hrun & HG).
  destruct HG as [->|[-> _]]; [|by apply elem_of_nil in He].
  destruct (relaxation_relaxed g from st) as (Hinv & Hmax & Hreached); [done..|].
  destruct Hinv as (Hset & Hsize & Hsrc & Hreach & Hsettled & Hrelaxed
    & Hbound & Hmono & Hecmp & Hleft).
  apply edges_of_spf_result in He as [Hv [w Hw]].
  destruct (relaxation_recorded g from st Hrun w e Hw) as (Hto & [c Hc] & Hsat).
  pose proof (Hleft _ _ Hw) as Hs.
  destruct (Hsettled _ Hs) as [Hlt _].
  destruct (Hreach _ (proj1 Hs) Hlt) as (p & Hp & _ & Hrec).
  destruct (Hstored _ _ Hc) as [<- _].
  exists p. split.
  - apply recorded_route.
    + eapply walk_app; [apply Hp|]. by split.
    + apply Forall_app. split; [done|]. apply Forall_singleton. by rewrite Hto.
  - by apply route_snoc.
Qed.

End Dijkstra.

Section TwoOrders.

Context {any : Type} (order order' : MapRange).
Implicit Types (g : @Graph any) (v : Vertex) (st : @SPFState any).

(** X23. On a graph in which every edge is kept by the vertex it leaves
    and enters a vertex of the graph, without the vertex of the empty
    ID, and whose largest cost times the number of vertices stays below
    [infinity], from a source that is a vertex of the graph: the
    distances the relaxation ends with are the same under every order
    of the iteration, ties or not; two orders may record other
    predecessor edges, never another distance. *)
Theorem distances_whatever_the_order g from st st' v :
  stored g →
  vertices g !! Vertex_zero = None →
  N.of_nat (size (vertices g)) * max_cost g < infinity →
  is_Some (vertices g !! from) →
  @relaxation any order g from = Some (Ok st) →
  @relaxation any order' g from = Some (Ok st') →
  is_Some (vertices g !! v) →
  dist st v = dist st' v.
Proof.
  intros Hstored Hzero Hcosts Hfrom Hrun Hrun' Hv.
  destruct (@relaxation_relaxed any order g from st)
    as (Hinv & Hmax & Hreached); [done..|].
  destruct (@relaxation_relaxed any order' g from st')
    as (Hinv' & Hmax' & Hreached'); [done..|].
  destruct Hinv as (_ & _ & _ & Hreach & Hsettled & _).
  destruct Hinv' as (_ & _ & _ & Hreach' & Hsettled' & _).
  destruct (decide (dist st v < infinity)) as [Hlt|Hge];
    destruct (decide (dist st' v < infinity)) as [Hlt'|Hge'].
  - destruct (Hreach v Hv Hlt) as (p & Hp & Hcost & _).
    destruct (Hreach' v Hv Hlt') as (p' & Hp' & Hcost' & _).
    destruct (Hsettled v (Hreached _ _ Hp')) as [_ Hleast].
    destruct (Hsettled' v (Hreached' _ _ Hp)) as [_ Hleast'].
    specialize (Hleast _ Hp'). specialize (Hleast' _ Hp). lia.
  - destruct (Hreach v Hv Hlt) as (p & Hp & _).
    by destruct (Hsettled' v (Hreached' _ _ Hp)) as [Hlt' _].
  - destruct (Hreach' v Hv Hlt') as (p & Hp & _).
    by destruct (Hsettled v (Hreached _ _ Hp)) as [Hlt _].
  - specialize (Hmax v Hv). specialize (Hmax' v Hv). lia.
Qed.

End TwoOrders.

(** * The gate of the result *)

Section ResultGate.

Context {any : Type} {order : MapRange}.
Implicit Types (g : @Graph any) (v : Vertex) (st : @SPFState any).

(** C2, as the code has it.  For every graph, source and destination,
    [SPF] ends in one of two ways.  Either the relaxation runs to its
    end, as it always does on a graph with no predicate installed; the
    predecessor map then has an entry for every vertex of the graph,
    with or without edges in it, and for nothing else, and: for a
    destination other than the source that is not a vertex of the
    graph, and so has no entry in the predecessor map, [SPF] returns
    the empty graph and no error; for a destination that is a vertex of
    the graph, with or without predecessor edges recorded, or that is
    the source, [SPF] returns the graph built from every entry of the
    predecessor map, and no error.  Or the installed predicate fails on
    an edge, and [SPF] returns that error and no graph, whatever the
    destination. *)
Theorem SPF_result_gate g from to :
  (∃ st,
     relaxation g from = Some (Ok st) ∧
     (∀ v, is_Some (prevSet st !! v) ↔ is_Some (vertices g !! v)) ∧
     (to ≠ from → vertices g !! to = None →
      SPF (Some g) from to = (Some Graph_zero, None)) ∧
     (to = from ∨ is_Some (vertices g !! to) →
      SPF (Some g) from to = (Some (spf_result (prevSet st)), None)))
  ∨
  (∃ err ev,
     relaxation g from = Some (Err err) ∧ eval g = Some ev ∧
     SPF (Some g) from to = (None, Some err)).
Proof.
  destruct (relaxation_total g from) as [[st|err] Hrun].
  - left. exists st.
    pose proof (relaxation_prevSet_keys g from st Hrun) as Hkeys.
    split_and!; [done..| |by apply SPF_gate_open].
    intros Hne Hto. unfold SPF. rewrite Hrun.
    rewrite bool_decide_false, bool_decide_false; [done..|].
    rewrite Hkeys, Hto. by intros [? ?].
  - right. pose proof Hrun as Herr. unfold relaxation in Herr.
    apply spf_loop_error in Herr as (ev & c & e & Hev & _).
    exists err, ev. split_and!; [done..|]. unfold SPF. by rewrite Hrun.
Qed.

End ResultGate.

(** * The installed predicate *)

Section InstalledPredicate.

Context {any : Type} {order : MapRange} {engine : @ExpressionEngine any}.
Implicit Types (g : @Graph any) (e : @Edge any) (v c : Vertex).
Implicit Types (st : @SPFState any) (p q : list (@Edge any)).

(** C7. When [CSPF] returns no error, the expression has compiled to a
    predicate [ev] and the receiver is left with [ev] installed.  From
    then on the receiver tests every edge with [ev]: a step of the
    relaxation leaves the state as it is on an edge that [ev] rejects
    and treats an edge that [ev] accepts as a graph with no predicate
    would.  So a later [SPF] on the receiver, under any order of the
    iteration, is a constrained computation: the graph it returns holds
    only edges of the receiver that [ev] accepts; and, on a receiver in
    which every edge is kept by the vertex it leaves and enters a vertex
    of the graph, without the vertex of the empty ID, and whose largest
    cost times the number of vertices stays below [infinity], from a
    source that is a vertex, it holds a route to the destination that
    costs no more than any route along edges that [ev] accepts, when
    there is such a route.  Only a graph with no predicate installed
    lets every edge pass, and a graph with a predicate keeps one
    through every later [CSPF], [AddEdge] and [AddNode]. *)
Theorem CSPF_predicate_persists g from to exp
    (receiver result : option (@Graph any)) :
  CSPF (Some g) from to exp = (receiver, (result, None)) →
  ∃ ev,
    NewEvaluable exp = inl ev ∧
    receiver = Some (mkGraph (VertexSet g) (Some ev)) ∧
    (∀ e, edgeSatisfiesConstranints (mkGraph (VertexSet g) (Some ev)) e
          = match ev (Tags e) with
            | (_, Some err) => (false, Some err)
            | (match_, None) => (match_, None)
            end) ∧
    (∀ c st e, ev (Tags e) = (false, None) →
               relax_edge (mkGraph (VertexSet g) (Some ev)) c st e = Ok st) ∧
    (∀ c st e, ev (Tags e) = (true, None) →
               relax_edge (mkGraph (VertexSet g) (Some ev)) c st e
               = relax_edge (mkGraph (VertexSet g) None) c st e) ∧
    (∀ (later : MapRange) from' to' (G : @Graph any),
       @SPF any later receiver from' to' = (Some G, None) →
       ∀ v e, e ∈ edges_of G v →
              (∃ c, e ∈ edges_of g c) ∧ ev (Tags e) = (true, None)) ∧
    (∀ (later : MapRange) from' to' (G : @Graph any) p0,
       stored g →
       vertices g !! Vertex_zero = None →
       N.of_nat (size (vertices g)) * max_cost g < infinity →
       is_Some (vertices g !! from') →
       route (mkGraph (VertexSet g) (Some ev)) from' p0 to' →
       @SPF any later receiver from' to' = (Some G, None) →
       ∃ q, route G from' q to' ∧
            route (mkGraph (VertexSet g) (Some ev)) from' q to' ∧
            ∀ p, route (mkGraph (VertexSet g) (Some ev)) from' p to' →
                 cost_of q ≤ cost_of p) ∧
    (∀ g0 e, eval g0 = None → edgeSatisfiesConstranints g0 e = (true, None)) ∧
    (∀ g1 from' to' exp',
       is_Some (eval g1) →
       ∃ g2, (CSPF (Some g1) from' to' exp').1 = Some g2 ∧ is_Some (eval g2)) ∧
    (∀ g1 from' to' cost tags,
       is_Some (eval g1) → is_Some (eval (AddEdge g1 from' to' cost tags).1)) ∧
    (∀ g1 v, is_Some (eval g1) → is_Some (eval (AddNode g1 v))).
Proof.
  unfold CSPF at 1. destruct (NewEvaluable exp) as [ev|err] eqn:Hcompile; [|done].
  intros [= <- Hr]. exists ev.
  set (g1 := mkGraph (VertexSet g) (Some ev)).
  split_and!; try done.
  - intros c st e Hno. rewrite relax_edge_cases.
    unfold edgeSatisfiesConstranints; cbn [eval g1]. rewrite Hno.
    by destruct (unvisited st (To e)).
  - intros c st e Hyes. rewrite !relax_edge_cases.
    unfold edgeSatisfiesConstranints; cbn [eval g1]. by rewrite Hyes.
  - intros later from' to' G HSPF v e He.
    destruct (@SPF_subgraph any later g1 from' to' G HSPF v e He)
      as (_ & Hedge & Hsat & _).
    split; [exact Hedge|].
    unfold allowed, edgeSatisfiesConstranints in Hsat; cbn [eval g1] in Hsat.
    by destruct (ev (Tags e)) as [[|] [err|]].
  - intros later from' to' G p0 Hstored Hzero Hcosts Hfrom Hp0 HSPF.
    apply (@SPF_Some_inv any later) in HSPF as (st & Hrun & HG).
    destruct (@relaxation_relaxed any later g1 from' st)
      as (Hinv & Hmax & Hreached); [done..|].
    pose proof (Hreached _ _ Hp0) as Hs.
    destruct HG as [->|[_ Hno]]; [|destruct Hno; right; apply Hs].
    destruct Hinv as (_ & _ & _ & Hreach & Hsettled & _).
    destruct (Hsettled _ Hs) as [Hlt Hleast].
    destruct (Hreach to' (proj1 Hs) Hlt) as (q & Hq & Hcost & Hrec).
    exists q. split_and!; [|done|by rewrite Hcost].
    apply recorded_route; [apply Hq|done].
  - intros g0 e Hnone. unfold edgeSatisfiesConstranints. by rewrite Hnone.
  - intros g2 from' to' exp' Hev. unfold CSPF.
    destruct (NewEvaluable exp'); eexists; (split; [done|]); [by eexists|done].
  - intros g2 from' to' cost tags Hev. unfold AddEdge.
    destruct (negb _); [destruct (collect_tags tags ∅)|];
      cbn [fst]; by rewrite ?eval_addEdge.
  - intros g2 v Hev. by rewrite eval_AddNode.
Qed.

End InstalledPredicate.

(** * Further properties of Paths *)

Section PathsFurther.

Context {any : Type}.
Implicit Types (g : @Graph any) (e : @Edge any) (v w from to : Vertex).
Implicit Types (vs : @DfsValues any) (p : list (@Edge any)).

Lemma dfs_range_values_arrive
    (call : Vertex → option (@Edge any) → DfsValues → option DfsValues)
    g to (l : list (@Edge any)) vs vs' :
  (∀ e st st', e ∈ l → call (To e) (Some e) st = Some st' →
     Forall (λ e, ∃ w, e ∈ edges_of g w) (path_of st) ∧
       Forall (arrives g to) (paths_of st) →
     Forall (λ e, ∃ w, e ∈ edges_of g w) (path_of st') ∧
       Forall (arrives g to) (paths_of st')) →
  dfs_range_values call l vs = Some vs' →
  Forall (λ e, ∃ w, e ∈ edges_of g w) (path_of vs) ∧
    Forall (arrives g to) (paths_of vs) →
  Forall (λ e, ∃ w, e ∈ edges_of g w) (path_of vs') ∧
    Forall (arrives g to) (paths_of vs').
Proof.
  revert vs. induction l as [|e l IH]; intros vs Hcall; simpl.
  - by intros [= <-].
  - destruct (negb (default false (visited_of vs !! To e))).
    + destruct (call (To e) (Some e) vs) as [vs1|] eqn:Hcalled; [|done].
      intros Hrest Hinv. eapply IH; [|exact Hrest|].
      * intros e' st st' He'. apply Hcall. by right.
      * eapply Hcall; [by left|exact Hcalled|exact Hinv].
    + apply IH. intros e' st st' He'. apply Hcall. by right.
Qed.

Lemma dfs_values_arrive fuel g to v (oe : option (@Edge any)) vs vs' :
  dfs_values fuel g to v oe vs = Some vs' →
  match oe with
  | Some e => (∃ w, e ∈ edges_of g w) ∧ To e = v
  | None => v ≠ to
  end →
  Forall (λ e, ∃ w, e ∈ edges_of g w) (path_of vs) ∧
    Forall (arrives g to) (paths_of vs) →
  Forall (λ e, ∃ w, e ∈ edges_of g w) (path_of vs') ∧
    Forall (arrives g to) (paths_of vs').
Proof.
  revert v oe vs vs'.
  induction fuel as [|fuel IH]; intros v oe vs vs'; [done|].
  cbn [dfs_values].
  set (vs1 := mkDfsValues (<[v := true]> (visited_of vs)) (path_of vs)
                (paths_of vs)).
  set (vs2 := match oe with
              | Some e => mkDfsValues (visited_of vs1) (path_of vs1 ++ [e])
                            (paths_of vs1)
              | None => vs1
              end).
  intros Hrun Hoe [Hpath Hpaths].
  assert (Forall (λ e, ∃ w, e ∈ edges_of g w) (path_of vs2) ∧
          Forall (arrives g to) (paths_of vs2)) as Hinv2.
  { subst vs2. destruct oe as [e|]; [|done]. cbn [path_of paths_of].
    split; [|done]. apply Forall_app. split; [done|].
    apply Forall_singleton, Hoe. }
  destruct (if bool_decide (v = to)
            then Some (mkDfsValues (visited_of vs2) (path_of vs2)
                         (paths_of vs2 ++ [path_of vs2]))
            else dfs_range_values (dfs_values fuel g to) (edges_of g v) vs2)
    as [vs3|] eqn:Hr; [|done].
  assert (Forall (λ e, ∃ w, e ∈ edges_of g w) (path_of vs3) ∧
          Forall (arrives g to) (paths_of vs3)) as [Hpath3 Hpaths3].
  { case_bool_decide as Hv.
    - injection Hr as <-. cbn [path_of paths_of].
      split; [apply Hinv2|]. apply Forall_app. split; [apply Hinv2|].
      apply Forall_singleton. split; [apply Hinv2|].
      subst vs2. destruct oe as [e|]; [|done]. cbn [path_of].
      exists (path_of vs1), e. split; [done|]. destruct Hoe as [_ ->]. done.
    - eapply dfs_range_values_arrive; [|exact Hr|exact Hinv2].
      intros e st st' He Hcalled. eapply IH; [exact Hcalled|].
      split; [by exists v|done]. }
  injection Hrun as <-.
  destruct (0 <? length (path_of vs3))%nat; cbn [path_of paths_of];
    [|done].
  split; [|done]. by apply Forall_drop.
Qed.

End PathsFurther.

Section PathsOnSlices.

Context {any : Type}.
Implicit Types (g : @Graph any) (e : @Edge any) (v w from to : Vertex).

(** X17. The paths that [Paths] returns are the ones of the same search
    run on values, where a recorded path is a list of its own: the
    arrays that [path] and the recorded slices share are never written
    where a recorded path reads, so the result does not depend on how
    [append] grows an array. *)
Theorem Paths_whatever_the_growth (growth growth' : SliceGrowth)
    (g : option (@Graph any)) from to :
  @Paths any growth g from to = @Paths any growth' g from to ∧
  @Paths any growth g from to
  = match g with
    | Some g => default [] (Paths_values (dfs_depth g from) g from to)
    | None => []
    end.
Proof.
  destruct g as [g|]; [|done]. unfold Paths.
  by rewrite !Paths_slices_as_values.
Qed.

Context {growth : SliceGrowth}.

(** X18. From a vertex to itself [Paths] returns the one path with no
    edge, whatever the graph: the cycles through the vertex are not
    listed. *)
Theorem Paths_to_the_source g v : Paths (Some g) v v = [[]].
Proof. apply Paths_from_is_to. Qed.

(** X19. To another vertex, every path that [Paths] returns is made of
    edges of the graph and its last edge enters the destination; none
    is empty. *)
Theorem Paths_arrive g from to (p : list (@Edge any)) :
  from ≠ to →
  p ∈ Paths (Some g) from to →
  Forall (λ e, ∃ w, e ∈ edges_of g w) p ∧ ∃ p' e, p = p' ++ [e] ∧ To e = to.
Proof.
  intros Hne. unfold Paths. rewrite Paths_slices_as_values.
  unfold Paths_values.
  destruct (dfs_values _ g to from None _) as [vs|] eqn:Hrun;
    [|by intros ?%elem_of_nil].
  simpl. intros Hp.
  apply dfs_values_arrive in Hrun as [_ Hpaths]; [|done|by split].
  rewrite Forall_forall in Hpaths. by apply Hpaths.
Qed.

(** X20. When the source has no edge, as when it is no vertex of the
    graph, or when no edge enters the destination, [Paths] to another
    vertex returns no path. *)
Theorem Paths_without_a_way g from to :
  from ≠ to →
  edges_of g from = [] ∨ (∀ w e, e ∈ edges_of g w → To e ≠ to) →
  Paths (Some g) from to = [].
Proof.
  intros Hne Hno.
  destruct (Paths (Some g) from to) as [|p ps] eqn:Hpaths; [done|exfalso].
  assert (p ∈ Paths (Some g) from to) as Hp by (rewrite Hpaths; by left).
  destruct Hno as [Hfrom|Hto].
  - revert Hp. unfold Paths. rewrite Paths_slices_as_values.
    unfold Paths_values, dfs_depth.
    destruct (size ({[from]} ∪ targets g)) as [|fuel]; [by intros ?%elem_of_nil|].
    cbn [dfs_values]. rewrite bool_decide_false, Hfrom by done.
    simpl. by intros ?%elem_of_nil.
  - unfold Paths in Hp. rewrite Paths_slices_as_values in Hp.
    unfold Paths_values in Hp.
    destruct (dfs_values _ g to from None _) as [vs|] eqn:Hrun;
      [|by apply elem_of_nil in Hp].
    apply dfs_values_arrive in Hrun as [_ Hall]; [|done|by split].
    rewrite Forall_forall in Hall.
    destruct (Hall p Hp) as [Hedges (p' & e & -> & He)].
    apply Forall_app in Hedges as [_ [[w Hw] _]%Forall_cons].
    by apply (Hto w e).
Qed.

End PathsOnSlices.

(** * Further properties of CSPF *)

Section CspfFurther.

Context {any : Type} {order : MapRange} {engine : @ExpressionEngine any}.
Implicit Types (g : @Graph any) (e : @Edge any) (v : Vertex).

(** X21. When [CSPF] returns a graph, the expression has been compiled
    and installed in the receiver, and every edge of the returned graph
    is an edge of the receiver whose tags the compiled expression
    evaluates to true without an error. *)
Theorem CSPF_result_satisfies_the_expression g from to exp
    (g' : option (@Graph any)) (G : @Graph any) :
  CSPF (Some g) from to exp = (g', (Some G, None)) →
  ∃ ev, NewEvaluable exp = inl ev ∧
        g' = Some (mkGraph (VertexSet g) (Some ev)) ∧
        ∀ v e, e ∈ edges_of G v →
               (∃ c, e ∈ edges_of g c) ∧ ev (Tags e) = (true, None).
Proof.
  unfold CSPF. destruct (NewEvaluable exp) as [ev|err]; [|done].
  intros [= <- HSPF]. exists ev. split_and!; [done..|].
  intros v e He.
  destruct (SPF_subgraph _ _ _ _ HSPF v e He) as (_ & Hedge & Hsat & _).
  split; [done|].
  unfold allowed, edgeSatisfiesConstranints in Hsat; cbn [eval] in Hsat.
  by destruct (ev (Tags e)) as [[|] [err|]].
Qed.

End CspfFurther.

(** * Runs for the further properties *)

Section RunsFurther.

#[local] Existing Instance keys_in_order.
#[local] Existing Instance link_engine.
#[local] Existing Instance doubling.

(** ** The graph store *)

Lemma built_graph_is_stored_witness :
  mkEdge vA vB 1 None ∈ edges_of (built [@add_edge string vA vB 1 []]) vA ∧
  From (mkEdge vA vB 1 (@None (gmap string string))) = vA ∧
  is_Some (vertices (built [@add_edge string vA vB 1 []]) !! vB).
Proof.
  assert (mkEdge vA vB 1 None ∈ edges_of (built [@add_edge string vA vB 1 []]) vA)
    as He by (vm_compute; left).
  split; [exact He|].
  exact (built_graph_is_stored [@add_edge string vA vB 1 []] vA _ He).
Defined.

Lemma built_graph_only_grows_witness :
  is_Some (vertices (built [@add_edge string vA vB 1 []]) !! vB) ∧
  is_Some (vertices (built ([@add_edge string vA vB 1 []]
                            ++ [add_edge vB vC 2 []])) !! vB).
Proof.
  assert (is_Some (vertices (built [@add_edge string vA vB 1 []]) !! vB))
    as Hkey by (vm_compute; by eexists).
  split; [exact Hkey|].
  exact (proj2 (built_graph_only_grows [@add_edge string vA vB 1 []]
                  [add_edge vB vC 2 []] vB) Hkey).
Defined.

(** ** The closest vertex *)

Lemma getSmallestDistanceVertex_without_tie_witness :
  getSmallestDistanceVertex {[vA := true; vB := true]} {[vA := 3; vB := 5]} = vA.
Proof.
  apply (getSmallestDistanceVertex_without_tie
           {[vA := true; vB := true]} {[vA := 3; vB := 5]} vA).
  - vm_compute. by eexists.
  - by vm_compute.
  - intros w [b Hw] Hne.
    apply lookup_insert_Some in Hw as [[Heq _]|[_ Hw]]; [by destruct Hne|].
    apply lookup_singleton_Some in Hw as [<- _]. by vm_compute.
Defined.

(** ** The relaxation *)

Lemma relaxation_only_improves_witness :
  spf_loop 3 apart (spf_init apart vA) = Some (Ok (relaxed apart vA)) ∧
  dist (relaxed apart vA) vB ≤ dist (spf_init apart vA) vB.
Proof.
  assert (spf_loop 3 apart (spf_init apart vA) = Some (Ok (relaxed apart vA)))
    as Hrun by by vm_compute.
  split; [exact Hrun|].
  exact (proj1 (proj2 (relaxation_only_improves 3 apart _ _ Hrun vB))).
Defined.

Lemma source_is_taken_first_witness :
  is_Some (vertices apart !! vA) ∧
  relaxation apart vA = Some (Ok (relaxed apart vA)) ∧
  dist (relaxed apart vA) vA = 0.
Proof.
  assert (is_Some (vertices apart !! vA)) as Hkey by (vm_compute; by eexists).
  assert (relaxation apart vA = Some (Ok (relaxed apart vA)))
    as Hrun by by vm_compute.
  split_and!; [exact Hkey|exact Hrun|].
  exact (proj1 (proj2 (source_is_taken_first apart vA _ Hkey Hrun))).
Defined.

(** ** The result graph *)

Lemma SPF_result_is_a_subgraph_witness :
  SPF (Some apart) vA vB = (Some (SPF_graph apart vA vB), None) ∧
  mkEdge vA vB 1 None ∈ edges_of (SPF_graph apart vA vB) vA ∧
  allowed apart (mkEdge vA vB 1 None) = true.
Proof.
  assert (SPF (Some apart) vA vB = (Some (SPF_graph apart vA vB), None))
    as HSPF by by vm_compute.
  assert (mkEdge vA vB 1 None ∈ edges_of (SPF_graph apart vA vB) vA)
    as He by (vm_compute; left).
  split_and!; [exact HSPF|exact He|].
  exact (proj1 (proj2 (proj2
           (SPF_result_is_a_subgraph apart vA vB _ HSPF vA _ He)))).
Defined.

Lemma SPF_result_holds_the_recorded_edges_witness :
  relaxation apart vA = Some (Ok (relaxed apart vA)) ∧
  is_Some (vertices apart !! vB) ∧
  ∃ G, SPF (Some apart) vA vB = (Some G, None) ∧
       ∀ v e, e ∈ edges_of G v ↔ From e = v ∧ ∃ w, e ∈ prev (relaxed apart vA) w.
Proof.
  assert (relaxation apart vA = Some (Ok (relaxed apart vA)))
    as Hrun by by vm_compute.
  assert (is_Some (vertices apart !! vB)) as Hkey by (vm_compute; by eexists).
  split_and!; [exact Hrun|exact Hkey|].
  exact (SPF_result_holds_the_recorded_edges apart vA vB _ Hrun (or_intror Hkey)).
Defined.

Lemma SPF_is_SPF_of_the_pruned_graph_witness :
  SPF (Some coloured_red) vA vE = (Some (SPF_graph coloured_red vA vE), None) ∧
  SPF (Some (prune coloured_red)) vA vE
  = (Some (SPF_graph coloured_red vA vE), None).
Proof.
  assert (SPF (Some coloured_red) vA vE
          = (Some (SPF_graph coloured_red vA vE), None)) as HSPF by by vm_compute.
  split; [exact HSPF|].
  exact (proj1 (SPF_is_SPF_of_the_pruned_graph coloured_red vA vE _) HSPF).
Defined.

Lemma relaxation_whatever_the_order_witness :
  @relaxation string keys_reversed cycle vA
  = @relaxation string keys_in_order cycle vA.
Proof.
  apply (@relaxation_whatever_the_order string keys_reversed cycle vA).
  by vm_compute.
Defined.

(** ** Shortest routes *)

Lemma diamond_built :
  diamond = built [add_edge vA vB 1 []; add_edge vA vC 1 [];
                   add_edge vB vD 1 []; add_edge vC vD 1 []].
Proof. reflexivity. Qed.

Lemma diamond_stored : stored diamond.
Proof. rewrite diamond_built. apply stored_built. Qed.

Lemma diamond_route_by_B :
  route diamond vA [mkEdge vA vB 1 None; mkEdge vB vD 1 None] vD.
Proof.
  split; [by vm_compute|].
  repeat (apply Forall_cons; split; [split; [vm_compute; repeat constructor|by vm_compute]|]).
  apply Forall_nil_2.
Qed.

Lemma diamond_route_by_C :
  route diamond vA [mkEdge vA vC 1 None; mkEdge vC vD 1 None] vD.
Proof.
  split; [by vm_compute|].
  repeat (apply Forall_cons; split; [split; [vm_compute; repeat constructor|by vm_compute]|]).
  apply Forall_nil_2.
Qed.

Lemma relaxation_finds_the_least_cost_witness :
  vertices diamond !! Vertex_zero = None ∧
  N.of_nat (size (vertices diamond)) * max_cost diamond < infinity ∧
  is_Some (vertices diamond !! vA) ∧
  relaxation diamond vA = Some (Ok (relaxed diamond vA)) ∧
  is_Some (vertices diamond !! vD) ∧
  ((dist (relaxed diamond vA) vD = infinity ∧ ¬ ∃ p, route diamond vA p vD)
   ∨
   (∃ q, route diamond vA q vD ∧ cost_of q = dist (relaxed diamond vA) vD ∧
         dist (relaxed diamond vA) vD < infinity ∧
         ∀ p, route diamond vA p vD → cost_of q ≤ cost_of p)).
Proof.
  assert (vertices diamond !! Vertex_zero = None) as Hzero by by vm_compute.
  assert (N.of_nat (size (vertices diamond)) * max_cost diamond < infinity)
    as Hcosts by by vm_compute.
  assert (is_Some (vertices diamond !! vA)) as Hfrom by (vm_compute; by eexists).
  assert (relaxation diamond vA = Some (Ok (relaxed diamond vA)))
    as Hrun by by vm_compute.
  assert (is_Some (vertices diamond !! vD)) as Hto by (vm_compute; by eexists).
  split_and!; [exact Hzero|exact Hcosts|exact Hfrom|exact Hrun|exact Hto|].
  exact (relaxation_finds_the_least_cost diamond vA _ vD
           diamond_stored Hzero Hcosts Hfrom Hrun Hto).
Defined.

Lemma SPF_result_holds_a_shortest_route_witness :
  vertices diamond !! Vertex_zero = None ∧
  N.of_nat (size (vertices diamond)) * max_cost diamond < infinity ∧
  is_Some (vertices diamond !! vA) ∧
  SPF (Some diamond) vA vD = (Some (SPF_graph diamond vA vD), None) ∧
  ∃ q, route (SPF_graph diamond vA vD) vA q vD ∧ route diamond vA q vD ∧
       ∀ p, route diamond vA p vD → cost_of q ≤ cost_of p.
Proof.
  assert (vertices diamond !! Vertex_zero = None) as Hzero by by vm_compute.
  assert (N.of_nat (size (vertices diamond)) * max_cost diamond < infinity)
    as Hcosts by by vm_compute.
  assert (is_Some (vertices diamond !! vA)) as Hfrom by (vm_compute; by eexists).
  assert (SPF (Some diamond) vA vD = (Some (SPF_graph diamond vA vD), None))
    as HSPF by by vm_compute.
  split_and!; [exact Hzero|exact Hcosts|exact Hfrom|exact HSPF|].
  exact (SPF_result_holds_a_shortest_route diamond vA vD _ _
           diamond_stored Hzero Hcosts Hfrom diamond_route_by_B HSPF).
Defined.

Lemma diamond_least_cost p :
  route diamond vA p vD →
  cost_of [mkEdge vA vC 1 None; mkEdge vC vD 1 (@None (gmap string string))]
  ≤ cost_of p.
Proof.
  intros Hp.
  destruct (relaxation_relaxed diamond vA (relaxed diamond vA))
    as (Hinv & _ & Hreached);
    [apply diamond_stored|by vm_compute..|vm_compute; by eexists|by vm_compute|].
  destruct Hinv as (_ & _ & _ & _ & Hsettled & _).
  destruct (Hsettled _ (Hreached _ _ Hp)) as [_ Hleast].
  specialize (Hleast p Hp).
  assert (dist (relaxed diamond vA) vD = 2) as Hd by by vm_compute.
  rewrite Hd in Hleast. exact Hleast.
Qed.

Lemma SPF_result_holds_every_shortest_route_witness :
  vertices diamond !! Vertex_zero = None ∧
  N.of_nat (size (vertices diamond)) * max_cost diamond < infinity ∧
  is_Some (vertices diamond !! vA) ∧
  SPF (Some diamond) vA vD = (Some (SPF_graph diamond vA vD), None) ∧
  route (SPF_graph diamond vA vD) vA
    [mkEdge vA vC 1 None; mkEdge vC vD 1 None] vD.
Proof.
  assert (vertices diamond !! Vertex_zero = None) as Hzero by by vm_compute.
  assert (N.of_nat (size (vertices diamond)) * max_cost diamond < infinity)
    as Hcosts by by vm_compute.
  assert (is_Some (vertices diamond !! vA)) as Hfrom by (vm_compute; by eexists).
  assert (SPF (Some diamond) vA vD = (Some (SPF_graph diamond vA vD), None))
    as HSPF by by vm_compute.
  assert (Forall (λ e : @Edge string, 0 < Cost e)
            [mkEdge vA vC 1 None; mkEdge vC vD 1 None]) as Hpos.
  { repeat (apply Forall_cons; split; [by vm_compute|]). apply Forall_nil_2. }
  split_and!; [exact Hzero|exact Hcosts|exact Hfrom|exact HSPF|].
  exact (SPF_result_holds_every_shortest_route diamond vA vD _ _
           diamond_stored Hzero Hcosts Hfrom diamond_route_by_C
           diamond_least_cost Hpos HSPF).
Defined.

Lemma SPF_result_is_reached_from_the_source_witness :
  vertices diamond !! Vertex_zero = None ∧
  N.of_nat (size (vertices diamond)) * max_cost diamond < infinity ∧
  is_Some (vertices diamond !! vA) ∧
  SPF (Some diamond) vA vD = (Some (SPF_graph diamond vA vD), None) ∧
  mkEdge vB vD 1 None ∈ edges_of (SPF_graph diamond vA vD) vB ∧
  ∃ p, route (SPF_graph diamond vA vD) vA (p ++ [mkEdge vB vD 1 None]) vD ∧
       route diamond vA (p ++ [mkEdge vB vD 1 None]) vD.
Proof.
  assert (vertices diamond !! Vertex_zero = None) as Hzero by by vm_compute.
  assert (N.of_nat (size (vertices diamond)) * max_cost diamond < infinity)
    as Hcosts by by vm_compute.
  assert (is_Some (vertices diamond !! vA)) as Hfrom by (vm_compute; by eexists).
  assert (SPF (Some diamond) vA vD = (Some (SPF_graph diamond vA vD), None))
    as HSPF by by vm_compute.
  assert (mkEdge vB vD 1 None ∈ edges_of (SPF_graph diamond vA vD) vB)
    as He by (vm_compute; left).
  split_and!; [exact Hzero|exact Hcosts|exact Hfrom|exact HSPF|exact He|].
  exact (SPF_result_is_reached_from_the_source diamond vA vD _ vB _
           diamond_stored Hzero Hcosts Hfrom HSPF He).
Defined.

Lemma distances_whatever_the_order_witness :
  vertices diamond !! Vertex_zero = None ∧
  N.of_nat (size (vertices diamond)) * max_cost diamond < infinity ∧
  is_Some (vertices diamond !! vA) ∧
  @relaxation string keys_in_order diamond vA = Some (Ok (relaxed diamond vA)) ∧
  @relaxation string keys_reversed diamond vA
  = Some (Ok (relaxed_in_reverse diamond vA)) ∧
  is_Some (vertices diamond !! vD) ∧
  dist (relaxed diamond vA) vD = dist (relaxed_in_reverse diamond vA) vD.
Proof.
  assert (vertices diamond !! Vertex_zero = None) as Hzero by by vm_compute.
  assert (N.of_nat (size (vertices diamond)) * max_cost diamond < infinity)
    as Hcosts by by vm_compute.
  assert (is_Some (vertices diamond !! vA)) as Hfrom by (vm_compute; by eexists).
  assert (@relaxation string keys_in_order diamond vA
          = Some (Ok (relaxed diamond vA))) as Hrun by by vm_compute.
  assert (@relaxation string keys_reversed diamond vA
          = Some (Ok (relaxed_in_reverse diamond vA))) as Hrun' by by vm_compute.
  assert (is_Some (vertices diamond !! vD)) as Hto by (vm_compute; by eexists).
  split_and!; [exact Hzero|exact Hcosts|exact Hfrom|exact Hrun|exact Hrun'
              |exact Hto|].
  exact (distances_whatever_the_order keys_in_order keys_reversed diamond vA _ _ vD
           diamond_stored Hzero Hcosts Hfrom Hrun Hrun' Hto).
Defined.

(** ** The gate of the result *)

Lemma SPF_result_gate_witness :
  relaxation apart vA = Some (Ok (relaxed apart vA)) ∧
  vD ≠ vA ∧ vertices apart !! vD = None ∧
  SPF (Some apart) vA vD = (Some Graph_zero, None) ∧
  is_Some (vertices apart !! vC) ∧
  SPF (Some apart) vA vC = (Some (spf_result (prevSet (relaxed apart vA))), None).
Proof.
  assert (relaxation apart vA = Some (Ok (relaxed apart vA))) as Hrun
    by by vm_compute.
  assert (vD ≠ vA) as Hne by done.
  assert (vertices apart !! vD = None) as Hout by by vm_compute.
  assert (is_Some (vertices apart !! vC)) as Hin by (vm_compute; by eexists).
  split_and!; [exact Hrun|exact Hne|exact Hout| |exact Hin|].
  - destruct (SPF_result_gate apart vA vD)
      as [(st & _ & _ & Hempty & _)|(err & ev & Herr & _)].
    + exact (Hempty Hne Hout).
    + rewrite Hrun in Herr. discriminate Herr.
  - destruct (SPF_result_gate apart vA vC)
      as [(st & Hst & _ & _ & Hbuilt)|(err & ev & Herr & _)].
    + rewrite Hrun in Hst. injection Hst as <-.
      exact (Hbuilt (or_intror Hin)).
    + rewrite Hrun in Herr. discriminate Herr.
Defined.

(** ** The installed predicate *)

Lemma coloured_stored : stored coloured.
Proof.
  change coloured
    with (built [add_edge vA vB 2 [tagRed]; add_edge vB vC 2 [tagRed];
                 add_edge vC vE 2 [tagRed]; add_edge vA vD 1 [tagBlue];
                 add_edge vD vE 1 [tagBlue]]).
  apply stored_built.
Qed.

Lemma coloured_red_route :
  route coloured_red vA
    [mkEdge vA vB 2 (Some {["link" := "red"]});
     mkEdge vB vC 2 (Some {["link" := "red"]});
     mkEdge vC vE 2 (Some {["link" := "red"]})] vE.
Proof.
  split; [by vm_compute|].
  repeat (apply Forall_cons; split;
            [split; [vm_compute; repeat constructor|by vm_compute]|]).
  apply Forall_nil_2.
Qed.

(** After [CSPF] from A to D with the expression [red], a later [SPF]
    from A to E on the receiver returns red edges only and holds the
    red route of cost 6, where [SPF] on the graph before the call
    returns the blue edge A -> D as well. *)
Lemma CSPF_predicate_persists_witness :
  CSPF (Some coloured) vA vD "red"
  = (Some coloured_red, (Some (SPF_graph coloured_red vA vD), None)) ∧
  SPF (Some coloured_red) vA vE = (Some (SPF_graph coloured_red vA vE), None) ∧
  (∀ v e, e ∈ edges_of (SPF_graph coloured_red vA vE) v →
          link_equals "red" (Tags e) = (true, None)) ∧
  (∃ q, route (SPF_graph coloured_red vA vE) vA q vE ∧
        route coloured_red vA q vE ∧
        ∀ p, route coloured_red vA p vE → cost_of q ≤ cost_of p) ∧
  edges_of (SPF_graph coloured vA vE) vA
  = [mkEdge vA vB 2 (Some {["link" := "red"]});
     mkEdge vA vD 1 (Some {["link" := "blue"]})] ∧
  edges_of (SPF_graph coloured_red vA vE) vA
  = [mkEdge vA vB 2 (Some {["link" := "red"]})].
Proof.
  assert (CSPF (Some coloured) vA vD "red"
          = (Some coloured_red, (Some (SPF_graph coloured_red vA vD), None)))
    as HCSPF by by vm_compute.
  assert (SPF (Some coloured_red) vA vE
          = (Some (SPF_graph coloured_red vA vE), None)) as HSPF by by vm_compute.
  destruct (CSPF_predicate_persists coloured vA vD "red" _ _ HCSPF)
    as (ev & Hcompile & _ & _ & _ & _ & Honly & Hroute & _).
  assert (ev = link_equals "red") as -> by (by injection Hcompile as <-).
  split_and!; [exact HCSPF|exact HSPF| | |by vm_compute..].
  - intros v e He.
    exact (proj2 (Honly keys_in_order vA vE _ HSPF v e He)).
  - eapply (Hroute keys_in_order vA vE _ _ coloured_stored);
      [by vm_compute|by vm_compute|vm_compute; by eexists
      |exact coloured_red_route|exact HSPF].
Defined.

(** ** Paths *)

Lemma Paths_arrive_witness :
  vA ≠ vD ∧
  [mkEdge vB vC 1 None; mkEdge vB vD 1 None] ∈ Paths (Some fork) vA vD ∧
  ∃ p' e, [mkEdge vB vC 1 None; mkEdge vB vD 1 (@None (gmap string string))]
          = p' ++ [e] ∧ To e = vD.
Proof.
  assert (vA ≠ vD) as Hne by done.
  assert ([mkEdge vB vC 1 None; mkEdge vB vD 1 None] ∈ Paths (Some fork) vA vD)
    as Hp by (vm_compute; left).
  split_and!; [exact Hne|exact Hp|].
  exact (proj2 (Paths_arrive fork vA vD _ Hne Hp)).
Defined.

Lemma Paths_without_a_way_witness :
  vC ≠ vA ∧ edges_of apart vC = [] ∧ Paths (Some apart) vC vA = [].
Proof.
  assert (vC ≠ vA) as Hne by done.
  assert (edges_of apart vC = []) as Hno by by vm_compute.
  split_and!; [exact Hne|exact Hno|].
  exact (Paths_without_a_way apart vC vA Hne (or_introl Hno)).
Defined.

(** ** CSPF *)

Lemma CSPF_result_satisfies_the_expression_witness :
  CSPF (Some coloured) vA vE "red"
  = (Some coloured_red, (Some (SPF_graph coloured_red vA vE), None)) ∧
  ∃ ev, NewEvaluable "red" = inl ev ∧
        Some coloured_red = Some (mkGraph (VertexSet coloured) (Some ev)) ∧
        ∀ v e, e ∈ edges_of (SPF_graph coloured_red vA vE) v →
               (∃ c, e ∈ edges_of coloured c) ∧ ev (Tags e) = (true, None).
Proof.
  assert (CSPF (Some coloured) vA vE "red"
          = (Some coloured_red, (Some (SPF_graph coloured_red vA vE), None)))
    as HCSPF by by vm_compute.
  split; [exact HCSPF|].
  exact (CSPF_result_satisfies_the_expression coloured vA vE "red" _ _ HCSPF).
Defined.

End RunsFurther.
